(** * Mixpoint audio engine: beat grid, transport, mixer, stems, dispatcher

    A shallow embedding of the engine's handlers.  A JavaScript number that
    carries a time is written as the rational it prints as ([Q]).  Where the
    rounding of IEEE 754 doubles decides what a handler does, namely in the
    quotient that is cut to a marker index, in the 5 ms test and the skip
    distance of a seek and in the loops of the beat grid, the arithmetic is
    done on binary64 floats ([Q2double], [BeatGrid64]); [BeatGrid] is the
    same calculator in exact arithmetic.
    The crossfade curve, which needs a cosine, lives in the reals.  Calls
    into collaborators (database, file system, audio nodes, waveform widget)
    are results handed in by the caller or commands appended to a log. *)

From Stdlib Require Import QArith Qround Lqa Lia ZArith List Ascii String Bool.
From Stdlib Require Import Reals Psatz.
From Stdlib Require Import Floats.
From stdpp Require Import base option list gmap sorting.

Local Open Scope Q_scope.

(** ** JavaScript values *)

(** [!x] is false exactly for a number that is present and not zero. *)
Definition truthy (x : option Q) : bool :=
  match x with
  | Some q => negb (Qeq_bool q 0)
  | None => false
  end.

(** [a || b] on optional numbers. *)
Definition js_or (a b : option Q) : option Q :=
  if truthy a then a else b.

(** [a || d] where [d] is a number literal. *)
Definition js_or_lit (a : option Q) (d : Q) : Q :=
  match a with
  | Some q => if Qeq_bool q 0 then d else q
  | None => d
  end.

(** [isNaN(Number(x))] for a field that is a number or undefined. *)
Definition isNaN_Number (x : option Q) : bool :=
  match x with
  | Some _ => false
  | None => true
  end.

(** [a < b] on numbers. *)
Definition Qltb (a b : Q) : bool := if Qlt_le_dec a b then true else false.

(** *** Numbers as binary64 *)

(** The double a decimal literal denotes: the rational rounded to the
    nearest binary64 value, ties to even. *)
Definition Q2double (q : Q) : float :=
  SF2Prim
    (match Qnum q with
     | Z0 => S754_zero false
     | Zpos n =>
         SFdiv prec emax (S754_finite false n 0)
               (S754_finite false (Qden q) 0)
     | Zneg n =>
         SFdiv prec emax (S754_finite true n 0)
               (S754_finite false (Qden q) 0)
     end).

(** The rational a finite double is; [NaN] and the infinities are none. *)
Definition double2Q (x : float) : option Q :=
  match Prim2SF x with
  | S754_zero _ => Some 0
  | S754_finite s m e =>
      let n := if s then Zneg m else Zpos m in
      Some (match e with
            | Zneg k => n # 2 ^ k
            | _ => inject_Z (n * 2 ^ e)
            end)
  | _ => None
  end.

(** [a / b] as the program computes it, on doubles. *)
Definition quotient64 (a b : Q) : option Q :=
  double2Q (Q2double a / Q2double b).

(** Outcome of a handler that may throw or loop. *)
Inductive outcome (A : Type) : Type :=
| Returned (a : A)
| Threw (msg : string)
| OutOfFuel.
Arguments Returned {A} a.
Arguments Threw {A} msg.
Arguments OutOfFuel {A}.

(** ** Beat grid calculator ([calcRegions]), in exact arithmetic *)

Module BeatGrid.

Record Track := mkTrack {
  id : nat;
  name : string;
  duration : option Q;
  bpm : option Q;
  offset : option Q;
  adjustedOffset : option Q
}.

Record TrackState := mkTrackState {
  adjustedBpm : option Q;
  beatResolution : option Q;
  mixpoint : option string
}.

Record Region := mkRegion {
  start : Q;
  end_ : Q
}.

Record Regions := mkRegions {
  r_duration : Q;
  r_adjustedBpm : option Q;
  r_skipLength : Q;
  r_beatResolution : Q;
  r_regions : list Region;
  r_mixpoint : option string
}.

(** What [analyzeTracks([track])] reports for the track. *)
Record Analysis := mkAnalysis {
  a_duration : option Q;
  a_bpm : option Q;
  a_offset : option Q
}.

(** [{ ...prevTrackState, ...partialTrackState }] *)
Definition mergeTrackState (prev partial : TrackState) : TrackState :=
  {| adjustedBpm := from_option Some (adjustedBpm prev) (adjustedBpm partial);
     beatResolution :=
       from_option Some (beatResolution prev) (beatResolution partial);
     mixpoint := from_option Some (mixpoint prev) (mixpoint partial) |}.

(** [valsMissing] *)
Definition valsMissing (track : Track) : bool :=
  negb (truthy (duration track))
  || isNaN_Number (bpm track)
  || isNaN_Number (offset track).

(** Duration, bpm and offset after the optional analysis pass. *)
Definition analyzed (track : Track) (an : Analysis)
  : option Q * option Q * option Q :=
  if valsMissing track
  then (a_duration an, a_bpm an, a_offset an)
  else (duration track, bpm track, offset track).

(** [while (startPoint - beatInterval > 0) startPoint -= beatInterval] *)
Fixpoint zeroTime (fuel : nat) (beatInterval startPoint : Q) : option Q :=
  if Qlt_le_dec 0 (startPoint - beatInterval) then
    match fuel with
    | O => None
    | S fuel' => zeroTime fuel' beatInterval (startPoint - beatInterval)
    end
  else Some startPoint.

(** [for (let time = startPoint; time < duration; time += skipLength)] *)
Fixpoint pushRegions (fuel : nat) (skipLength duration time : Q)
  : option (list Region) :=
  if Qlt_le_dec time duration then
    match fuel with
    | O => None
    | S fuel' =>
        match pushRegions fuel' skipLength duration (time + skipLength) with
        | Some rest =>
            Some ({| start := time; end_ := time + skipLength |} :: rest)
        | None => None
        end
    end
  else Some [].

Definition calcRegions (fuel : nat) (track : Track) (an : Analysis)
    (prevTrackState partialTrackState : TrackState) : outcome Regions :=
  let '(duration, bpm, offset) := analyzed track an in
  if negb (truthy duration)
  then Threw ("Please try adding " ++ name track ++ " again.")
  else
    let ts := mergeTrackState prevTrackState partialTrackState in
    let beatResolution := default (1 # 4) (beatResolution ts) in
    let beatInterval := 60 / js_or_lit (js_or (adjustedBpm ts) bpm) 1 in
    let startPoint := js_or_lit (js_or (adjustedOffset track) offset) 0 in
    let skipLength := beatInterval * (1 / beatResolution) in
    match zeroTime fuel beatInterval startPoint with
    | None => OutOfFuel
    | Some startPoint =>
        match pushRegions fuel skipLength (default 0 duration) startPoint with
        | None => OutOfFuel
        | Some regions =>
            Returned {| r_duration := default 0 duration;
                        r_adjustedBpm := adjustedBpm ts;
                        r_skipLength := skipLength;
                        r_beatResolution := beatResolution;
                        r_regions := regions;
                        r_mixpoint := mixpoint ts |}
        end
    end.

(** The tempo and first-beat position the grid is built from. *)
Definition effectiveBpm (ts : TrackState) (bpm : option Q) : Q :=
  js_or_lit (js_or (adjustedBpm ts) bpm) 1.

Definition effectiveOffset (track : Track) (offset : option Q) : Q :=
  js_or_lit (js_or (adjustedOffset track) offset) 0.

End BeatGrid.

(** ** Beat grid calculator ([calcRegions]), on doubles as the program
    runs it *)

Module BeatGrid64.

Local Open Scope float_scope.

Record Track := mkTrack {
  id : nat;
  name : string;
  duration : option float;
  bpm : option float;
  offset : option float;
  adjustedOffset : option float
}.

Record TrackState := mkTrackState {
  adjustedBpm : option float;
  beatResolution : option float;
  mixpoint : option string
}.

Record Region := mkRegion {
  start : float;
  end_ : float
}.

Record Regions := mkRegions {
  r_duration : float;
  r_adjustedBpm : option float;
  r_skipLength : float;
  r_beatResolution : float;
  r_regions : list Region;
  r_mixpoint : option string
}.

Record Analysis := mkAnalysis {
  a_duration : option float;
  a_bpm : option float;
  a_offset : option float
}.

(** [!x] is false exactly for a number that is neither zero nor [NaN]. *)
Definition truthy (x : option float) : bool :=
  match x with
  | Some f => negb (f =? 0) && negb (is_nan f)
  | None => false
  end.

Definition js_or (a b : option float) : option float :=
  if truthy a then a else b.

Definition js_or_lit (a : option float) (d : float) : float :=
  match a with
  | Some f => if truthy a then f else d
  | None => d
  end.

(** [isNaN(Number(x))] *)
Definition isNaN_Number (x : option float) : bool :=
  match x with
  | Some f => is_nan f
  | None => true
  end.

Definition mergeTrackState (prev partial : TrackState) : TrackState :=
  {| adjustedBpm := from_option Some (adjustedBpm prev) (adjustedBpm partial);
     beatResolution :=
       from_option Some (beatResolution prev) (beatResolution partial);
     mixpoint := from_option Some (mixpoint prev) (mixpoint partial) |}.

Definition valsMissing (track : Track) : bool :=
  negb (truthy (duration track))
  || isNaN_Number (bpm track)
  || isNaN_Number (offset track).

Definition analyzed (track : Track) (an : Analysis)
  : option float * option float * option float :=
  if valsMissing track
  then (a_duration an, a_bpm an, a_offset an)
  else (duration track, bpm track, offset track).

(** [while (startPoint - beatInterval > 0) startPoint -= beatInterval] *)
Fixpoint zeroTime (fuel : nat) (beatInterval startPoint : float)
  : option float :=
  if 0 <? startPoint - beatInterval then
    match fuel with
    | O => None
    | S fuel' => zeroTime fuel' beatInterval (startPoint - beatInterval)
    end
  else Some startPoint.

(** [for (let time = startPoint; time < duration; time += skipLength)] *)
Fixpoint pushRegions (fuel : nat) (skipLength duration time : float)
  : option (list Region) :=
  if time <? duration then
    match fuel with
    | O => None
    | S fuel' =>
        match pushRegions fuel' skipLength duration (time + skipLength) with
        | Some rest =>
            Some ({| start := time; end_ := time + skipLength |} :: rest)
        | None => None
        end
    end
  else Some [].

(** The tempo and first-beat position the grid is built from. *)
Definition effectiveBpm (ts : TrackState) (bpm : option float) : float :=
  js_or_lit (js_or (adjustedBpm ts) bpm) 1.

Definition effectiveOffset (track : Track) (offset : option float) : float :=
  js_or_lit (js_or (adjustedOffset track) offset) 0.

Definition calcRegions (fuel : nat) (track : Track) (an : Analysis)
    (prevTrackState partialTrackState : TrackState) : outcome Regions :=
  let '(duration, bpm, offset) := analyzed track an in
  if negb (truthy duration)
  then Threw ("Please try adding " ++ name track ++ " again.")
  else
    let ts := mergeTrackState prevTrackState partialTrackState in
    let beatResolution := default 0.25 (beatResolution ts) in
    let beatInterval := 60 / effectiveBpm ts bpm in
    let startPoint := effectiveOffset track offset in
    let skipLength := beatInterval * (1 / beatResolution) in
    match zeroTime fuel beatInterval startPoint with
    | None => OutOfFuel
    | Some startPoint =>
        match pushRegions fuel skipLength (default 0 duration) startPoint with
        | None => OutOfFuel
        | Some regions =>
            Returned {| r_duration := default 0 duration;
                        r_adjustedBpm := adjustedBpm ts;
                        r_skipLength := skipLength;
                        r_beatResolution := beatResolution;
                        r_regions := regions;
                        r_mixpoint := mixpoint ts |}
        end
    end.

End BeatGrid64.

(** ** Playback transport, mixer and stem controls ([audioEvents]) *)

(** The four stems ([STEMS]). *)
Inductive Stem := drums | bass | vocals | other.

#[global] Instance Stem_eq_dec : EqDecision Stem.
Proof. solve_decision. Defined.

Definition Stem_to_nat (s : Stem) : nat :=
  match s with drums => 0 | bass => 1 | vocals => 2 | other => 3 end.

Definition Stem_of_nat (n : nat) : option Stem :=
  match n with
  | 0 => Some drums | 1 => Some bass | 2 => Some vocals | 3 => Some other
  | _ => None
  end%nat.

#[global] Instance Stem_countable : Countable Stem.
Proof.
  apply (inj_countable Stem_to_nat Stem_of_nat). intros []; reflexivity.
Defined.

Definition STEMS : list Stem := [drums; bass; vocals; other].

(** What the handlers need from a gain or volume value: the literals [0]
    and [1] and JavaScript truthiness.  Handlers otherwise only store such
    values, so they are run on rationals and, for the cosine curve of the
    crossfader, on reals. *)
Class JsNumber (num : Type) := {
  num_zero : num;
  num_one : num;
  num_truthy : num -> bool
}.

#[global] Instance JsNumber_Q : JsNumber Q :=
  {| num_zero := 0; num_one := 1; num_truthy q := negb (Qeq_bool q 0) |}.

Module Engine.

(** A [Tone.Player] is known by its identity; calls on it are logged, and
    so are the destruction of a waveform and a gain that is set to
    [undefined]. *)
Inductive Cmd :=
| Start (player : nat) (at_ : Q) (offset : option Q)
| Stop (player : nat) (at_ : Q)
| PlaybackRate (player : nat) (rate : Q)
| ConnectMeter (player : nat)
| DestroyWaveform (trackId : nat)
| GainUndefined (trackId : nat) (stem : option Stem).

(** The waveform widget as far as the transport reads and drives it. *)
Record Waveform := mkWaveform {
  markers : list Q;
  skipLength : Q;
  currentTime : Q;
  playheadTime : Q;
  destroyed : bool
}.

(** The closure passed to [setInterval] by [play]. *)
Record Timer := mkTimer {
  owner : nat;
  meters : list Stem;
  contextStartTime : Q;
  startOffset : option Q
}.

Record TrackPrefs := mkTrackPrefs {
  adjustedBpm : option Q;
  mixpointTime : option Q
}.

Section State.
Context {num : Type} `{JsNumber num}.

Record StemSt := mkStemSt {
  s_player : option nat;
  s_gainNode : option num;
  s_volume : option num;
  s_volumeMeter : option Q;
  s_mute : option bool
}.

Record TrackSt := mkTrackSt {
  waveform : option Waveform;
  player : option nat;
  time : option Q;
  gainNode : option num;
  stems : option (gmap Stem StemSt);
  playing : option bool;
  volumeMeter : option Q;
  volumeMeterInterval : option Z
}.

Record World := mkWorld {
  audioState : gmap nat TrackSt;
  (** the audio context clock and how often [now()] was called *)
  clock : Q;
  clockReads : nat;
  (** time that passes at the n-th suspension point ([await]) *)
  latency : nat -> Q;
  awaits : nat;
  (** live [setInterval] timers by handle, and the next handle *)
  timers : gmap Z Timer;
  nextTimer : Z;
  (** calls made on players, newest first *)
  audioLog : list Cmd;
  (** persisted collaborators: track preferences, analysed bpm, mix slots *)
  trackPrefs : gmap nat TrackPrefs;
  dbBpm : gmap nat Q;
  mixTracks : option (list (option nat))
}.

Definition emptyStem : StemSt :=
  {| s_player := None; s_gainNode := None; s_volume := None;
     s_volumeMeter := None; s_mute := None |}.

Definition emptyTrack : TrackSt :=
  {| waveform := None; player := None; time := None; gainNode := None;
     stems := None; playing := None; volumeMeter := None;
     volumeMeterInterval := None |}.

(** *** Field updates *)

Definition with_s_gainNode (v : option num) (s : StemSt) : StemSt :=
  {| s_player := s_player s; s_gainNode := v; s_volume := s_volume s;
     s_volumeMeter := s_volumeMeter s; s_mute := s_mute s |}.

Definition with_s_volume (v : option num) (s : StemSt) : StemSt :=
  {| s_player := s_player s; s_gainNode := s_gainNode s; s_volume := v;
     s_volumeMeter := s_volumeMeter s; s_mute := s_mute s |}.

Definition with_s_volumeMeter (v : option Q) (s : StemSt) : StemSt :=
  {| s_player := s_player s; s_gainNode := s_gainNode s;
     s_volume := s_volume s; s_volumeMeter := v; s_mute := s_mute s |}.

Definition with_s_mute (v : option bool) (s : StemSt) : StemSt :=
  {| s_player := s_player s; s_gainNode := s_gainNode s;
     s_volume := s_volume s; s_volumeMeter := s_volumeMeter s; s_mute := v |}.

Definition with_waveform (v : option Waveform) (t : TrackSt) : TrackSt :=
  {| waveform := v; player := player t; time := time t;
     gainNode := gainNode t; stems := stems t; playing := playing t;
     volumeMeter := volumeMeter t;
     volumeMeterInterval := volumeMeterInterval t |}.

Definition with_time (v : option Q) (t : TrackSt) : TrackSt :=
  {| waveform := waveform t; player := player t; time := v;
     gainNode := gainNode t; stems := stems t; playing := playing t;
     volumeMeter := volumeMeter t;
     volumeMeterInterval := volumeMeterInterval t |}.

Definition with_gainNode (v : option num) (t : TrackSt) : TrackSt :=
  {| waveform := waveform t; player := player t; time := time t;
     gainNode := v; stems := stems t; playing := playing t;
     volumeMeter := volumeMeter t;
     volumeMeterInterval := volumeMeterInterval t |}.

Definition with_stems (v : option (gmap Stem StemSt)) (t : TrackSt)
  : TrackSt :=
  {| waveform := waveform t; player := player t; time := time t;
     gainNode := gainNode t; stems := v; playing := playing t;
     volumeMeter := volumeMeter t;
     volumeMeterInterval := volumeMeterInterval t |}.

Definition with_playing (v : option bool) (t : TrackSt) : TrackSt :=
  {| waveform := waveform t; player := player t; time := time t;
     gainNode := gainNode t; stems := stems t; playing := v;
     volumeMeter := volumeMeter t;
     volumeMeterInterval := volumeMeterInterval t |}.

Definition with_volumeMeter (v : option Q) (t : TrackSt) : TrackSt :=
  {| waveform := waveform t; player := player t; time := time t;
     gainNode := gainNode t; stems := stems t; playing := playing t;
     volumeMeter := v; volumeMeterInterval := volumeMeterInterval t |}.

Definition with_volumeMeterInterval (v : option Z) (t : TrackSt) : TrackSt :=
  {| waveform := waveform t; player := player t; time := time t;
     gainNode := gainNode t; stems := stems t; playing := playing t;
     volumeMeter := volumeMeter t; volumeMeterInterval := v |}.

Definition with_audioState (v : gmap nat TrackSt) (w : World) : World :=
  {| audioState := v; clock := clock w; clockReads := clockReads w;
     latency := latency w; awaits := awaits w; timers := timers w;
     nextTimer := nextTimer w; audioLog := audioLog w;
     trackPrefs := trackPrefs w; dbBpm := dbBpm w;
     mixTracks := mixTracks w |}.

Definition with_timers (v : gmap Z Timer) (n : Z) (w : World) : World :=
  {| audioState := audioState w; clock := clock w;
     clockReads := clockReads w; latency := latency w; awaits := awaits w;
     timers := v; nextTimer := n; audioLog := audioLog w;
     trackPrefs := trackPrefs w; dbBpm := dbBpm w;
     mixTracks := mixTracks w |}.

(** A call on a player. *)
Definition emit (c : Cmd) (w : World) : World :=
  {| audioState := audioState w; clock := clock w;
     clockReads := clockReads w; latency := latency w; awaits := awaits w;
     timers := timers w; nextTimer := nextTimer w;
     audioLog := c :: audioLog w;
     trackPrefs := trackPrefs w; dbBpm := dbBpm w;
     mixTracks := mixTracks w |}.

(** A suspension point: the clock moves on before the handler resumes. *)
Definition await (w : World) : World :=
  {| audioState := audioState w;
     clock := clock w + latency w (awaits w);
     clockReads := clockReads w; latency := latency w;
     awaits := S (awaits w);
     timers := timers w; nextTimer := nextTimer w; audioLog := audioLog w;
     trackPrefs := trackPrefs w; dbBpm := dbBpm w;
     mixTracks := mixTracks w |}.

(** [now()] *)
Definition now (w : World) : Q * World :=
  (clock w,
   {| audioState := audioState w; clock := clock w;
      clockReads := S (clockReads w); latency := latency w;
      awaits := awaits w;
      timers := timers w; nextTimer := nextTimer w; audioLog := audioLog w;
      trackPrefs := trackPrefs w; dbBpm := dbBpm w;
      mixTracks := mixTracks w |}).

(** [setAudioState[id].field(v)]: the entry is created when missing. *)
Definition setTrack (id : nat) (f : TrackSt -> TrackSt) (w : World) : World :=
  with_audioState
    (<[id := f (default emptyTrack (audioState w !! id))]> (audioState w)) w.

(** [setAudioState[id].stems[stem].field(v)] *)
Definition setStem (id : nat) (stem : Stem) (f : StemSt -> StemSt)
    (w : World) : World :=
  setTrack id
    (fun t =>
       let ss := default ∅ (stems t) in
       with_stems (Some (<[stem := f (default emptyStem (ss !! stem))]> ss)) t)
    w.

(** [getAudioState[id].field()] *)
Definition getTrack (id : nat) (w : World) : TrackSt :=
  default emptyTrack (audioState w !! id).

(** [Object.entries(audioState)]: integer keys come in ascending order. *)
Definition key_le (a b : nat * TrackSt) : Prop := (a.1 ≤ b.1)%nat.

#[global] Instance key_le_dec a b : Decision (key_le a b).
Proof. unfold key_le. apply _. Defined.

Definition entries (m : gmap nat TrackSt) : list (nat * TrackSt) :=
  merge_sort key_le (map_to_list m).

(** A track id used as a condition: [0] is falsy. *)
Definition idGiven (trackId : option nat) : option nat :=
  match trackId with
  | Some 0%nat => None
  | given => given
  end.

(** [clearInterval(handle)] *)
Definition clearInterval (h : option Z) (w : World) : World :=
  match h with
  | Some h => with_timers (delete h (timers w)) (nextTimer w) w
  | None => w
  end.

(** [setInterval(callback, 20)] *)
Definition setInterval (t : Timer) (w : World) : Z * World :=
  (nextTimer w,
   with_timers (<[nextTimer w := t]> (timers w)) (nextTimer w + 1)%Z w).

Definition clearVolumeMeter (id : nat) (w : World) : World :=
  clearInterval (volumeMeterInterval (getTrack id w)) w.

(** *** [play] *)

(** The stems branch of [play]: every stem that has a player gets its rate,
    a meter, and a start at the shared [contextStartTime]. *)
Definition startStem (contextStartTime : Q) (time rate : option Q)
    (acc : list Stem * World) (entry : Stem * StemSt) : list Stem * World :=
  let '(meters, w) := acc in
  let '(stem, st) := entry in
  match s_player st with
  | None => acc
  | Some p =>
      let w := match rate with
               | Some r => emit (PlaybackRate p r) w
               | None => w
               end in
      let w := emit (ConnectMeter p) w in
      (meters ++ [stem], emit (Start p contextStartTime time) w)
  end.

(** [!waveform || !player || (trackId && id !== String(trackId))] *)
Definition skipped (trackId : option nat) (id : nat) (t : TrackSt) : bool :=
  negb (bool_decide (is_Some (waveform t)))
  || negb (bool_decide (is_Some (player t)))
  || match idGiven trackId with
     | Some wanted => negb (bool_decide (id = wanted))
     | None => false
     end.

(** One iteration of the loop over the loaded tracks. *)
Definition playTrack (contextStartTime : Q) (trackId : option nat)
    (w : World) (entry : nat * TrackSt) : World :=
  let '(id, t) := entry in
  if skipped trackId id t then w
  else
    let w := clearVolumeMeter id w in
    (* await getTrackPrefs(id) *)
    let w := await w in
    let adjusted := (trackPrefs w !! id) ≫= adjustedBpm in
    (* await db.tracks.get(id), only when a bpm adjustment exists *)
    let '(bpm, w) :=
      if truthy adjusted then (dbBpm w !! id, await w) else (None, w) in
    let rate :=
      match adjusted, bpm with
      | Some a, Some b =>
          if truthy adjusted && truthy bpm then Some (a / b) else None
      | _, _ => None
      end in
    let '(meters, w) :=
      match stems (getTrack id w) with
      | Some ss =>
          foldl (startStem contextStartTime (time t) rate) ([], w)
                (map_to_list ss)
      | None =>
          ([], match player t with
               | Some p => emit (Start p contextStartTime (time t)) w
               | None => w
               end)
      end in
    let '(newInterval, w) :=
      setInterval {| owner := id; meters := meters;
                     contextStartTime := contextStartTime;
                     startOffset := time t |} w in
    let w := setTrack id (with_volumeMeterInterval (Some newInterval)) w in
    setTrack id (with_playing (Some true)) w.

Definition play (trackId : option nat) (w : World) : World :=
  (* await start() *)
  let w := await w in
  let '(contextStartTime, w) := now w in
  foldl (playTrack contextStartTime trackId) w (entries (audioState w)).

(** *** [pause] *)

(** [Transport.context.currentTime + 0.1] *)
Definition releaseTime (w : World) : Q := clock w + (1 # 10).

Definition stopPlayer (w : World) (p : option nat) : World :=
  match p with
  | Some p => emit (Stop p (releaseTime w)) w
  | None => w
  end.

Definition pauseStem (id : nat) (w : World) (entry : Stem * StemSt) : World :=
  let '(stem, st) := entry in
  let w := setStem id stem (with_s_volumeMeter (Some 0)) w in
  stopPlayer w (s_player st).

Definition pauseTrack (w : World) (id : nat) : World :=
  let w :=
    match stems (getTrack id w) with
    | Some ss => foldl (pauseStem id) w (map_to_list ss)
    | None => w
    end in
  let w := clearVolumeMeter id w in
  let w := setTrack id (with_volumeMeter (Some 0)) w in
  let w := setTrack id (with_volumeMeterInterval (Some (-1)%Z)) w in
  setTrack id (with_playing (Some false)) w.

(** [_getAllPlayers] *)
Definition _getAllPlayers (w : World) : list (option nat) :=
  map Some (omap (fun e => player e.2) (entries (audioState w))).

Definition pause (trackId : option nat) (w : World) : World :=
  let '(players, trackIds) :=
    match idGiven trackId with
    | Some id => ([player (getTrack id w)], [id])
    | None => (_getAllPlayers w, map fst (entries (audioState w)))
    end in
  let w := foldl stopPlayer w players in
  foldl pauseTrack w trackIds.

(** *** [seek] *)

Inductive Direction := previous | next.

Definition directionStep (direction : option Direction) : Z :=
  match direction with
  | Some next => 1
  | Some previous => -1
  | None => 0
  end.

(** [markers[index]] for an index that may be negative, or not a finite
    number at all, as when [skipLength] is zero. *)
Definition markerAt (ms : list Q) (index : option Z) : option Q :=
  match index with
  | Some i => if (i <? 0)%Z then None else ms !! Z.to_nat i
  | None => None
  end.

(** [Math.floor(startTime / skipLength)]: the integer below the quotient
    of the two doubles. *)
Definition floorIndex (startTime skip : Q) : option Z :=
  Qfloor <$> quotient64 startTime skip.

(** [time > startTime + 0.005 || time < startTime - 0.005], on doubles. *)
Definition beyond5ms (time startTime : Q) : bool :=
  let t := Q2double time in
  let s := Q2double startTime in
  ((s + Q2double (5 # 1000) <? t) || (t <? s - Q2double (5 # 1000)))%float.

Definition setPlayheadTime (t : Q) (wf : Waveform) : Waveform :=
  {| markers := markers wf; skipLength := skipLength wf;
     currentTime := currentTime wf; playheadTime := t;
     destroyed := destroyed wf |}.

(** The marker [seek] resolves, before the 5 ms test. *)
Definition seekTarget (wf : Waveform) (startTime : option Q)
    (direction : option Direction) : Q * option Q :=
  let startTime := js_or_lit startTime (currentTime wf) in
  let currentMarkerIndex := floorIndex startTime (skipLength wf) in
  let newIndex := (fun i => i + directionStep direction)%Z
                    <$> currentMarkerIndex in
  (startTime, markerAt (markers wf) newIndex).

(** [seek] awaits the [pause] it starts and calls [play] last, without
    awaiting it: its promise resolves while that [play] is suspended at
    [await start()].  The state given here is the one that [play] leaves
    when it has run to its end with no other handler started meanwhile. *)
Definition seek (trackId : nat) (startTime : option Q)
    (direction : option Direction) (w : World) : World :=
  let t := getTrack trackId w in
  match waveform t with
  | None => w
  | Some wf =>
      let wasPlaying := bool_decide (playing t = Some true) in
      let w := if wasPlaying then await (pause (Some trackId) w) else w in
      let '(startTime, time) := seekTarget wf startTime direction in
      let w :=
        match time with
        | Some tm =>
            if truthy time && beyond5ms tm startTime
            then
              let w :=
                setTrack trackId
                  (with_waveform (Some (setPlayheadTime tm wf))) w in
              setTrack trackId (with_time (Some tm)) w
            else w
        | None => w
        end in
      if wasPlaying then play (Some trackId) w else w
  end.

(** *** Volume controls *)

(** [gainNode.gain.setValueAtTime(volume, now())] on a stem. *)
Definition setStemGain (id : nat) (stem : Stem) (volume : num) (w : World)
  : World :=
  let '(_, w) := now w in
  setStem id stem (with_s_gainNode (Some volume)) w.

Definition updateStemVolume (id : nat) (volume : num)
    (stemType : option Stem) (w : World) (entry : Stem * StemSt) : World :=
  let '(stem, st) := entry in
  if bool_decide (is_Some stemType ∧ stemType ≠ Some stem) then w
  else if bool_decide (is_Some (s_gainNode st))
       then setStemGain id stem volume w
       else w.

Definition updateVolume (trackId : nat) (volume : num)
    (stemType : option Stem) (w : World) : World :=
  match stems (getTrack trackId w) with
  | None =>
      match gainNode (getTrack trackId w) with
      | Some _ =>
          let '(_, w) := now w in
          setTrack trackId (with_gainNode (Some volume)) w
      | None => w
      end
  | Some ss => foldl (updateStemVolume trackId volume stemType) w
                     (map_to_list ss)
  end.

(** [updateVolume(trackId, undefined, stemType)], as [crossfade] calls it
    from the third mix slot on: every gain node that [updateVolume] reaches
    is handed [undefined] with a fresh reading of the clock.  What the audio
    library makes of that value is not this program's affair: the call is
    logged and the gain on record is left as it is. *)
Definition setGainUndefined (trackId : nat) (stem : option Stem) (w : World)
  : World :=
  let '(_, w) := now w in
  emit (GainUndefined trackId stem) w.

Definition updateStemUndefined (id : nat) (stemType : option Stem)
    (w : World) (entry : Stem * StemSt) : World :=
  let '(stem, st) := entry in
  if bool_decide (is_Some stemType ∧ stemType ≠ Some stem) then w
  else if bool_decide (is_Some (s_gainNode st))
       then setGainUndefined id (Some stem) w
       else w.

Definition updateVolumeUndefined (trackId : nat) (stemType : option Stem)
    (w : World) : World :=
  match stems (getTrack trackId w) with
  | None =>
      match gainNode (getTrack trackId w) with
      | Some _ => setGainUndefined trackId None w
      | None => w
      end
  | Some ss => foldl (updateStemUndefined trackId stemType) w (map_to_list ss)
  end.

Definition stemVolume (trackId : nat) (stemType : Stem) (volume : num)
    (w : World) : World :=
  match stems (getTrack trackId w) with
  | None => w
  | Some ss =>
      let w :=
        match (ss !! stemType) ≫= s_gainNode with
        | Some _ => setStemGain trackId stemType volume w
        | None => w
        end in
      setStem trackId stemType (with_s_volume (Some volume)) w
  end.

(** [volume || 1] *)
Definition volumeOrOne (volume : option num) : num :=
  match volume with
  | Some v => if num_truthy v then v else num_one
  | None => num_one
  end.

Definition stemMuteToggle (trackId : nat) (stemType : Stem) (mute : bool)
    (w : World) : World :=
  match stems (getTrack trackId w) with
  | None => w
  | Some ss =>
      let stem := ss !! stemType in
      let w :=
        match stem ≫= s_gainNode with
        | Some _ =>
            setStemGain trackId stemType
              (if mute then num_zero else volumeOrOne (stem ≫= s_volume)) w
        | None => w
        end in
      setStem trackId stemType (with_s_mute (Some mute)) w
  end.

Definition soloStep (trackId : nat) (stem : Stem) (solo : bool)
    (w : World) (s : Stem) : World :=
  if bool_decide (s ≠ stem) then stemMuteToggle trackId s solo w else w.

Definition stemSoloToggle (trackId : nat) (stem : Stem) (solo : bool)
    (w : World) : World :=
  match stems (getTrack trackId w) with
  | None => w
  | Some ss => foldl (soloStep trackId stem solo) w (map fst (map_to_list ss))
  end.

(** *** [destroy] *)

Definition destroy (trackId : nat) (w : World) : World :=
  let w :=
    match waveform (getTrack trackId w) with
    | Some _ => emit (DestroyWaveform trackId) w
    | None => w
    end in
  with_audioState (delete trackId (audioState w)) w.

End State.

Arguments StemSt num : clear implicits.
Arguments TrackSt num : clear implicits.
Arguments World num : clear implicits.

(** *** [crossfade] *)

#[global] Instance JsNumber_R : JsNumber R :=
  {| num_zero := 0%R; num_one := 1%R;
     num_truthy r := if Req_dec_T r 0 then false else true |}.

(** [volumes]: the gains of the left and the right slot. *)
Definition crossfadeVolumes (sliderVal : R) : list R :=
  let sliderPercent := (sliderVal / 100)%R in
  [Rmin 1 (1 + cos (sliderPercent * PI));
   Rmin 1 (1 + cos ((1 - sliderPercent) * PI))].

(** The body of [tracks.forEach((track, i) => ...)]; [volumes] has an entry
    for the first two slots only, so that [volumes[i]] is [undefined] for
    every later one. *)
Definition crossfadeSlot (volumes : list R) (stemType : option Stem)
    (w : World R) (entry : nat * option nat) : World R :=
  let '(i, track) := entry in
  match idGiven track with
  | Some id =>
      match volumes !! i with
      | Some volume => updateVolume id volume stemType w
      | None => updateVolumeUndefined id stemType w
      end
  | None => w
  end.

Definition crossfade (sliderVal : R) (stemType : option Stem) (w : World R)
  : World R :=
  (* await getPrefs('mix') *)
  let w := await w in
  match mixTracks w with
  | None => w
  | Some tracks =>
      foldl (crossfadeSlot (crossfadeVolumes sliderVal) stemType) w
            (imap pair tracks)
  end.

End Engine.

(** ** Event dispatcher and waveform listeners ([audioEvent],
    [loadAudioEvents]) *)

Module Dispatcher.

(** The effect a [nav] event asks for. *)
Inductive NavEvent :=
| Play | Pause | SetMixpoint | GoToMixpoint | PreviousBeatMarker
| NextBeatMarker.

Inductive AudioEvent :=
| seek | beatResolution | bpm | offset | nav (effect : NavEvent) | mixpoint
| destroy | volumeMeter.

(** [waveformEffects], one function value per [loadAudioEvents] call. *)
Inductive Callback := WaveformEffects (trackId instance : nat).

(** A function value handed to the window: either a callback itself, or the
    arrow function [(e) => callback(e.detail)] that [on] creates afresh on
    every call. *)
Inductive Listener :=
| Named (c : Callback)
| Arrow (serial : nat) (c : Callback).

#[global] Instance Callback_eq_dec : EqDecision Callback.
Proof. solve_decision. Defined.

#[global] Instance Listener_eq_dec : EqDecision Listener.
Proof. solve_decision. Defined.

#[global] Instance NavEvent_eq_dec : EqDecision NavEvent.
Proof. solve_decision. Defined.

#[global] Instance AudioEvent_eq_dec : EqDecision AudioEvent.
Proof. solve_decision. Defined.

Record Window := mkWindow {
  (** registered listeners by event type [String(trackId)] *)
  listeners : list (nat * Listener);
  (** function values created so far *)
  closures : nat;
  (** what each callback was called with, newest first *)
  received : list (Callback * AudioEvent);
  (** waveforms destroyed, by track id *)
  destroyedWaveforms : list nat
}.

Definition emptyWindow : Window :=
  {| listeners := []; closures := 0; received := [];
     destroyedWaveforms := [] |}.

(** [window.addEventListener]: the same function value is added once. *)
Definition addEventListener (type : nat) (l : Listener) (w : Window)
  : Window :=
  if bool_decide ((type, l) ∈ listeners w) then w
  else {| listeners := listeners w ++ [(type, l)]; closures := closures w;
          received := received w;
          destroyedWaveforms := destroyedWaveforms w |}.

(** [window.removeEventListener]: removes the function value it is given. *)
Definition removeEventListener (type : nat) (l : Listener) (w : Window)
  : Window :=
  {| listeners :=
       filter (fun e => e ≠ (type, l)) (listeners w);
     closures := closures w; received := received w;
     destroyedWaveforms := destroyedWaveforms w |}.

(** [audioEvent.on] *)
Definition on (trackId : nat) (callback : Callback) (w : Window) : Window :=
  addEventListener trackId (Arrow (closures w) callback)
    {| listeners := listeners w; closures := S (closures w);
       received := received w;
       destroyedWaveforms := destroyedWaveforms w |}.

(** [audioEvent.off] *)
Definition off (trackId : nat) (callback : Callback) (w : Window) : Window :=
  removeEventListener trackId (Named callback) w.

(** [destroyEvent] *)
Definition destroyEvent (trackId : nat) (self : Callback) (w : Window)
  : Window :=
  let w := off trackId self w in
  {| listeners := listeners w; closures := closures w;
     received := received w;
     destroyedWaveforms := trackId :: destroyedWaveforms w |}.

(** Calling a registered function value with the dispatched event: the arrow
    function unpacks [e.detail] for its callback, whose body is [effects]; a
    callback registered directly would look for [event] on the DOM event
    itself and find none. *)
Definition call (effects : Callback -> AudioEvent -> Window -> Window)
    (event : AudioEvent) (w : Window) (l : Listener) : Window :=
  match l with
  | Arrow _ c => effects c event w
  | Named _ => w
  end.

(** [window.dispatchEvent]: the listeners registered for the type when the
    event is dispatched are called in registration order. *)
Definition dispatchEvent
    (effects : Callback -> AudioEvent -> Window -> Window)
    (trackId : nat) (event : AudioEvent) (w : Window) : Window :=
  foldl (call effects event) w
    (map snd (filter (fun e => e.1 = trackId) (listeners w))).

(** What [waveformEffects] does for an event whose handler emits no event
    of its own: the call is recorded, and [destroy] runs [destroyEvent]. *)
Definition handlerEffects (self : Callback) (event : AudioEvent)
    (w : Window) : Window :=
  let w := {| listeners := listeners w; closures := closures w;
              received := (self, event) :: received w;
              destroyedWaveforms := destroyedWaveforms w |} in
  match event, self with
  | destroy, WaveformEffects trackId _ => destroyEvent trackId self w
  | _, _ => w
  end.

(** [waveformEffects({ event, args })]: [navEvent] emits [mixpoint] for its
    own track when the effect is 'Set Mixpoint', and that event is
    dispatched at once, to callbacks whose [mixpointEvent] emits nothing
    further. *)
Definition waveformEffects (self : Callback) (event : AudioEvent)
    (w : Window) : Window :=
  let w := handlerEffects self event w in
  match event, self with
  | nav SetMixpoint, WaveformEffects trackId _ =>
      dispatchEvent handlerEffects trackId mixpoint w
  | _, _ => w
  end.

(** [audioEvent.emit] *)
Definition emit (trackId : nat) (event : AudioEvent) (w : Window) : Window :=
  dispatchEvent waveformEffects trackId event w.

(** [loadAudioEvents]: nothing is done for track id 0; otherwise
    [waveformEffects] is created and registered.  [db.tracks.get(trackId)]
    is taken to find the track: when it does not, the call throws before
    anything is registered. *)
Definition loadAudioEvents (trackId : nat) (w : Window) : Window :=
  if bool_decide (trackId = 0%nat) then w
  else
    on trackId (WaveformEffects trackId (closures w))
      {| listeners := listeners w; closures := S (closures w);
         received := received w;
         destroyedWaveforms := destroyedWaveforms w |}.

(** *** [seekEvent] *)

(** What [seekEvent] asks of the waveform. *)
Inductive WaveCmd :=
| SkipForward (seconds : float)
| SetPlayheadTime (time : Q).

(** [Math.round(startTime / skipLength)]: the integer nearest to the
    quotient of the two doubles, the upper one of two that are equally
    near; not a finite number when [skipLength] is zero. *)
Definition roundIndex (startTime skip : Q) : option Z :=
  (fun q => Qfloor (q + (1 # 2))) <$> quotient64 startTime skip.

Definition seekEventTarget (wf : Engine.Waveform) (time : option Q)
    (direction : option Engine.Direction) : Q * option Q :=
  (* the default parameter applies to [undefined] only *)
  let startTime := default (Engine.currentTime wf) time in
  let currentMarkerIndex := roundIndex startTime (Engine.skipLength wf) in
  let index := (fun i => i + Engine.directionStep direction)%Z
                 <$> currentMarkerIndex in
  (startTime, Engine.markerAt (Engine.markers wf) index).

Definition seekEvent (wf : Engine.Waveform) (time : option Q)
    (direction : option Engine.Direction) : option WaveCmd :=
  let '(startTime, time) := seekEventTarget wf time direction in
  match time with
  | Some tm =>
      if truthy time && Engine.beyond5ms tm startTime
      then Some (match direction with
                 | Some _ =>
                     SkipForward (Q2double tm - Q2double startTime)%float
                 | None => SetPlayheadTime tm
                 end)
      else None
  | None => None
  end.

End Dispatcher.

(** ** Stem lifecycle ([validateTrackStemAccess], [storeTrackCache],
    [stemAudio]) *)

Module StemLifecycle.

Local Open Scope string_scope.

Inductive StemState :=
| selectStemDir | grantStemDirAccess | getStems | uploadingFile
| processingStems | downloadingStems | ready | error.

#[global] Instance StemState_eq_dec : EqDecision StemState.
Proof. solve_decision. Defined.

Record File := mkFile {
  fileName : string;
  blob : nat
}.

Record TrackCache := mkTrackCache {
  file : option File;
  stems : option (gmap Stem File)
}.

Inductive Permission := granted | denied | prompt.

#[global] Instance Permission_eq_dec : EqDecision Permission.
Proof. solve_decision. Defined.

(** A directory handle: what [queryPermission] answers ([None] when it
    throws), and the entries of each sub-directory ([None] when iterating
    them throws). *)
Record DirHandle := mkDirHandle {
  queryPermission : option Permission;
  subdirs : gmap string (option (list (string * File)))
}.

Record AudioSt := mkAudioSt {
  stemState : option StemState;
  stemTimer : option Q
}.

Record World := mkWorld {
  audioState : gmap nat AudioSt;
  trackCache : gmap nat TrackCache;
  stemsDirHandle : option DirHandle;
  trackNames : gmap nat string;
  trackSizes : gmap nat Q;
  stemsAnalyzing : gset nat;
  (** files sent to the stem service ([PUT]), newest first *)
  uploads : list (nat * string)
}.

Definition with_audioState (v : gmap nat AudioSt) (w : World) : World :=
  {| audioState := v; trackCache := trackCache w;
     stemsDirHandle := stemsDirHandle w; trackNames := trackNames w;
     trackSizes := trackSizes w; stemsAnalyzing := stemsAnalyzing w;
     uploads := uploads w |}.

Definition with_trackCache (v : gmap nat TrackCache) (w : World) : World :=
  {| audioState := audioState w; trackCache := v;
     stemsDirHandle := stemsDirHandle w; trackNames := trackNames w;
     trackSizes := trackSizes w; stemsAnalyzing := stemsAnalyzing w;
     uploads := uploads w |}.

Definition with_stemsAnalyzing (v : gset nat) (w : World) : World :=
  {| audioState := audioState w; trackCache := trackCache w;
     stemsDirHandle := stemsDirHandle w; trackNames := trackNames w;
     trackSizes := trackSizes w; stemsAnalyzing := v;
     uploads := uploads w |}.

Definition with_uploads (v : list (nat * string)) (w : World) : World :=
  {| audioState := audioState w; trackCache := trackCache w;
     stemsDirHandle := stemsDirHandle w; trackNames := trackNames w;
     trackSizes := trackSizes w; stemsAnalyzing := stemsAnalyzing w;
     uploads := v |}.

(** [audioState[trackId].stemState = s] on an existing entry. *)
Definition setStemState (trackId : nat) (s : StemState) (w : World) : World :=
  with_audioState
    (alter (fun a => {| stemState := Some s; stemTimer := stemTimer a |})
           trackId (audioState w)) w.

Definition setStemTimer (trackId : nat) (t : Q) (w : World) : World :=
  with_audioState
    (alter (fun a => {| stemState := stemState a; stemTimer := Some t |})
           trackId (audioState w)) w.

(** *** Strings *)

(** [s.endsWith(suffix)] *)
Definition endsWith (suffix s : string) : bool :=
  let n := String.length s in
  let k := String.length suffix in
  (k <=? n)%nat && String.eqb (substring (n - k) k s) suffix.

(** [s.lastIndexOf(c)], scanning from position [i]. *)
Fixpoint lastIndexOf (c : Ascii.ascii) (s : string) (i : nat) : option nat :=
  match s with
  | EmptyString => None
  | String a rest =>
      match lastIndexOf c rest (S i) with
      | Some j => Some j
      | None => if Ascii.eqb a c then Some i else None
      end
  end.

(** [name.substring(0, name.lastIndexOf('.'))]; a negative end is read
    as zero. *)
Definition FILENAME (name : string) : string :=
  match lastIndexOf "."%char name 0 with
  | Some i => substring 0 i name
  | None => ""
  end.

Definition stemName (s : Stem) : string :=
  match s with
  | drums => "drums" | bass => "bass" | vocals => "vocals" | other => "other"
  end.

(** [name.match(/- (bass|vocals|other|drums)\.mp3$/)] *)
Definition stemOfName (name : string) : option Stem :=
  if endsWith "- bass.mp3" name then Some bass
  else if endsWith "- vocals.mp3" name then Some vocals
  else if endsWith "- other.mp3" name then Some other
  else if endsWith "- drums.mp3" name then Some drums
  else None.

(** *** [storeTrackCache] *)

Definition CACHE_LIMIT : nat := 25.

(** [db.trackCache.orderBy('id').first()] *)
Definition oldest (m : gmap nat TrackCache) : option nat :=
  foldr (fun k acc => Some (from_option (Nat.min k) k acc)) None
        (map fst (map_to_list m)).

Definition storeTrackCache (id : nat) (newFile : option File)
    (newStems : option (gmap Stem File)) (w : World) : World :=
  let cache := trackCache w !! id in
  let file := match newFile with
              | Some f => Some f
              | None => cache ≫= file
              end in
  let stems := match cache ≫= stems with
               | Some cached => Some (default ∅ newStems ∪ cached)
               | None => newStems
               end in
  let table :=
    if (CACHE_LIMIT <? size (trackCache w))%nat
    then match oldest (trackCache w) with
         | Some k => delete k (trackCache w)
         | None => trackCache w
         end
    else trackCache w in
  with_trackCache (<[id := {| file := file; stems := stems |}]> table) w.

(** *** [validateTrackStemAccess] *)

Inductive result (A : Type) :=
| Ok (a : A)
| Throws (msg : string).
Arguments Ok {A} a.
Arguments Throws {A} msg.

(** The stems found in the track's directory. *)
Definition localStems (files : list (string * File)) : gmap Stem File :=
  foldl (fun m e => match stemOfName e.1 with
                    | Some s => <[s := e.2]> m
                    | None => m
                    end) ∅ files.

Definition checkAccess (trackId : nat) (stemState : option StemState)
    (w : World) : result (StemState * World) :=
  match (trackCache w !! trackId) ≫= stems with
  | Some _ => Ok (ready, w)
  | None =>
  match stemsDirHandle w with
  | None => Ok (selectStemDir, w)
  | Some dir =>
  match queryPermission dir with
  | None => Ok (selectStemDir, w)
  | Some access =>
  if bool_decide (access ≠ granted) then Ok (grantStemDirAccess, w)
  else if bool_decide (stemState = Some processingStems)
  then Ok (processingStems, w)
  else
  match trackNames w !! trackId with
  | None => Ok (getStems, w)
  | Some name =>
  if String.eqb name "" then Ok (getStems, w)
  else
  match subdirs dir !! (FILENAME name ++ " - stems") with
  | None => Ok (getStems, w)
  | Some None => Throws "Error reading the stem directory."
  | Some (Some files) =>
      let found := localStems files in
      if (size found <? 4)%nat then Ok (getStems, w)
      else Ok (ready, storeTrackCache trackId None (Some found) w)
  end end end end end.

Definition validateTrackStemAccess (trackId : nat) (w : World)
  : result (StemState * World) :=
  if bool_decide (trackId = 0%nat)
  then Throws "No Track id provided for stems"
  else
    let stemState := (audioState w !! trackId) ≫= stemState in
    match checkAccess trackId stemState w with
    | Throws msg => Throws msg
    | Ok (accessState, w) =>
        let w := if bool_decide (accessState = ready)
                 then with_stemsAnalyzing (stemsAnalyzing w ∖ {[trackId]}) w
                 else w in
        let w := if bool_decide (stemState ≠ Some accessState
                                 ∧ is_Some (audioState w !! trackId))
                 then setStemState trackId accessState w
                 else w in
        Ok (accessState, w)
    end.

(** *** [stemAudio] *)

(** What the stem service and the file system answer during one run. *)
Record Service := mkService {
  (** [getStemsDirHandle()] *)
  dirGranted : bool;
  (** whether the [PUT] goes through *)
  uploadOk : bool;
  (** the status of each [HEAD] poll, in order *)
  polls : list nat;
  (** [GET .../stem.mp3]: the blob when [res.ok] *)
  fetchStem : Stem -> option nat;
  (** [getDirectoryHandle(..., { create: true })] *)
  mkdirOk : bool;
  (** whether writing the stem file succeeds *)
  writeOk : Stem -> bool
}.

(** How a run of [stemAudio] ends, with the state it leaves: it returns, it
    throws, its promise never settles, or it is still polling when the
    recorded answers run out. *)
Inductive Run :=
| Done (w : World)
| Failed (msg : string) (w : World)
| NeverSettles (w : World)
| Polling (w : World).

(** [handleErr]: sets the error state before throwing. *)
Definition handleErr (trackId : nat) (w : World) : World :=
  setStemState trackId error w.

(** [Promise.all(STEMS.map(...))] *)
Definition fetchStems (svc : Service) (name : string)
  : option (list (Stem * File)) :=
  mapM (fun stem =>
          (fun b => (stem, {| fileName := FILENAME name ++ " - "
                                            ++ stemName stem ++ ".mp3";
                              blob := b |})) <$> fetchStem svc stem)
       STEMS.

(** [checkForStems]: [Some] stems when the promise resolves. *)
Fixpoint checkForStems (trackId : nat) (svc : Service) (name : string)
    (statuses : list nat) (w : World)
  : Run + list (Stem * File) * World :=
  match statuses with
  | [] => inl (Polling w)
  | status :: later =>
      if (status =? 202)%nat then checkForStems trackId svc name later w
      else if (status =? 500)%nat then inl (NeverSettles (handleErr trackId w))
      else if (status =? 200)%nat then
        match fetchStems svc name with
        | Some stems => inr (stems, w)
        | None => inl (Failed "stem download failed" w)
        end
      else inl (NeverSettles (handleErr trackId w))
  end.

(** The loop that writes each stem file and caches it. *)
Fixpoint storeStems (trackId : nat) (svc : Service)
    (stems : list (Stem * File)) (w : World) : Run :=
  match stems with
  | [] => Done w
  | (type, f) :: rest =>
      if writeOk svc type
      then storeStems trackId svc rest
             (storeTrackCache trackId None (Some {[type := f]}) w)
      else Failed "Error storing stem file" w
  end.

Definition stemAudio (trackId : nat) (svc : Service) (w : World) : Run :=
  match (trackCache w !! trackId) ≫= file with
  | None => Failed "No file found for track, try re-adding it." w
  | Some f =>
  if negb (dirGranted svc)
  then Failed "Permission to the file or folder was denied." w
  else
  match audioState w !! trackId with
  | None => Failed "TypeError: audioState[trackId] is undefined" w
  | Some _ =>
  let w := setStemState trackId uploadingFile w in
  let w := setStemTimer trackId 100 w in
  (* sendFile *)
  let w := with_uploads ((trackId, fileName f) :: uploads w) w in
  if negb (uploadOk svc) then Failed "Error generating stems" (handleErr trackId w)
  else
  let w := setStemTimer trackId
             (js_or_lit (trackSizes w !! trackId) 1 / 1000 * (2 # 100)) w in
  let w := setStemState trackId processingStems w in
  match checkForStems trackId svc (fileName f) (polls svc) w with
  | inl stopped => stopped
  | inr (stems, w) =>
  let w := setStemState trackId downloadingStems w in
  if negb (mkdirOk svc) then Failed "Error creating directory for stems." w
  else
  match storeStems trackId svc stems w with
  | Done w => Done (setStemState trackId ready w)
  | stopped => stopped
  end end end end.

End StemLifecycle.

(** ** Vocabulary of the statements and sample data *)

Section BeatGridSamples.
Import BeatGrid.

(** [k] subtractions of the beat interval, as the loop performs them. *)
Fixpoint stepBack (k : nat) (beatInterval startPoint : Q) : Q :=
  match k with
  | O => startPoint
  | S k' => stepBack k' beatInterval (startPoint - beatInterval)
  end.

Definition natQ (n : nat) : Q := inject_Z (Z.of_nat n).

Definition exampleTrack : Track :=
  {| id := 1; name := "a.mp3"; duration := Some 2; bpm := Some 120;
     offset := Some (1 # 5); adjustedOffset := None |}.

Definition noAnalysis : Analysis :=
  {| a_duration := None; a_bpm := None; a_offset := None |}.

Definition noState : TrackState :=
  {| adjustedBpm := None; beatResolution := None; mixpoint := None |}.

Definition wholeBeats : TrackState :=
  {| adjustedBpm := None; beatResolution := Some 1; mixpoint := None |}.



End BeatGridSamples.

Section BeatGrid64Samples.
Import BeatGrid64.
Local Open Scope float_scope.

(** The start point after [k] turns of the backward loop. *)
Fixpoint back (k : nat) (beatInterval startPoint : float) : float :=
  match k with
  | O => startPoint
  | S k' => back k' beatInterval (startPoint - beatInterval)
  end.

(** The time after [i] turns of the forward loop. *)
Fixpoint forth (i : nat) (skipLength time : float) : float :=
  match i with
  | O => time
  | S i' => forth i' skipLength (time + skipLength)
  end.

(** The regions [n] turns of the forward loop push. *)
Fixpoint gridFrom (n : nat) (skipLength time : float) : list Region :=
  match n with
  | O => []
  | S n' =>
      {| start := time; end_ := time + skipLength |}
        :: gridFrom n' skipLength (time + skipLength)
  end.

(** A track, its analysis and its state as the program holds them: every
    number is the double its decimal denotes. *)
Definition ofTrack (t : BeatGrid.Track) : Track :=
  {| id := BeatGrid.id t; name := BeatGrid.name t;
     duration := Q2double <$> BeatGrid.duration t;
     bpm := Q2double <$> BeatGrid.bpm t;
     offset := Q2double <$> BeatGrid.offset t;
     adjustedOffset := Q2double <$> BeatGrid.adjustedOffset t |}.

Definition ofAnalysis (an : BeatGrid.Analysis) : Analysis :=
  {| a_duration := Q2double <$> BeatGrid.a_duration an;
     a_bpm := Q2double <$> BeatGrid.a_bpm an;
     a_offset := Q2double <$> BeatGrid.a_offset an |}.

Definition ofTrackState (ts : BeatGrid.TrackState) : TrackState :=
  {| adjustedBpm := Q2double <$> BeatGrid.adjustedBpm ts;
     beatResolution := Q2double <$> BeatGrid.beatResolution ts;
     mixpoint := BeatGrid.mixpoint ts |}.

(** Half a minute at 90 bpm, first beat found at 2 s: three beat intervals
    of 2/3 s make up the offset exactly. *)
Definition ninetyBpm : BeatGrid.Track :=
  {| BeatGrid.id := 3; BeatGrid.name := "c.mp3";
     BeatGrid.duration := Some 30%Q; BeatGrid.bpm := Some 90%Q;
     BeatGrid.offset := Some 2%Q; BeatGrid.adjustedOffset := None |}.

(** Two minutes at 61 bpm from the very start: 122 beat intervals make up
    the duration exactly. *)
Definition sixtyOneBpm : BeatGrid.Track :=
  {| BeatGrid.id := 4; BeatGrid.name := "d.mp3";
     BeatGrid.duration := Some 120%Q; BeatGrid.bpm := Some 61%Q;
     BeatGrid.offset := Some 0%Q; BeatGrid.adjustedOffset := None |}.

(** A first beat so far out that one beat interval is less than half the
    gap between neighbouring doubles there. *)
Definition remoteBeat : BeatGrid.Track :=
  {| BeatGrid.id := 5; BeatGrid.name := "e.mp3";
     BeatGrid.duration := Some 2%Q; BeatGrid.bpm := Some 60%Q;
     BeatGrid.offset := Some (100000000000000000 # 1)%Q;
     BeatGrid.adjustedOffset := None |}.

End BeatGrid64Samples.

Section EngineSamples.
Import Engine.

(** A waveform carrying the beat grid of the example track. *)
Definition wf1 : Waveform :=
  {| markers := [1 # 5; 7 # 10; 6 # 5; 17 # 10]; skipLength := 1 # 2;
     currentTime := 0; playheadTime := 0; destroyed := false |}.

Definition stemQ (p : nat) (vol : option Q) : StemSt Q :=
  {| s_player := Some p; s_gainNode := Some 1; s_volume := vol;
     s_volumeMeter := Some (1 # 2); s_mute := None |}.

Definition fourStems : gmap Stem (StemSt Q) :=
  <[drums := stemQ 10 (Some (1 # 2))]>
    (<[bass := stemQ 11 (Some 0)]>
       (<[vocals := stemQ 12 None]> (<[other := stemQ 13 (Some 1)]> ∅))).

Definition plainTrack : TrackSt Q :=
  {| waveform := Some wf1; player := Some 1%nat; time := Some (3 # 10);
     gainNode := Some 1; stems := None; playing := None;
     volumeMeter := None; volumeMeterInterval := None |}.

Definition stemTrack : TrackSt Q :=
  {| waveform := Some wf1; player := Some 2%nat; time := Some 0;
     gainNode := Some 1; stems := Some fourStems; playing := None;
     volumeMeter := None; volumeMeterInterval := None |}.

(** Two loaded tracks, the second with stems; nothing is playing. *)
Definition world0 : World Q :=
  {| audioState := <[1%nat := plainTrack]> (<[2%nat := stemTrack]> ∅);
     clock := 5; clockReads := 0; latency := fun _ => 1 # 100; awaits := 0;
     timers := ∅; nextTimer := 1; audioLog := [];
     trackPrefs := ∅; dbBpm := ∅;
     mixTracks := Some [Some 1%nat; Some 2%nat] |}.

(** The same session while both tracks play. *)
Definition playing0 : World Q := play None world0.

(** The same two tracks with real-valued gains, for the crossfader. *)
Definition stemR (p : nat) : StemSt R :=
  {| s_player := Some p; s_gainNode := Some 1%R; s_volume := None;
     s_volumeMeter := None; s_mute := None |}.

Definition plainTrackR : TrackSt R :=
  {| waveform := Some wf1; player := Some 1%nat; time := Some 0;
     gainNode := Some 1%R; stems := None; playing := None;
     volumeMeter := None; volumeMeterInterval := None |}.

Definition stemTrackR : TrackSt R :=
  {| waveform := Some wf1; player := Some 2%nat; time := Some 0;
     gainNode := Some 1%R;
     stems := Some (<[drums := stemR 10]> (<[bass := stemR 11]> ∅));
     playing := None; volumeMeter := None; volumeMeterInterval := None |}.

Definition worldR : World R :=
  {| audioState := <[1%nat := plainTrackR]> (<[2%nat := stemTrackR]> ∅);
     clock := 5; clockReads := 0; latency := fun _ => 1 # 100; awaits := 0;
     timers := ∅; nextTimer := 1; audioLog := [];
     trackPrefs := ∅; dbBpm := ∅;
     mixTracks := Some [Some 1%nat; Some 2%nat] |}.

End EngineSamples.

(** ** Vocabulary of the statements about the transport and the mixer *)

Section EngineVocabulary.
Import Engine.
Context {num : Type} `{JsNumber num}.
Implicit Types (w : World num) (t : TrackSt num) (id : nat).

(** Two worlds that differ in the command log only. *)
Definition logOnly w w' : Prop :=
  audioState w' = audioState w /\ clockReads w' = clockReads w /\
  clock w' = clock w /\ awaits w' = awaits w /\ latency w' = latency w /\
  timers w' = timers w /\ nextTimer w' = nextTimer w /\
  trackPrefs w' = trackPrefs w /\ dbBpm w' = dbBpm w /\
  mixTracks w' = mixTracks w.

(** A reading of a track's state that [play] never changes. *)
Definition playInsensitive {A} (proj : TrackSt num -> A) : Prop :=
  (forall v t, proj (with_playing v t) = proj t) /\
  (forall v t, proj (with_volumeMeterInterval v t) = proj t).

(** A reading of a track's state that neither [play] nor [pause] changes. *)
Definition pauseInsensitive {A} (proj : TrackSt num -> A) : Prop :=
  playInsensitive proj /\
  (forall v t, proj (with_volumeMeter v t) = proj t) /\
  (forall v t, proj (with_stems v t) = proj t).

(** The players a track contributes to a [play] call. *)
Definition playersOf t (p : nat) : Prop :=
  match stems t with
  | None => player t = Some p
  | Some ss => exists stem st, ss !! stem = Some st /\ s_player st = Some p
  end.

(** Every live metering timer is the one its track has on record. *)
Definition timersTracked w : Prop :=
  map_Forall
    (fun h tm => volumeMeterInterval (getTrack (owner tm) w) = Some h)
    (timers w).

(** A track after [pause]: meters at zero, no timer on record, not playing. *)
Definition quiet (t : TrackSt num) : Prop :=
  volumeMeter t = Some 0 /\
  volumeMeterInterval t = Some (-1)%Z /\
  playing t = Some false /\
  forall ss stem st,
    stems t = Some ss -> ss !! stem = Some st -> s_volumeMeter st = Some 0.

(** A player that belongs to a track: its own, or one of its stems'. *)
Definition ownsPlayer (t : TrackSt num) (p : nat) : Prop :=
  player t = Some p \/
  exists ss stem st,
    stems t = Some ss /\ ss !! stem = Some st /\ s_player st = Some p.

Definition zeroMeter (s : StemSt num) : StemSt num :=
  with_s_volumeMeter (Some 0) s.

(** The tracks a [pause] call acts on. *)
Definition affected (trackId : option nat) w id : Prop :=
  match idGiven trackId with
  | Some wanted => id = wanted
  | None => is_Some (audioState w !! id)
  end.

(** The playhead of a track: the waveform widget and the stored time. *)
Definition playhead (t : TrackSt num) : option Waveform * option Q :=
  (waveform t, time t).

(** The cases in which a seek leaves the playhead alone: no marker at the
    index, a marker at time zero, or a marker that the 5 ms test does not
    tell from the start time. *)
Definition stays (startTime : Q) (target : option Q) : Prop :=
  forall tm, target = Some tm -> tm == 0 \/ beyond5ms tm startTime = false.

(** The stem filter of [updateVolume] lets a stem through. *)
Definition passes (stemType : option Stem) (stem : Stem) : Prop :=
  stemType = None \/ stemType = Some stem.

#[global] Instance passes_dec stemType stem : Decision (passes stemType stem).
Proof. unfold passes. apply _. Defined.

Definition setGain (volume : num) (s : StemSt num) : StemSt num :=
  with_s_gainNode (Some volume) s.

(** A stem that some entry of the list makes [updateVolume] write. *)
Definition touched (stemType : option Stem) (l : list (Stem * StemSt num))
    (k : Stem) : Prop :=
  Exists (fun e => e.1 = k /\ passes stemType e.1 /\ is_Some (s_gainNode e.2))
         l.

#[global] Instance touched_dec stemType l k : Decision (touched stemType l k).
Proof. unfold touched. apply _. Defined.

(** The state of one stem of a track. *)
Definition stemOf {num} (id : nat) (stem : Stem) (w : World num)
  : option (StemSt num) :=
  stems (getTrack id w) ≫= (fun ss => ss !! stem).

(** What [stemMuteToggle] makes of a stem: the mute flag is stored, and a
    stem that has a gain node gets gain 0 when muted and [volume || 1]
    when unmuted. *)
Definition toggled (mute : bool) (s : StemSt num) : StemSt num :=
  with_s_mute (Some mute)
    (match s_gainNode s with
     | Some _ =>
         with_s_gainNode
           (Some (if mute then num_zero else volumeOrOne (s_volume s))) s
     | None => s
     end).

End EngineVocabulary.

(** ** Vocabulary and sample data for the stem lifecycle *)

Section StemSamples.
Import StemLifecycle.
Local Open Scope string_scope.

Definition songFile : File := {| fileName := "song.mp3"; blob := 7 |}.

Definition stemsDir : DirHandle :=
  {| queryPermission := Some granted; subdirs := ∅ |}.

(** Track 1 is loaded, its file is cached, no stems exist yet and the stems
    directory is writable; [phase] is where its generation stands. *)
Definition generating (phase : StemState) : World :=
  {| audioState := {[1%nat := {| stemState := Some phase;
                                 stemTimer := Some 100%Q |}]};
     trackCache := {[1%nat := {| file := Some songFile; stems := None |}]};
     stemsDirHandle := Some stemsDir;
     trackNames := {[1%nat := "song.mp3"]};
     trackSizes := ∅;
     stemsAnalyzing := ∅;
     uploads := [(1%nat, "song.mp3")] |}.

(** A service that delivers all four stems at the second poll. *)
Definition service (writable : Stem -> bool) : Service :=
  {| dirGranted := true; uploadOk := true; polls := [202; 200]%nat;
     fetchStem := fun s => Some (Stem_to_nat s);
     mkdirOk := true; writeOk := writable |}.

(** The same track before any stems were asked for. *)
Definition idle : World := with_uploads [] (generating getStems).

(** A service that is still at work on the stems at every poll of a run. *)
Definition busy : Service :=
  {| dirGranted := true; uploadOk := true; polls := [202; 202]%nat;
     fetchStem := fun s => Some (Stem_to_nat s);
     mkdirOk := true; writeOk := fun _ => true |}.

(** The state a run of [stemAudio] ends in. *)
Definition finalWorld (r : Run) : World :=
  match r with
  | Done w | Failed _ w | NeverSettles w | Polling w => w
  end.

Definition cachedStems (id : nat) (w : World) : option (gmap Stem File) :=
  (trackCache w !! id) ≫= stems.

(** All four stems are present. *)
Definition allFour (ss : gmap Stem File) : Prop :=
  forall stem, is_Some (ss !! stem).

End StemSamples.

(** ** File access ([_getFile], [getPermission], [getStemsDirHandle]) *)

Module Files.
Import StemLifecycle.

Local Open Scope string_scope.

(** A file or directory handle of a track: what [queryPermission] answers
    before the user is asked, what [requestPermission] answers ([None] when
    it throws, as it does before the user has interacted with the page), and
    the file that is read through the handle, for a directory under the
    given name ([None] when [getFileHandle] or [getFile] throws). *)
Record Handle := mkHandle {
  permission : Permission;
  request : option Permission;
  read : string -> option File
}.

Record Track := mkTrack {
  id : nat;
  name : string;
  dirHandle : option Handle;
  fileHandle : option Handle
}.

(** [track.dirHandle || track.fileHandle] *)
Definition handleOf (track : Track) : option Handle :=
  match dirHandle track with
  | Some h => Some h
  | None => fileHandle track
  end.

(** What [queryPermission] answers, before and after [requestPermission]
    was called: an answer of the user replaces the earlier state. *)
Definition currentPermission (asked : bool) (h : Handle) : Permission :=
  if asked then default (permission h) (request h) else permission h.

(** [_getFile] *)
Definition _getFile (track : Track) (asked : bool) (w : World)
  : result (option File * World) :=
  match handleOf track with
  | None => Ok (None, w)
  | Some h =>
      if bool_decide (currentPermission asked h = granted)
         && negb (String.eqb (name track) "")
      then match read h (name track) with
           | Some f =>
               Ok (Some f, storeTrackCache (id track) (Some f) None w)
           | None => Throws "NotFoundError"
           end
      else Ok (None, w)
  end.

(** [getPermission]; the notice shown when [requestPermission] throws is
    not kept. *)
Definition getPermission (track : Track) (w : World)
  : result (option File * World) :=
  match trackCache w !! id track ≫= file with
  | Some f => Ok (Some f, w)
  | None =>
      match _getFile track false w with
      | Throws msg => Throws msg
      | Ok (Some f, w) => Ok (Some f, w)
      | Ok (None, w) => _getFile track true w
      end
  end.

(** What the user does when [getStemsDirHandle] asks: the answer to
    [requestPermission] on the stored directory ([None] when it throws) and
    the directory chosen in the picker ([None] when the picker is
    dismissed, which throws). *)
Record Chooser := mkChooser {
  requestAnswer : option Permission;
  picked : option DirHandle
}.

(** The stored directory after [requestPermission] was answered. *)
Definition answered (p : Permission) (dir : DirHandle) : DirHandle :=
  {| queryPermission := Some p; subdirs := subdirs dir |}.

Definition with_stemsDirHandle (v : option DirHandle) (w : World) : World :=
  {| audioState := audioState w; trackCache := trackCache w;
     stemsDirHandle := v; trackNames := trackNames w;
     trackSizes := trackSizes w; stemsAnalyzing := stemsAnalyzing w;
     uploads := uploads w |}.

(** The tail of [getStemsDirHandle]: ask for a new directory. *)
Definition pickStemsDir (user : Chooser) (w : World)
  : result (option DirHandle * World) :=
  match picked user with
  | None => Throws "AbortError"
  | Some new =>
      match queryPermission new with
      | None => Throws "NotFoundError"
      | Some access =>
          if bool_decide (access = granted)
          then Ok (Some new, with_stemsDirHandle (Some new) w)
          else Ok (None, w)
      end
  end.

(** [getStemsDirHandle] *)
Definition getStemsDirHandle (user : Chooser) (w : World)
  : result (option DirHandle * World) :=
  match stemsDirHandle w with
  | None => pickStemsDir user w
  | Some dir =>
      match queryPermission dir with
      | None => Throws "NotFoundError"
      | Some access =>
          if bool_decide (access = granted) then Ok (Some dir, w)
          else
            match requestAnswer user with
            | None => Throws "SecurityError"
            | Some answer =>
                let w := with_stemsDirHandle (Some (answered answer dir)) w in
                if bool_decide (answer = granted)
                then Ok (Some (answered answer dir), w)
                else pickStemsDir user w
            end
      end
  end.

End Files.

(** ** Further sample data for the beat grid *)

Section BeatGridEdgeSamples.
Import BeatGrid.

(** A tempo adjustment typed with a minus sign. *)
Definition reversedTempo : TrackState :=
  {| adjustedBpm := Some (-120); beatResolution := None; mixpoint := None |}.

End BeatGridEdgeSamples.

(** ** Further sample data for seeking *)

Section SeekSamples.
Import Engine.

(** A grid of tenths of a second that starts at 0.02 s. *)
Definition tenths : Waveform :=
  {| markers := [2 # 100; 12 # 100; 22 # 100; 32 # 100];
     skipLength := 1 # 10; currentTime := 0; playheadTime := 0;
     destroyed := false |}.

End SeekSamples.

(** ** Further vocabulary for the transport *)

Section TransportVocabulary.
Import Engine.
Context {num : Type} `{JsNumber num}.
Implicit Types (w : World num) (id : nat).

(** What a listener hears of a stem: its player, its gain, the volume of its
    slider and its mute flag. *)
Definition stemMix (s : StemSt num)
  : option nat * option num * option num * option bool :=
  (s_player s, s_gainNode s, s_volume s, s_mute s).

(** Two worlds in which every track has the same player, gain, playhead and
    stem mix. *)
Definition sameMix w w' : Prop :=
  forall id,
    gainNode (getTrack id w') = gainNode (getTrack id w) /\
    player (getTrack id w') = player (getTrack id w) /\
    playhead (getTrack id w') = playhead (getTrack id w) /\
    forall stem,
      stemMix <$> stemOf id stem w' = stemMix <$> stemOf id stem w.






(** [setInterval] hands out handles it has not handed out before: every
    handle on record is below the next one. *)
Definition handlesFresh w : Prop :=
  forall id h,
    volumeMeterInterval (getTrack id w) = Some h -> (h < nextTimer w)%Z.

(** The metering timer a track has on record is live and is its own. *)
Definition metered (cst : Q) w id (t : TrackSt num) : Prop :=
  exists h tm,
    volumeMeterInterval (getTrack id w) = Some h /\
    timers w !! h = Some tm /\
    owner tm = id /\ contextStartTime tm = cst /\ startOffset tm = time t.

End TransportVocabulary.

(** ** Further sample data for the stem controls *)

Section StemControlSamples.
Import Engine.


End StemControlSamples.

(** ** Further vocabulary for the dispatcher *)

Section DispatcherVocabulary.
Import Dispatcher.

(** The callback behind a registered function value that unpacks the event
    for it. *)
Definition arrowCallback (l : Listener) : option Callback :=
  match l with
  | Arrow _ c => Some c
  | Named _ => None
  end.

(** The callbacks an event for a track reaches, in registration order. *)
Definition callbacksFor (trackId : nat) (ls : list (nat * Listener))
  : list Callback :=
  omap arrowCallback (map snd (filter (fun e => e.1 = trackId) ls)).

(** The deliveries that follow from a callback's handling of an event:
    [mixpoint], to every callback of its own track, when the event is
    [nav] with 'Set Mixpoint'. *)
Definition nested (ls : list (nat * Listener)) (c : Callback)
    (event : AudioEvent) : list (Callback * AudioEvent) :=
  match event, c with
  | nav SetMixpoint, WaveformEffects trackId _ =>
      map (fun c' => (c', mixpoint)) (callbacksFor trackId ls)
  | _, _ => []
  end.

(** The calls an emitted event leads to, in the order they are made. *)
Definition deliveries (ls : list (nat * Listener)) (trackId : nat)
    (event : AudioEvent) : list (Callback * AudioEvent) :=
  flat_map (fun c => (c, event) :: nested ls c event)
           (callbacksFor trackId ls).

(** Every listener of the window was registered through [audioEvent.on]. *)
Definition registeredByOn (w : Window) : Prop :=
  Forall (fun e => is_Some (arrowCallback e.2)) (listeners w).

(** Every arrow function among the listeners was created before the next
    one will be. *)
Definition serialsFresh (w : Window) : Prop :=
  Forall (fun e => match e.2 with
                   | Arrow n _ => (n < closures w)%nat
                   | Named _ => True
                   end) (listeners w).

End DispatcherVocabulary.

(** ** Further vocabulary for the stem lifecycle *)

Section StemVocabulary.
Import StemLifecycle.
Local Open Scope string_scope.

(** The file of one stem among optional stems. *)
Definition fileOfStem (ss : option (gmap Stem File)) (stem : Stem)
  : option File :=
  ss ≫= (fun m => m !! stem).

(** The phase the stem generation of a track is in. *)
Definition phaseOf (id : nat) (w : World) : option StemState :=
  audioState w !! id ≫= stemState.

(** A name without a dot. *)
Fixpoint dotFree (s : string) : bool :=
  match s with
  | EmptyString => true
  | String a rest => negb (Ascii.eqb a "."%char) && dotFree rest
  end.

(** The entries of a stems directory that holds exactly the given stems
    under the names they were given. *)
Definition asDirectory (written : list (Stem * File)) : list (string * File) :=
  map (fun e => (fileName e.2, e.2)) written.

End StemVocabulary.

(** ** Sample data for file access *)

Section FileSamples.
Import StemLifecycle Files.
Local Open Scope string_scope.

(** A folder the user has yet to open to the page; it holds the song. *)
Definition musicFolder : Handle :=
  {| permission := prompt; request := Some granted;
     read := fun name => if String.eqb name "song.mp3" then Some songFile
                         else None |}.

Definition songTrack : Track :=
  {| id := 1; name := "song.mp3"; dirHandle := Some musicFolder;
     fileHandle := None |}.

(** Nothing is cached and no stems directory was chosen. *)
Definition freshLibrary : World :=
  {| audioState := ∅; trackCache := ∅; stemsDirHandle := None;
     trackNames := {[1%nat := "song.mp3"]}; trackSizes := ∅;
     stemsAnalyzing := ∅; uploads := [] |}.

(** The user picks the writable stems directory. *)
Definition picksStemsDir : Chooser :=
  {| requestAnswer := None; picked := Some stemsDir |}.

End FileSamples.

(** ** Facts about the beat grid *)

Section BeatGridFacts.
Import BeatGrid.

Lemma natQ_S n : natQ (S n) == natQ n + 1.
Proof.
  unfold natQ. rewrite Nat2Z.inj_succ. unfold Z.succ.
  rewrite inject_Z_plus. reflexivity.
Qed.

Lemma natQ_nonneg n : 0 <= natQ n.
Proof.
  unfold natQ. change 0 with (inject_Z 0). rewrite <- Zle_Qle. lia.
Qed.

Lemma natQ_lt n m : (n < m)%nat -> natQ n + 1 <= natQ m.
Proof.
  intros H. unfold natQ. change 1 with (inject_Z 1).
  rewrite <- inject_Z_plus, <- Zle_Qle. lia.
Qed.

Lemma stepBack_value k bi o : stepBack k bi o == o - natQ k * bi.
Proof.
  revert o. induction k as [|k IH]; intros o; simpl.
  - change (natQ 0) with 0. lra.
  - rewrite IH, natQ_S. lra.
Qed.

Lemma truthy_pos d : 0 < d -> truthy (Some d) = true.
Proof.
  intros H. simpl. destruct (Qeq_bool d 0) eqn:E; [|reflexivity].
  apply Qeq_bool_eq in E. lra.
Qed.

(** The backward loop stops, after [k] steps, at the first value whose
    predecessor is not positive. *)
Lemma zeroTime_terminates bi :
  0 < bi ->
  forall n o, o - bi <= natQ n * bi ->
  exists k, (k <= n)%nat /\
    ~ 0 < stepBack k bi o - bi /\
    (forall j, (j < k)%nat -> 0 < o - natQ (S j) * bi) /\
    forall fuel, (n <= fuel)%nat ->
      zeroTime fuel bi o = Some (stepBack k bi o).
Proof.
  intros Hbi. induction n as [|n IH]; intros o Hn.
  - exists 0%nat. change (natQ 0) with 0 in Hn.
    repeat split; simpl; try lia; try lra.
    intros fuel _. destruct fuel; simpl;
      destruct (Qlt_le_dec 0 (o - bi)); try reflexivity; lra.
  - destruct (Qlt_le_dec 0 (o - bi)) as [Hpos|Hstop].
    + destruct (IH (o - bi)) as (k & Hk & Hend & Hsteps & Hrun).
      { rewrite natQ_S in Hn. lra. }
      exists (S k). repeat split; simpl; try lia; try assumption.
      * intros j Hj. destruct j as [|j].
        -- change (natQ 1) with 1. lra.
        -- specialize (Hsteps j ltac:(lia)).
           rewrite (natQ_S (S j)). lra.
      * intros fuel Hfuel. destruct fuel as [|fuel]; [lia|]. simpl.
        destruct (Qlt_le_dec 0 (o - bi)); [|lra].
        apply Hrun. lia.
    + exists 0%nat. repeat split; simpl; try lia; try lra.
      intros fuel _. destruct fuel; simpl;
        destruct (Qlt_le_dec 0 (o - bi)); try reflexivity; lra.
Qed.

(** A bound on the number of iterations of a loop that advances by [step]
    until it passes [x]. *)
Lemma steps_bound step x : 0 < step -> exists n, x <= natQ n * step.
Proof.
  intros Hs. exists (Z.to_nat (Qceiling (x / step))).
  destruct (Qlt_le_dec x 0) as [Hneg|Hpos].
  - pose proof (natQ_nonneg (Z.to_nat (Qceiling (x / step)))) as H0.
    assert (0 <= natQ (Z.to_nat (Qceiling (x / step))) * step)
      by (apply Qmult_le_0_compat; lra).
    lra.
  - assert (Hq : 0 <= x / step).
    { apply Qle_shift_div_l; lra. }
    assert (Hc : (0 <= Qceiling (x / step))%Z).
    { rewrite Zle_Qle. pose proof (Qle_ceiling (x / step)).
      change (inject_Z 0) with 0. lra. }
    unfold natQ. rewrite Z2Nat.id by assumption.
    pose proof (Qle_ceiling (x / step)) as Hle.
    apply (Qmult_le_compat_r _ _ step) in Hle; [|lra].
    assert (Hcancel : x / step * step == x) by (field; lra).
    lra.
Qed.

(** The forward loop emits exactly the times [time + i * skipLength] below
    [duration]. *)
Lemma pushRegions_terminates skip d :
  0 < skip ->
  forall n time, d - time <= natQ n * skip ->
  exists regions,
    (forall fuel, (n <= fuel)%nat ->
       pushRegions fuel skip d time = Some regions) /\
    (forall i, (i < length regions)%nat <-> time + natQ i * skip < d) /\
    (forall i reg, regions !! i = Some reg ->
       start reg == time + natQ i * skip /\
       end_ reg == start reg + skip).
Proof.
  intros Hs. induction n as [|n IH]; intros time Hn.
  - exists []. change (natQ 0) with 0 in Hn. repeat split.
    + intros fuel _. destruct fuel; simpl;
        destruct (Qlt_le_dec time d); try reflexivity; lra.
    + simpl. lia.
    + intros Hbelow. simpl. exfalso.
      pose proof (natQ_nonneg i).
      assert (0 <= natQ i * skip) by (apply Qmult_le_0_compat; lra). lra.
    + discriminate.
    + discriminate.
  - destruct (Qlt_le_dec time d) as [Hlt|Hge].
    + destruct (IH (time + skip)) as (rest & Hrun & Hlen & Hval).
      { rewrite natQ_S in Hn. lra. }
      exists ({| start := time; end_ := time + skip |} :: rest).
      split; [|split].
      * intros fuel Hfuel. destruct fuel as [|fuel]; [lia|]. simpl.
        destruct (Qlt_le_dec time d); [|lra].
        rewrite Hrun by lia. reflexivity.
      * intros i. destruct i as [|i]; simpl.
        -- change (natQ 0) with 0. split; [intros _; lra | lia].
        -- specialize (Hlen i). rewrite natQ_S.
           split; intros H.
           ++ assert (i < length rest)%nat by lia.
              apply Hlen in H0. lra.
           ++ assert (time + skip + natQ i * skip < d) by lra.
              apply Hlen in H0. lia.
      * intros i reg Hi. destruct i as [|i]; simpl in Hi.
        -- inversion Hi; subst; simpl. change (natQ 0) with 0. split; lra.
        -- destruct (Hval i reg Hi) as [H1 H2]. rewrite natQ_S.
           split; lra.
    + exists []. repeat split.
      * intros fuel _. destruct fuel; simpl;
          destruct (Qlt_le_dec time d); try reflexivity; lra.
      * simpl. lia.
      * intros Hbelow. simpl. exfalso.
        pose proof (natQ_nonneg i).
        assert (0 <= natQ i * skip) by (apply Qmult_le_0_compat; lra). lra.
      * discriminate.
      * discriminate.
Qed.

End BeatGridFacts.

Section GridTheorems.
Import BeatGrid.

Lemma beatInterval_pos b : 0 < b -> 0 < 60 / b.
Proof. intros Hb. apply Qlt_shift_div_l; lra. Qed.

Lemma skipLength_pos bi r :
  0 < bi -> r == 1 \/ r == 1 # 2 \/ r == 1 # 4 -> 0 < bi * (1 / r).
Proof.
  intros Hbi Hr.
  assert (Hrpos : 0 < r) by (destruct Hr as [H|[H|H]]; rewrite H; lra).
  assert (0 < 1 / r) by (apply Qlt_shift_div_l; lra).
  apply Qmult_lt_0_compat; assumption.
Qed.

(** The grid [calcRegions] returns once duration and tempo are in hand. *)
Lemma calcRegions_grid track an prev partial d bpm offset :
  analyzed track an = (Some d, bpm, offset) -> 0 < d ->
  let ts := mergeTrackState prev partial in
  let b := effectiveBpm ts bpm in
  let o := effectiveOffset track offset in
  let r := default (1 # 4) (beatResolution ts) in
  0 < b -> r == 1 \/ r == 1 # 2 \/ r == 1 # 4 ->
  let beatInterval := 60 / b in
  let skipLength := beatInterval * (1 / r) in
  exists k fuel0,
    let zero := stepBack k beatInterval o in
    zero == o - natQ k * beatInterval /\
    ~ 0 < zero - beatInterval /\
    (forall j, (j < k)%nat -> 0 < o - natQ (S j) * beatInterval) /\
    forall fuel, (fuel0 <= fuel)%nat ->
      exists res,
        calcRegions fuel track an prev partial = Returned res /\
        r_skipLength res = skipLength /\
        (forall i, (i < length (r_regions res))%nat <->
                   zero + natQ i * skipLength < d) /\
        (forall i reg, r_regions res !! i = Some reg ->
                       start reg == zero + natQ i * skipLength) /\
        (forall i j ri rj,
           r_regions res !! i = Some ri -> r_regions res !! j = Some rj ->
           (i < j)%nat -> start ri < start rj).
Proof.
  intros Han Hd ts b o r Hb Hr beatInterval skipLength.
  assert (Hbi : 0 < beatInterval) by (apply beatInterval_pos; exact Hb).
  assert (Hskip : 0 < skipLength) by (apply skipLength_pos; assumption).
  destruct (steps_bound beatInterval (o - beatInterval) Hbi) as [n Hn].
  destruct (zeroTime_terminates beatInterval Hbi n o Hn)
    as (k & Hk & Hend & Hsteps & Hrun).
  set (zero := stepBack k beatInterval o) in *.
  destruct (steps_bound skipLength (d - zero) Hskip) as [m Hm].
  destruct (pushRegions_terminates skipLength d Hskip m zero Hm)
    as (regions & Hpush & Hlen & Hval).
  exists k, (Nat.max n m). cbv zeta. fold zero.
  split; [apply stepBack_value|].
  split; [exact Hend|]. split; [exact Hsteps|].
  intros fuel Hfuel. eexists. split.
  - unfold calcRegions. rewrite Han, truthy_pos by exact Hd.
    cbn [negb]. cbv zeta.
    fold ts. fold (effectiveBpm ts bpm). fold b.
    fold (effectiveOffset track offset). fold o. fold r.
    fold beatInterval. fold skipLength.
    rewrite Hrun by lia. fold zero. cbn [default from_option].
    rewrite Hpush by lia. reflexivity.
  - cbn [r_skipLength r_regions]. split; [reflexivity|].
    split; [exact Hlen|]. split.
    + intros i reg Hi. apply (Hval i reg Hi).
    + intros i j ri rj Hi Hj Hij.
      destruct (Hval i ri Hi) as [Ei _], (Hval j rj Hj) as [Ej _].
      rewrite Ei, Ej. pose proof (natQ_lt i j Hij) as Hnat.
      assert (natQ i * skipLength + skipLength <= natQ j * skipLength).
      { apply (Qmult_le_compat_r _ _ skipLength) in Hnat; lra. }
      lra.
Qed.

(** The grid in exact arithmetic.  For a positive duration [d], a positive
    effective tempo [b], an effective offset [o] and a beat resolution [r]
    of 1, 1/2 or 1/4, with [beatInterval = 60 / b] and
    [skipLength = beatInterval * (1 / r)], the zero time is [o] less as many
    beat intervals as can be taken while the result stays positive, and the
    markers are, in increasing order and indexed from zero, exactly the
    times [zero + k * skipLength] below [d].  For 120 bpm, offset 0.2 s,
    duration 2 s and resolution 1 these are 0.2, 0.7, 1.2 and 1.7. *)
Theorem calcRegions_beat_grid :
  (forall track an prev partial d bpm offset,
     analyzed track an = (Some d, bpm, offset) -> 0 < d ->
     let ts := mergeTrackState prev partial in
     let b := effectiveBpm ts bpm in
     let o := effectiveOffset track offset in
     let r := default (1 # 4) (beatResolution ts) in
     0 < b -> r == 1 \/ r == 1 # 2 \/ r == 1 # 4 ->
     let beatInterval := 60 / b in
     let skipLength := beatInterval * (1 / r) in
     exists k fuel0,
       let zero := stepBack k beatInterval o in
       zero == o - natQ k * beatInterval /\
       ~ 0 < zero - beatInterval /\
       (forall j, (j < k)%nat -> 0 < o - natQ (S j) * beatInterval) /\
       forall fuel, (fuel0 <= fuel)%nat ->
         exists res,
           calcRegions fuel track an prev partial = Returned res /\
           r_skipLength res = skipLength /\
           (forall i, (i < length (r_regions res))%nat <->
                      zero + natQ i * skipLength < d) /\
           (forall i reg, r_regions res !! i = Some reg ->
                          start reg == zero + natQ i * skipLength) /\
           (forall i j ri rj,
              r_regions res !! i = Some ri -> r_regions res !! j = Some rj ->
              (i < j)%nat -> start ri < start rj))
  /\ (exists res,
        calcRegions 8 exampleTrack noAnalysis noState wholeBeats
          = Returned res /\
        r_skipLength res == 1 # 2 /\
        map (fun reg => Qred (start reg)) (r_regions res)
          = [1 # 5; 7 # 10; 6 # 5; 17 # 10]).
Proof.
  split.
  - intros track an prev partial d bpm offset. apply calcRegions_grid.
  - eexists. split; [vm_compute; reflexivity|].
    split; reflexivity.
Qed.

(** The general statement applied to the example track of the
    specification. *)
Lemma calcRegions_beat_grid_witness :
  exists k fuel0,
    stepBack k (60 / 120) (1 # 5) == (1 # 5) - natQ k * (60 / 120) /\
    forall fuel, (fuel0 <= fuel)%nat ->
      exists res,
        calcRegions fuel exampleTrack noAnalysis noState wholeBeats
          = Returned res.
Proof.
  destruct (proj1 calcRegions_beat_grid exampleTrack noAnalysis noState
              wholeBeats 2 (Some 120) (Some (1 # 5)))
    as (k & fuel0 & Hz & _ & _ & Hrun).
  - reflexivity.
  - reflexivity.
  - reflexivity.
  - left. reflexivity.
  - exists k, fuel0. split; [exact Hz|].
    intros fuel Hfuel. destruct (Hrun fuel Hfuel) as (res & Hres & _).
    exists res. exact Hres.
Defined.




End GridTheorems.

(** ** Facts about the beat grid on doubles *)

Section BeatGrid64Facts.
Import BeatGrid64.
Local Open Scope float_scope.

(** The backward loop returns exactly when some turn finds the next start
    point not positive, and then the start point of that turn. *)
Lemma zeroTime_stops fuel : forall bi o zero,
  zeroTime fuel bi o = Some zero <->
  exists k, (k <= fuel)%nat /\
    (forall j, (j < k)%nat -> (0 <? back j bi o - bi) = true) /\
    (0 <? back k bi o - bi) = false /\
    zero = back k bi o.
Proof.
  induction fuel as [|fuel IH]; intros bi o zero; cbn [zeroTime].
  - destruct (0 <? o - bi) eqn:Hstep.
    + split; [discriminate|]. intros (k & Hk & _ & Hstop & _).
      assert (k = 0%nat) as -> by lia. cbn [back] in Hstop. congruence.
    + split.
      * intros [= <-]. exists 0%nat. cbn [back].
        split; [lia|]. split; [intros j Hj; lia|]. split; [exact Hstep|reflexivity].
      * intros (k & _ & Hsteps & _ & ->). destruct k as [|k]; [reflexivity|].
        specialize (Hsteps 0%nat ltac:(lia)). cbn [back] in Hsteps. congruence.
  - destruct (0 <? o - bi) eqn:Hstep.
    + rewrite IH. split.
      * intros (k & Hk & Hsteps & Hstop & ->). exists (S k). cbn [back].
        split; [lia|]. split; [|split; [exact Hstop|reflexivity]].
        intros [|j] Hj; cbn [back]; [exact Hstep|]. apply Hsteps. lia.
      * intros (k & Hk & Hsteps & Hstop & ->). destruct k as [|k].
        { cbn [back] in Hstop. congruence. }
        exists k. cbn [back] in *. split; [lia|].
        split; [|split; [exact Hstop|reflexivity]].
        intros j Hj. apply (Hsteps (S j)). lia.
    + split.
      * intros [= <-]. exists 0%nat. cbn [back].
        split; [lia|]. split; [intros j Hj; lia|]. split; [exact Hstep|reflexivity].
      * intros (k & _ & Hsteps & _ & ->). destruct k as [|k]; [reflexivity|].
        specialize (Hsteps 0%nat ltac:(lia)). cbn [back] in Hsteps. congruence.
Qed.

(** The forward loop returns exactly when some turn finds the time not
    below the duration, with one region for every turn before it. *)
Lemma pushRegions_stops fuel : forall skip d time regions,
  pushRegions fuel skip d time = Some regions <->
  exists n, (n <= fuel)%nat /\
    (forall i, (i < n)%nat -> (forth i skip time <? d) = true) /\
    (forth n skip time <? d) = false /\
    regions = gridFrom n skip time.
Proof.
  induction fuel as [|fuel IH]; intros skip d time regions;
    cbn [pushRegions].
  - destruct (time <? d) eqn:Hstep.
    + split; [discriminate|]. intros (n & Hn & _ & Hstop & _).
      assert (n = 0%nat) as -> by lia. cbn [forth] in Hstop. congruence.
    + split.
      * intros [= <-]. exists 0%nat. cbn [forth gridFrom].
        split; [lia|]. split; [intros i Hi; lia|]. split; [exact Hstep|reflexivity].
      * intros (n & _ & Hsteps & _ & ->). destruct n as [|n]; [reflexivity|].
        specialize (Hsteps 0%nat ltac:(lia)). cbn [forth] in Hsteps. congruence.
  - destruct (time <? d) eqn:Hstep.
    + destruct (pushRegions fuel skip d (time + skip)) as [rest|] eqn:Hrest.
      * apply IH in Hrest as (n & Hn & Hsteps & Hstop & ->). split.
        -- intros [= <-]. exists (S n). cbn [forth gridFrom].
           split; [lia|]. split; [|split; [exact Hstop|reflexivity]].
           intros [|i] Hi; cbn [forth]; [exact Hstep|]. apply Hsteps. lia.
        -- intros (m & Hm & Hsteps' & Hstop' & ->). destruct m as [|m].
           { cbn [forth] in Hstop'. congruence. }
           cbn [forth gridFrom] in *. do 2 f_equal.
           destruct (Nat.lt_trichotomy m n) as [Hlt|[->|Hgt]];
             [|reflexivity|].
           ++ specialize (Hsteps m Hlt). congruence.
           ++ specialize (Hsteps' (S n) ltac:(lia)). cbn [forth] in Hsteps'.
              congruence.
      * split; [discriminate|].
        intros (m & Hm & Hsteps' & Hstop' & ->). destruct m as [|m].
        { cbn [forth] in Hstop'. congruence. }
        exfalso.
        assert (Hsome : pushRegions fuel skip d (time + skip)
                        = Some (gridFrom m skip (time + skip))).
        { apply IH. exists m. cbn [forth] in Hstop'.
          split; [lia|]. split; [|split; [exact Hstop'|reflexivity]].
          intros i Hi. apply (Hsteps' (S i)). lia. }
        congruence.
    + split.
      * intros [= <-]. exists 0%nat. cbn [forth gridFrom].
        split; [lia|]. split; [intros i Hi; lia|]. split; [exact Hstep|reflexivity].
      * intros (n & _ & Hsteps & _ & ->). destruct n as [|n]; [reflexivity|].
        specialize (Hsteps 0%nat ltac:(lia)). cbn [forth] in Hsteps. congruence.
Qed.

Lemma forth_S i skip time : forth (S i) skip time = forth i skip time + skip.
Proof.
  revert time. induction i as [|i IH]; intros time; [reflexivity|].
  change (forth (S (S i)) skip time) with (forth (S i) skip (time + skip)).
  rewrite IH. reflexivity.
Qed.

Lemma back_S k bi o : back (S k) bi o = back k bi o - bi.
Proof.
  revert o. induction k as [|k IH]; intros o; [reflexivity|].
  change (back (S (S k)) bi o) with (back (S k) bi (o - bi)).
  rewrite IH. reflexivity.
Qed.

(** The regions come in the order of the turns, indexed from zero. *)
Lemma gridFrom_lookup n skip : forall time i reg,
  gridFrom n skip time !! i = Some reg ->
  (i < n)%nat /\ start reg = forth i skip time /\
  end_ reg = forth (S i) skip time.
Proof.
  induction n as [|n IH]; intros time i reg; cbn [gridFrom]; [discriminate|].
  destruct i as [|i]; cbn [lookup list_lookup].
  - intros [= <-]. split; [lia|]. split; reflexivity.
  - intros Hi. apply IH in Hi as (Hlt & Hs & He).
    split; [lia|]. split; [exact Hs|exact He].
Qed.

Lemma length_gridFrom n skip time : length (gridFrom n skip time) = n.
Proof.
  revert time. induction n as [|n IH]; intros time; cbn; [reflexivity|].
  rewrite IH. reflexivity.
Qed.

(** What [calcRegions] returns, and when. *)
Lemma calcRegions_returns fuel track an prev partial d bpm offset res :
  analyzed track an = (Some d, bpm, offset) -> truthy (Some d) = true ->
  let ts := mergeTrackState prev partial in
  let r := default 0.25 (beatResolution ts) in
  let beatInterval := 60 / effectiveBpm ts bpm in
  let skipLength := beatInterval * (1 / r) in
  let o := effectiveOffset track offset in
  calcRegions fuel track an prev partial = Returned res <->
  exists k n,
    (k <= fuel)%nat /\ (n <= fuel)%nat /\
    (forall j, (j < k)%nat ->
       (0 <? back j beatInterval o - beatInterval) = true) /\
    (0 <? back k beatInterval o - beatInterval) = false /\
    (forall i, (i < n)%nat ->
       (forth i skipLength (back k beatInterval o) <? d) = true) /\
    (forth n skipLength (back k beatInterval o) <? d) = false /\
    res = {| r_duration := d; r_adjustedBpm := adjustedBpm ts;
             r_skipLength := skipLength; r_beatResolution := r;
             r_regions := gridFrom n skipLength (back k beatInterval o);
             r_mixpoint := mixpoint ts |}.
Proof.
  intros Han Hd ts r beatInterval skipLength o.
  unfold calcRegions. rewrite Han, Hd.
  cbn [negb default from_option Datatypes.id].
  fold ts. fold r. fold beatInterval. fold o. fold skipLength.
  split.
  - destruct (zeroTime fuel beatInterval o) as [zero|] eqn:Hzero;
      [|discriminate].
    destruct (pushRegions fuel skipLength d zero) as [regions|] eqn:Hpush;
      [|discriminate].
    intros [= <-].
    apply zeroTime_stops in Hzero as (k & Hk & Hback & Hstop & ->).
    apply pushRegions_stops in Hpush as (n & Hn & Hforth & Hend & ->).
    exists k, n. auto 10.
  - intros (k & n & Hk & Hn & Hback & Hstop & Hforth & Hend & ->).
    assert (Hzero : zeroTime fuel beatInterval o
                    = Some (back k beatInterval o)).
    { apply zeroTime_stops. exists k. auto. }
    assert (Hpush : pushRegions fuel skipLength d (back k beatInterval o)
                    = Some (gridFrom n skipLength (back k beatInterval o))).
    { apply pushRegions_stops. exists n. auto. }
    rewrite Hzero, Hpush. reflexivity.
Qed.

(** Every turn of either loop needs its unit of fuel, and more fuel changes
    nothing of a result. *)
Lemma calcRegions_fuel fuel fuel' track an prev partial res :
  (fuel <= fuel')%nat ->
  calcRegions fuel track an prev partial = Returned res ->
  calcRegions fuel' track an prev partial = Returned res.
Proof.
  intros Hle. unfold calcRegions.
  destruct (analyzed track an) as [[duration bpm] offset].
  destruct (negb (truthy duration)); [discriminate|].
  match goal with |- context [zeroTime fuel ?bi ?o] =>
    destruct (zeroTime fuel bi o) as [zero|] eqn:Hzero; [|discriminate];
    apply zeroTime_stops in Hzero as (k & Hk & Hback & Hstop & ->);
    assert (Hzero' : zeroTime fuel' bi o = Some (back k bi o))
      by (apply zeroTime_stops; exists k; split; [lia|auto]);
    rewrite Hzero'
  end.
  match goal with |- context [pushRegions fuel ?s ?d ?z] =>
    destruct (pushRegions fuel s d z) as [regions|] eqn:Hpush; [|discriminate];
    apply pushRegions_stops in Hpush as (n & Hn & Hforth & Hend & ->);
    assert (Hpush' : pushRegions fuel' s d z = Some (gridFrom n s z))
      by (apply pushRegions_stops; exists n; split; [lia|auto]);
    rewrite Hpush'
  end.
  auto.
Qed.

(** A start point that the subtraction leaves as it is keeps the backward
    loop turning. *)
Lemma zeroTime_absorbed bi o :
  o - bi = o -> (0 <? o - bi) = true -> forall fuel, zeroTime fuel bi o = None.
Proof.
  intros Hsame Hpos. induction fuel as [|fuel IH]; cbn [zeroTime];
    rewrite Hpos; [reflexivity|]. rewrite Hsame. exact IH.
Qed.

End BeatGrid64Facts.

Section Grid64Theorems.
Import BeatGrid64.
Local Open Scope float_scope.

(** C2 (amended).  [calcRegions] computes in doubles: [beatInterval] is
    [60 / bpm] and [skipLength] is [beatInterval * (1 / beatResolution)],
    each rounded; the zero time is what [k] rounded subtractions of
    [beatInterval] leave of the offset, [k] being the first count at which
    the next difference is not positive; marker [i], counted from zero, is
    what [i] rounded additions of [skipLength] make of the zero time, and
    there is one for every turn until the sum is no longer below the
    duration.  The call returns exactly when both loops reach their test,
    which a start point that the subtraction cannot change never does.  For
    120 bpm, offset 0.2 s, duration 2 s and resolution 1 the marker times
    are 0.2, 0.7, 1.2 and 1.7. *)
Theorem calcRegions_rounds_every_step :
  (forall fuel track an prev partial d bpm offset res,
     analyzed track an = (Some d, bpm, offset) -> truthy (Some d) = true ->
     let ts := mergeTrackState prev partial in
     let r := default 0.25 (beatResolution ts) in
     let beatInterval := 60 / effectiveBpm ts bpm in
     let skipLength := beatInterval * (1 / r) in
     let o := effectiveOffset track offset in
     calcRegions fuel track an prev partial = Returned res <->
     exists k n,
       (k <= fuel)%nat /\ (n <= fuel)%nat /\
       (forall j, (j < k)%nat ->
          (0 <? back j beatInterval o - beatInterval) = true) /\
       (0 <? back k beatInterval o - beatInterval) = false /\
       (forall i, (i < n)%nat ->
          (forth i skipLength (back k beatInterval o) <? d) = true) /\
       (forth n skipLength (back k beatInterval o) <? d) = false /\
       res = {| r_duration := d; r_adjustedBpm := adjustedBpm ts;
                r_skipLength := skipLength; r_beatResolution := r;
                r_regions := gridFrom n skipLength (back k beatInterval o);
                r_mixpoint := mixpoint ts |}) /\
  (forall n skipLength zero,
     length (gridFrom n skipLength zero) = n /\
     forall i reg,
       gridFrom n skipLength zero !! i = Some reg ->
       start reg = forth i skipLength zero /\
       end_ reg = forth i skipLength zero + skipLength) /\
  (forall k beatInterval o,
     back (S k) beatInterval o = back k beatInterval o - beatInterval) /\
  (forall fuel fuel' track an prev partial res,
     (fuel <= fuel')%nat ->
     calcRegions fuel track an prev partial = Returned res ->
     calcRegions fuel' track an prev partial = Returned res) /\
  (forall fuel, (4 <= fuel)%nat ->
     exists res,
       calcRegions fuel (ofTrack exampleTrack) (ofAnalysis noAnalysis)
         (ofTrackState noState) (ofTrackState wholeBeats) = Returned res /\
       r_skipLength res = Q2double (1 # 2) /\
       map start (r_regions res)
       = map Q2double [1 # 5; 7 # 10; 6 # 5; 17 # 10]%Q) /\
  (forall fuel,
     calcRegions fuel (ofTrack remoteBeat) (ofAnalysis noAnalysis)
       (ofTrackState noState) (ofTrackState wholeBeats) = OutOfFuel).
Proof.
  split; [|split; [|split; [|split; [|split]]]].
  - intros fuel track an prev partial d bpm offset res.
    apply calcRegions_returns.
  - intros n skipLength zero. split; [apply length_gridFrom|].
    intros i reg Hi. apply gridFrom_lookup in Hi as (_ & Hs & He).
    rewrite He, forth_S. auto.
  - apply back_S.
  - apply calcRegions_fuel.
  - intros fuel Hfuel. eexists. split.
    + apply (calcRegions_fuel 4 fuel); [exact Hfuel|].
      vm_compute. reflexivity.
    + split; vm_compute; reflexivity.
  - intros fuel. unfold calcRegions.
    change (analyzed (ofTrack remoteBeat) (ofAnalysis noAnalysis))
      with (Some 2, Some 60, Some (Q2double (100000000000000000 # 1))).
    change (negb (truthy (Some 2))) with false. cbv iota.
    change (effectiveBpm _ (Some 60)) with 60.
    change (effectiveOffset _ _) with (Q2double (100000000000000000 # 1)).
    change (60 / 60) with 1.
    rewrite zeroTime_absorbed; [reflexivity| |]; vm_compute; reflexivity.
Qed.

(** The statement applied to the track at 90 bpm: three backward turns and
    forty-five forward turns. *)
Lemma calcRegions_rounds_every_step_witness :
  exists res,
    calcRegions 45 (ofTrack ninetyBpm) (ofAnalysis noAnalysis)
      (ofTrackState noState) (ofTrackState wholeBeats) = Returned res /\
    length (r_regions res) = 45%nat.
Proof.
  destruct calcRegions_rounds_every_step as (Hreturns & Hgrid & _).
  eexists. split.
  - apply (Hreturns 45%nat (ofTrack ninetyBpm) (ofAnalysis noAnalysis)
             (ofTrackState noState) (ofTrackState wholeBeats)
             30 (Some 90) (Some 2)); [reflexivity|reflexivity|].
    exists 3%nat, 45%nat.
    split; [lia|]. split; [lia|]. split.
    { intros j Hj. do 3 (destruct j as [|j]; [vm_compute; reflexivity|]). lia. }
    split; [vm_compute; reflexivity|]. split.
    { intros i Hi.
      do 45 (destruct i as [|i]; [vm_compute; reflexivity|]). lia. }
    split; [vm_compute; reflexivity|reflexivity].
  - cbn [r_regions]. apply Hgrid.
Defined.

(** Where the offset is a whole number of beat intervals, and where the
    duration is, the rounded steps leave the grid of the exact formula: at
    90 bpm with the first beat at 2 s the exact zero time is 2/3 s, with 44
    markers below 30 s, while the program takes a third step back, to
    2^-52 s, and returns 45 markers; at 61 bpm the 122 exact markers below
    120 s become 123. *)
Lemma calcRegions_leaves_the_exact_grid :
  (exists exact res,
     BeatGrid.calcRegions 45 ninetyBpm noAnalysis noState wholeBeats
       = Returned exact /\
     calcRegions 45 (ofTrack ninetyBpm) (ofAnalysis noAnalysis)
       (ofTrackState noState) (ofTrackState wholeBeats) = Returned res /\
     length (BeatGrid.r_regions exact) = 44%nat /\
     length (r_regions res) = 45%nat /\
     (fun reg => Qred (BeatGrid.start reg)) <$> head (BeatGrid.r_regions exact)
       = Some (2 # 3)%Q /\
     start <$> head (r_regions res) = Some 0x1p-52 /\
     back 3 (60 / 90) 2 = 0x1p-52) /\
  (exists exact res,
     BeatGrid.calcRegions 123 sixtyOneBpm noAnalysis noState wholeBeats
       = Returned exact /\
     calcRegions 123 (ofTrack sixtyOneBpm) (ofAnalysis noAnalysis)
       (ofTrackState noState) (ofTrackState wholeBeats) = Returned res /\
     length (BeatGrid.r_regions exact) = 122%nat /\
     length (r_regions res) = 123%nat).
Proof.
  split.
  - eexists _, _. split; [vm_compute; reflexivity|].
    split; [vm_compute; reflexivity|].
    repeat split; vm_compute; reflexivity.
  - eexists _, _. split; [vm_compute; reflexivity|].
    split; [vm_compute; reflexivity|].
    repeat split; vm_compute; reflexivity.
Qed.

End Grid64Theorems.

(** ** Facts about the transport *)

Section EngineFacts.
Import Engine.
Context {num : Type} `{JsNumber num}.

Implicit Types (w : World num) (t : TrackSt num) (id : nat).

Lemma elem_of_entries (m : gmap nat (TrackSt num)) id t :
  (id, t) ∈ entries m <-> m !! id = Some t.
Proof.
  unfold entries. rewrite merge_sort_Permutation.
  apply elem_of_map_to_list.
Qed.

Lemma NoDup_entries (m : gmap nat (TrackSt num)) :
  NoDup (map fst (entries m)).
Proof.
  unfold entries.
  rewrite (fmap_Permutation fst _ _ (merge_sort_Permutation key_le _)).
  apply NoDup_fst_map_to_list.
Qed.

Lemma getTrack_setTrack id id' (f : TrackSt num -> TrackSt num) w :
  getTrack id' (setTrack id f w)
  = if decide (id = id') then f (getTrack id w) else getTrack id' w.
Proof.
  unfold getTrack, setTrack. simpl. destruct (decide (id = id')) as [->|Hne].
  - rewrite lookup_insert_eq. reflexivity.
  - rewrite lookup_insert_ne by exact Hne. reflexivity.
Qed.

Lemma logOnly_refl w : logOnly w w.
Proof. repeat split. Qed.

Lemma logOnly_trans w1 w2 w3 : logOnly w1 w2 -> logOnly w2 w3 -> logOnly w1 w3.
Proof.
  unfold logOnly. intros H1 H2. destruct H1 as (?&?&?&?&?&?&?&?&?&?).
  destruct H2 as (?&?&?&?&?&?&?&?&?&?). repeat split; congruence.
Qed.

Lemma logOnly_emit c w : logOnly w (emit c w).
Proof. repeat split. Qed.

(** One stem of the stems branch of [play]. *)
Lemma startStem_player cst (tm rate : option Q) ms w stem (st : StemSt num) p :
  s_player st = Some p ->
  exists w' pre,
    startStem cst tm rate (ms, w) (stem, st) = (ms ++ [stem], w') /\
    logOnly w w' /\ audioLog w' = pre ++ audioLog w /\
    forall q a o, Start q a o ∈ pre <-> q = p /\ a = cst /\ o = tm.
Proof.
  intros Hp. unfold startStem. rewrite Hp.
  destruct rate as [r|].
  - eexists _, [Start p cst tm; ConnectMeter p; PlaybackRate p r].
    split; [reflexivity|]. split; [repeat split|]. split; [reflexivity|].
    intros q a o. rewrite !elem_of_cons, elem_of_nil. split.
    + intros [Heq|[Heq|[Heq|[]]]]; inversion Heq; auto.
    + intros (-> & -> & ->). left. reflexivity.
  - eexists _, [Start p cst tm; ConnectMeter p].
    split; [reflexivity|]. split; [repeat split|]. split; [reflexivity|].
    intros q a o. rewrite !elem_of_cons, elem_of_nil. split.
    + intros [Heq|[Heq|[]]]; inversion Heq; auto.
    + intros (-> & -> & ->). left. reflexivity.
Qed.

(** The stems branch of [play] logs one start per stem player, at the
    captured time, and touches nothing but the log. *)
Lemma foldl_startStem cst (tm rate : option Q)
    (l : list (Stem * StemSt num)) :
  forall ms w,
    let r := foldl (startStem cst tm rate) (ms, w) l in
    logOnly w r.2 /\
    exists new, audioLog r.2 = new ++ audioLog w /\
      forall p a o, Start p a o ∈ new <->
        a = cst /\ o = tm /\
        exists stem st, (stem, st) ∈ l /\ s_player st = Some p.
Proof.
  induction l as [|[stem st] l IH]; intros ms w; cbn [foldl].
  - split; [apply logOnly_refl|]. exists []. split; [reflexivity|].
    intros p a o. split.
    + intros Hin. inversion Hin.
    + intros (_ & _ & stem & st & Hin & _). inversion Hin.
  - destruct (s_player st) as [p0|] eqn:Hp.
    + destruct (startStem_player cst tm rate ms w stem st p0 Hp)
        as (w1 & pre & Hstep & Hframe & Hlog1 & Hpre).
      rewrite Hstep.
      destruct (IH (ms ++ [stem]) w1) as (Hframe' & new & Hlog & Hnew).
      split; [eapply logOnly_trans; eassumption|].
      exists (new ++ pre). split.
      { rewrite Hlog, Hlog1, app_assoc. reflexivity. }
      intros p a o. rewrite elem_of_app, Hnew, Hpre. split.
      * intros [(-> & -> & stem' & st' & Hin & Hp')|(-> & -> & ->)].
        -- repeat split; try reflexivity. exists stem', st'.
           split; [right; exact Hin|exact Hp'].
        -- repeat split; try reflexivity. exists stem, st.
           split; [left|exact Hp].
      * intros (-> & -> & stem' & st' & Hin & Hp').
        apply elem_of_cons in Hin as [Heq|Hin].
        -- inversion Heq; subst. right. rewrite Hp in Hp'.
           inversion Hp'. auto.
        -- left. repeat split; try reflexivity. exists stem', st'. auto.
    + assert (Hstep : startStem cst tm rate (ms, w) (stem, st) = (ms, w)).
      { unfold startStem. rewrite Hp. reflexivity. }
      rewrite Hstep.
      destruct (IH ms w) as (Hframe & new & Hlog & Hnew).
      split; [exact Hframe|].
      exists new. split; [exact Hlog|].
      intros p a o. rewrite Hnew. split.
      * intros (-> & -> & stem' & st' & Hin & Hp').
        repeat split; try reflexivity. exists stem', st'.
        split; [right; exact Hin|exact Hp'].
      * intros (-> & -> & stem' & st' & Hin & Hp').
        repeat split; try reflexivity. exists stem', st'. split; [|exact Hp'].
        apply elem_of_cons in Hin as [Heq|Hin]; [|exact Hin].
        inversion Heq; subst. rewrite Hp in Hp'. discriminate.
Qed.

Lemma getTrack_ext id w w' :
  audioState w' = audioState w -> getTrack id w' = getTrack id w.
Proof. unfold getTrack. intros ->. reflexivity. Qed.

Lemma clearVolumeMeter_frame id w :
  audioState (clearVolumeMeter id w) = audioState w /\
  audioLog (clearVolumeMeter id w) = audioLog w /\
  clockReads (clearVolumeMeter id w) = clockReads w /\
  clock (clearVolumeMeter id w) = clock w.
Proof.
  unfold clearVolumeMeter, clearInterval.
  destruct (volumeMeterInterval (getTrack id w)); repeat split.
Qed.

Lemma stems_playInsensitive : playInsensitive (@stems num).
Proof. split; reflexivity. Qed.

(** One iteration of [play]'s loop: which players it starts, and when. *)
Lemma playTrack_starts cst trackId w id t :
  let w' := playTrack cst trackId w (id, t) in
  clockReads w' = clockReads w /\
  (forall A (proj : TrackSt num -> A), playInsensitive proj ->
     forall id', proj (getTrack id' w') = proj (getTrack id' w)) /\
  exists new, audioLog w' = new ++ audioLog w /\
    forall p a o, Start p a o ∈ new <->
      a = cst /\ o = time t /\ skipped trackId id t = false /\
      match stems (getTrack id w) with
      | None => player t = Some p
      | Some ss => exists stem st, ss !! stem = Some st /\ s_player st = Some p
      end.
Proof.
  cbv zeta. unfold playTrack.
  destruct (skipped trackId id t) eqn:Hskip.
  { split; [reflexivity|]. split; [reflexivity|]. exists [].
    split; [reflexivity|]. intros p a o. split.
    - intros Hin. inversion Hin.
    - intros (_ & _ & Hf & _). discriminate. }
  destruct (clearVolumeMeter_frame id w) as (Hst & Hlog & Hreads & _).
  set (w1 := await (clearVolumeMeter id w)).
  assert (Hst1 : audioState w1 = audioState w) by exact Hst.
  assert (Hlog1 : audioLog w1 = audioLog w) by exact Hlog.
  assert (Hreads1 : clockReads w1 = clockReads w) by exact Hreads.
  clearbody w1.
  set (adjusted := trackPrefs w1 !! id ≫= adjustedBpm).
  set (bw := if truthy adjusted then (dbBpm w1 !! id, await w1)
             else (None, w1)).
  assert (Hbw : audioState bw.2 = audioState w /\ audioLog bw.2 = audioLog w
                /\ clockReads bw.2 = clockReads w).
  { unfold bw. destruct (truthy adjusted); simpl; auto. }
  destruct bw as [bpm w2]. simpl in Hbw. destruct Hbw as (Hst2 & Hlog2 & Hreads2).
  set (rate := match adjusted, bpm with
               | Some a, Some b =>
                   if truthy adjusted && truthy bpm then Some (a / b) else None
               | _, _ => None
               end).
  clearbody rate.
  rewrite (getTrack_ext id w w2 Hst2).
  assert (Hplayer : is_Some (player t)).
  { unfold skipped in Hskip. apply orb_false_elim in Hskip as [Hskip _].
    apply orb_false_elim in Hskip as [_ Hskip].
    apply negb_false_iff, bool_decide_eq_true in Hskip. exact Hskip. }
  destruct Hplayer as [p0 Hp0].
  assert (Hfinal : forall (mw : list Stem * World num) new,
    audioState mw.2 = audioState w -> clockReads mw.2 = clockReads w ->
    audioLog mw.2 = new ++ audioLog w ->
    (forall p a o, Start p a o ∈ new <->
      a = cst /\ o = time t /\ false = false /\
      match stems (getTrack id w) with
      | None => player t = Some p
      | Some ss => exists stem st, ss !! stem = Some st /\ s_player st = Some p
      end) ->
    let w' :=
      (let '(meters, w) := mw in
       let '(newInterval, w) :=
         setInterval {| owner := id; meters := meters;
                        contextStartTime := cst; startOffset := time t |} w in
       let w := setTrack id (with_volumeMeterInterval (Some newInterval)) w in
       setTrack id (with_playing (Some true)) w) in
    clockReads w' = clockReads w /\
    (forall A (proj : TrackSt num -> A), playInsensitive proj ->
       forall id', proj (getTrack id' w') = proj (getTrack id' w)) /\
    exists new, audioLog w' = new ++ audioLog w /\
      forall p a o, Start p a o ∈ new <->
        a = cst /\ o = time t /\ false = false /\
        match stems (getTrack id w) with
        | None => player t = Some p
        | Some ss =>
            exists stem st, ss !! stem = Some st /\ s_player st = Some p
        end).
  { intros [ms w3] new Hst3 Hreads3 Hlog3 Hnew. simpl in *.
    split; [exact Hreads3|]. split.
    - intros A proj [Hp1 Hp2] id'. rewrite !getTrack_setTrack.
      repeat case_decide; subst; try congruence;
        rewrite ?Hp1, ?Hp2; unfold getTrack; simpl; rewrite Hst3;
        reflexivity.
    - exists new. split; [exact Hlog3|exact Hnew]. }
  destruct (stems (getTrack id w)) as [ss|] eqn:Hss.
  - destruct (foldl_startStem cst (time t) rate (map_to_list ss) [] w2)
      as (Hframe & new & Hlogf & Hnew).
    destruct Hframe as (Hfa & Hfr & _).
    apply (Hfinal _ new).
    + rewrite Hfa. exact Hst2.
    + rewrite Hfr. exact Hreads2.
    + rewrite Hlogf, Hlog2. reflexivity.
    + intros p a o. rewrite Hnew. split.
      * intros (-> & -> & stem & st & Hin & Hp).
        repeat split; try reflexivity. exists stem, st.
        split; [apply elem_of_map_to_list; exact Hin|exact Hp].
      * intros (-> & -> & _ & stem & st & Hin & Hp).
        repeat split; try reflexivity. exists stem, st.
        split; [apply elem_of_map_to_list; exact Hin|exact Hp].
  - rewrite Hp0 in Hfinal |- *.
    apply (Hfinal ([], emit (Start p0 cst (time t)) w2) [Start p0 cst (time t)]).
    + exact Hst2.
    + exact Hreads2.
    + simpl. rewrite Hlog2. reflexivity.
    + intros p a o. rewrite list_elem_of_singleton. split.
      * intros Heq. inversion Heq; subst. auto.
      * intros (-> & -> & _ & Heq). inversion Heq. reflexivity.
Qed.

Lemma foldl_playTrack cst trackId (l : list (nat * TrackSt num)) :
  forall w,
    (forall id t, (id, t) ∈ l -> stems (getTrack id w) = stems t) ->
    let w' := foldl (playTrack cst trackId) w l in
    clockReads w' = clockReads w /\
    (forall A (proj : TrackSt num -> A), playInsensitive proj ->
       forall id', proj (getTrack id' w') = proj (getTrack id' w)) /\
    exists new, audioLog w' = new ++ audioLog w /\
      forall p a o, Start p a o ∈ new <->
        a = cst /\
        exists id t, (id, t) ∈ l /\ o = time t /\
                     skipped trackId id t = false /\ playersOf t p.
Proof.
  induction l as [|[id t] l IH]; intros w Hsnap; cbn [foldl].
  - split; [reflexivity|]. split; [reflexivity|]. exists [].
    split; [reflexivity|]. intros p a o. split.
    + intros Hin. inversion Hin.
    + intros (_ & id & t & Hin & _). inversion Hin.
  - destruct (playTrack_starts cst trackId w id t)
      as (Hreads1 & Hstems1 & new1 & Hlog1 & Hnew1).
    set (w1 := playTrack cst trackId w (id, t)) in *.
    destruct (IH w1) as (Hreads & Hstems & new & Hlog & Hnew).
    { intros id' t' Hin. rewrite (Hstems1 _ _ stems_playInsensitive).
      apply Hsnap. right. exact Hin. }
    split; [congruence|]. split.
    { intros A proj Hproj id'. rewrite (Hstems _ _ Hproj).
      apply Hstems1. exact Hproj. }
    exists (new ++ new1). split.
    { rewrite Hlog, Hlog1, app_assoc. reflexivity. }
    intros p a o. rewrite elem_of_app, Hnew, Hnew1.
    rewrite (Hsnap id t) by left. fold (playersOf t p). split.
    + intros [(-> & id' & t' & Hin & Ho & Hs & Hp)|(-> & -> & Hs & Hp)].
      * split; [reflexivity|]. exists id', t'.
        split; [right; exact Hin|auto].
      * split; [reflexivity|]. exists id, t. split; [left|auto].
    + intros (-> & id' & t' & Hin & Ho & Hs & Hp).
      apply elem_of_cons in Hin as [Heq|Hin].
      * inversion Heq; subst. right. auto.
      * left. split; [reflexivity|]. exists id', t'. auto.
Qed.

End EngineFacts.

Section PlayTheorem.
Import Engine.
Context {num : Type} `{JsNumber num}.

(** C1.  A call of [play], with or without a track id, reads the shared
    clock once, after the audio context has started and before the loop over
    the tracks; the players it starts are the track-level player of every
    selected track without stems and every stem player of every selected
    track with stems, and each of their starts is scheduled at the one value
    that was read, although the clock moves on while the loop awaits. *)
Theorem play_one_clock_reference (trackId : option nat) (w : World num) :
  let w' := play trackId w in
  let contextStartTime := clock (await w) in
  clockReads w' = S (clockReads w) /\
  exists started,
    audioLog w' = started ++ audioLog w /\
    forall p at_ offset,
      Start p at_ offset ∈ started <->
      at_ = contextStartTime /\
      exists id t,
        audioState w !! id = Some t /\ offset = time t /\
        skipped trackId id t = false /\ playersOf t p.
Proof.
  cbv zeta. unfold play.
  change (now (await w)) with
    (clock (await w),
     {| audioState := audioState w; clock := clock (await w);
        clockReads := S (clockReads w); latency := latency w;
        awaits := S (awaits w); timers := timers w;
        nextTimer := nextTimer w; audioLog := audioLog w;
        trackPrefs := trackPrefs w; dbBpm := dbBpm w;
        mixTracks := mixTracks w |}).
  cbv iota beta.
  match goal with |- context [foldl _ ?w2 ?l] =>
    destruct (foldl_playTrack (clock (await w)) trackId l w2)
      as (Hreads & _ & new & Hlog & Hnew)
  end.
  { intros id t Hin. apply elem_of_entries in Hin. simpl in Hin.
    unfold getTrack. simpl. rewrite Hin. reflexivity. }
  split; [exact Hreads|]. exists new. split; [exact Hlog|].
  intros p a o. rewrite Hnew. split.
  - intros (-> & id & t & Hin & Hrest). split; [reflexivity|].
    exists id, t. split; [|exact Hrest].
    apply elem_of_entries in Hin. exact Hin.
  - intros (-> & id & t & Hin & Hrest). split; [reflexivity|].
    exists id, t. split; [|exact Hrest].
    apply elem_of_entries. exact Hin.
Qed.

Lemma play_preserves {A} (proj : TrackSt num -> A) trackId (w : World num) id :
  playInsensitive proj ->
  proj (getTrack id (play trackId w)) = proj (getTrack id w).
Proof.
  intros Hproj. unfold play.
  change (now (await w)) with (clock (await w), (now (await w)).2).
  cbv iota beta.
  match goal with |- context [foldl _ ?w2 ?l] =>
    destruct (foldl_playTrack (clock (await w)) trackId l w2)
      as (_ & Hkeep & _)
  end.
  { intros id' t Hin. apply elem_of_entries in Hin. simpl in Hin.
    unfold getTrack. simpl. rewrite Hin. reflexivity. }
  rewrite (Hkeep _ _ Hproj). reflexivity.
Qed.

End PlayTheorem.

Section PauseFacts.
Import Engine.
Context {num : Type} `{JsNumber num}.
Implicit Types (w : World num) (id : nat).

Lemma stopPlayer_frame w p :
  logOnly w (stopPlayer w p) /\
  exists new, audioLog (stopPlayer w p) = new ++ audioLog w /\
    forall c, c ∈ new <-> exists q, p = Some q /\ c = Stop q (releaseTime w).
Proof.
  destruct p as [q|]; simpl.
  - split; [apply logOnly_emit|]. exists [Stop q (releaseTime w)].
    split; [reflexivity|]. intros c. rewrite list_elem_of_singleton. split.
    + intros ->. exists q. auto.
    + intros (q' & Heq & ->). inversion Heq. reflexivity.
  - split; [apply logOnly_refl|]. exists []. split; [reflexivity|].
    intros c. split.
    + intros Hin. inversion Hin.
    + intros (q & Heq & _). discriminate.
Qed.

(** The loop of [pause] over the stems of one track. *)
Lemma foldl_pauseStem id (l : list (Stem * StemSt num)) :
  forall w m,
    stems (getTrack id w) = Some m ->
    let w' := foldl (pauseStem id) w l in
    clock w' = clock w /\ timers w' = timers w /\
    (forall id', id' <> id -> getTrack id' w' = getTrack id' w) /\
    (exists m',
       getTrack id w' = with_stems (Some m') (getTrack id w) /\
       forall k, m' !! k =
         if decide (k ∈ l.*1)
         then Some (zeroMeter (default emptyStem (m !! k)))
         else m !! k) /\
    exists new, audioLog w' = new ++ audioLog w /\
      forall c, c ∈ new <->
        exists stem st q, (stem, st) ∈ l /\ s_player st = Some q /\
                          c = Stop q (releaseTime w).
Proof.
  induction l as [|[stem st] l IH]; intros w m Hm; cbn [foldl].
  - split; [reflexivity|]. split; [reflexivity|]. split; [reflexivity|].
    split.
    + exists m. split.
      * destruct (getTrack id w); simpl in *. subst. reflexivity.
      * intros k. rewrite decide_False; [reflexivity|]. intros Hin. inversion Hin.
    + exists []. split; [reflexivity|]. intros c. split.
      * intros Hin. inversion Hin.
      * intros (? & ? & ? & Hin & _). inversion Hin.
  - set (w0 := setStem id stem (with_s_volumeMeter (Some 0)) w).
    set (m1 := <[stem := zeroMeter (default emptyStem (m !! stem))]> m).
    assert (Hw0 : getTrack id w0 = with_stems (Some m1) (getTrack id w)).
    { unfold w0, setStem. rewrite getTrack_setTrack, decide_True by reflexivity.
      rewrite Hm. reflexivity. }
    assert (Hother0 : forall id', id' <> id -> getTrack id' w0 = getTrack id' w).
    { intros id' Hne. unfold w0, setStem.
      rewrite getTrack_setTrack, decide_False by congruence. reflexivity. }
    destruct (stopPlayer_frame w0 (s_player st)) as (Hframe & new1 & Hlog1 & Hnew1).
    set (w1 := stopPlayer w0 (s_player st)) in *.
    change (pauseStem id w (stem, st)) with w1.
    destruct Hframe as (Hst1 & _ & Hclk1 & _ & _ & Htm1 & _).
    assert (Hm1 : stems (getTrack id w1) = Some m1).
    { rewrite (getTrack_ext id w0 w1 Hst1), Hw0. reflexivity. }
    destruct (IH w1 m1 Hm1) as (Hclk & Htm & Hother & (m' & Hget & Hlook) & new & Hlog & Hnew).
    split; [rewrite Hclk, Hclk1; reflexivity|].
    split; [rewrite Htm, Htm1; reflexivity|].
    split.
    { intros id' Hne. rewrite Hother by exact Hne.
      rewrite (getTrack_ext id' w0 w1 Hst1). apply Hother0. exact Hne. }
    split.
    { exists m'. split.
      - rewrite Hget, (getTrack_ext id w0 w1 Hst1), Hw0. reflexivity.
      - intros k. rewrite Hlook. unfold m1. cbn [fmap list_fmap fst].
        destruct (decide (k = stem)) as [->|Hne].
        + rewrite lookup_insert_eq.
          rewrite (decide_True (P := stem ∈ stem :: l.*1)) by left.
          destruct (decide (stem ∈ l.*1)); reflexivity.
        + rewrite lookup_insert_ne by congruence.
          destruct (decide (k ∈ l.*1)) as [Hin|Hnin].
          * rewrite decide_True by (right; exact Hin). reflexivity.
          * rewrite decide_False; [reflexivity|].
            intros Hin. apply elem_of_cons in Hin as [?|?]; contradiction. }
    exists (new ++ new1). split.
    { rewrite Hlog, Hlog1, app_assoc. reflexivity. }
    assert (Hrt : releaseTime w1 = releaseTime w).
    { unfold releaseTime. rewrite Hclk1. reflexivity. }
    assert (Hrt0 : releaseTime w0 = releaseTime w) by reflexivity.
    intros c. rewrite elem_of_app, Hnew, Hnew1, Hrt, Hrt0. split.
    + intros [(stem' & st' & q & Hin & Hp & ->)|(q & Hp & ->)].
      * exists stem', st', q. split; [right; exact Hin|auto].
      * exists stem, st, q. split; [left|auto].
    + intros (stem' & st' & q & Hin & Hp & ->).
      apply elem_of_cons in Hin as [Heq|Hin].
      * inversion Heq; subst. right. exists q. auto.
      * left. exists stem', st', q. auto.
Qed.

Lemma clearVolumeMeter_timers id w :
  timers (clearVolumeMeter id w)
  = match volumeMeterInterval (getTrack id w) with
    | Some h => delete h (timers w)
    | None => timers w
    end.
Proof.
  unfold clearVolumeMeter, clearInterval.
  destruct (volumeMeterInterval (getTrack id w)); reflexivity.
Qed.

(** What [pause] does to one track. *)
Lemma pauseTrack_spec w id :
  let w' := pauseTrack w id in
  clock w' = clock w /\
  timers w' = match volumeMeterInterval (getTrack id w) with
              | Some h => delete h (timers w)
              | None => timers w
              end /\
  (forall id', id' <> id -> getTrack id' w' = getTrack id' w) /\
  quiet (getTrack id w') /\
  exists new, audioLog w' = new ++ audioLog w /\
    forall c, c ∈ new <->
      exists ss stem st q,
        stems (getTrack id w) = Some ss /\ ss !! stem = Some st /\
        s_player st = Some q /\ c = Stop q (releaseTime w).
Proof.
  cbv zeta. unfold pauseTrack.
  assert (Hloop : exists w1 new,
    match stems (getTrack id w) with
    | Some ss => foldl (pauseStem id) w (map_to_list ss)
    | None => w
    end = w1 /\
    clock w1 = clock w /\ timers w1 = timers w /\
    (forall id', id' <> id -> getTrack id' w1 = getTrack id' w) /\
    volumeMeterInterval (getTrack id w1) = volumeMeterInterval (getTrack id w)
    /\
    (forall ss stem st, stems (getTrack id w1) = Some ss ->
       ss !! stem = Some st -> s_volumeMeter st = Some 0) /\
    audioLog w1 = new ++ audioLog w /\
    forall c, c ∈ new <->
      exists ss stem st q,
        stems (getTrack id w) = Some ss /\ ss !! stem = Some st /\
        s_player st = Some q /\ c = Stop q (releaseTime w)).
  { destruct (stems (getTrack id w)) as [ss|] eqn:Hss.
    - destruct (foldl_pauseStem id (map_to_list ss) w ss Hss)
        as (Hclk & Htm & Hother & (m' & Hget & Hlook) & new & Hlog & Hnew).
      eexists _, new. split; [reflexivity|].
      split; [exact Hclk|]. split; [exact Htm|]. split; [exact Hother|].
      split; [rewrite Hget; reflexivity|]. split.
      + intros ss' stem st Hss' Hst. rewrite Hget in Hss'. simpl in Hss'.
        inversion Hss'; subst ss'. rewrite Hlook in Hst.
        destruct (decide (stem ∈ (map_to_list ss).*1)) as [Hin|Hnin].
        * inversion Hst. reflexivity.
        * exfalso. apply Hnin. apply list_elem_of_fmap.
          exists (stem, st). split; [reflexivity|].
          apply elem_of_map_to_list. exact Hst.
      + split; [exact Hlog|]. intros c. rewrite Hnew. split.
        * intros (stem & st & q & Hin & Hp & ->).
          exists ss, stem, st, q. split; [reflexivity|].
          split; [apply elem_of_map_to_list; exact Hin|auto].
        * intros (ss' & stem & st & q & Heq & Hst & Hp & ->).
          inversion Heq; subst ss'. exists stem, st, q.
          split; [apply elem_of_map_to_list; exact Hst|auto].
    - exists w, []. split; [reflexivity|].
      split; [reflexivity|]. split; [reflexivity|]. split; [reflexivity|].
      split; [reflexivity|]. split; [intros ss stem st Hs; congruence|].
      split; [reflexivity|]. intros c. split.
      + intros Hin. inversion Hin.
      + intros (ss & _ & _ & _ & Hs & _). discriminate. }
  destruct Hloop as (w1 & new & -> & Hclk & Htm & Hother & Hint & Hzero & Hlog & Hnew).
  destruct (clearVolumeMeter_frame id w1) as (Hst2 & Hlog2 & _ & Hclk2).
  pose proof (clearVolumeMeter_timers id w1) as Htm2.
  set (w2 := clearVolumeMeter id w1) in *.
  split; [simpl; rewrite Hclk2; exact Hclk|].
  split; [simpl; rewrite Htm2, Hint, Htm; reflexivity|].
  split.
  { intros id' Hne. rewrite !getTrack_setTrack.
    rewrite !decide_False by congruence.
    rewrite (getTrack_ext id' w1 w2 Hst2). apply Hother. exact Hne. }
  split.
  { rewrite !getTrack_setTrack. rewrite !decide_True by reflexivity.
    rewrite (getTrack_ext id w1 w2 Hst2).
    repeat split. simpl. intros ss stem st. apply Hzero. }
  exists new. split; [simpl; rewrite Hlog2; exact Hlog|exact Hnew].
Qed.

Lemma foldl_stopPlayer (players : list (option nat)) :
  forall w,
    let w' := foldl stopPlayer w players in
    logOnly w w' /\
    exists new, audioLog w' = new ++ audioLog w /\
      forall c, c ∈ new <->
        exists q, Some q ∈ players /\ c = Stop q (releaseTime w).
Proof.
  induction players as [|p players IH]; intros w; cbn [foldl].
  - split; [apply logOnly_refl|]. exists []. split; [reflexivity|].
    intros c. split.
    + intros Hin. inversion Hin.
    + intros (q & Hin & _). inversion Hin.
  - destruct (stopPlayer_frame w p) as (Hframe1 & new1 & Hlog1 & Hnew1).
    destruct (IH (stopPlayer w p)) as (Hframe & new & Hlog & Hnew).
    split; [eapply logOnly_trans; eassumption|].
    exists (new ++ new1). split.
    { rewrite Hlog, Hlog1, app_assoc. reflexivity. }
    assert (Hrt : releaseTime (stopPlayer w p) = releaseTime w).
    { unfold releaseTime. destruct Hframe1 as (_ & _ & -> & _). reflexivity. }
    intros c. rewrite elem_of_app, Hnew, Hnew1, Hrt. split.
    + intros [(q & Hin & ->)|(q & -> & ->)].
      * exists q. split; [right; exact Hin|reflexivity].
      * exists q. split; [left|reflexivity].
    + intros (q & Hin & ->). apply elem_of_cons in Hin as [Heq|Hin].
      * right. exists q. auto.
      * left. exists q. auto.
Qed.

Lemma foldl_pauseTrack (l : list nat) :
  NoDup l ->
  forall w,
    let w' := foldl pauseTrack w l in
    clock w' = clock w /\
    (forall h tm, timers w' !! h = Some tm ->
       timers w !! h = Some tm /\
       forall id, id ∈ l -> volumeMeterInterval (getTrack id w) <> Some h) /\
    (forall id, id ∉ l -> getTrack id w' = getTrack id w) /\
    (forall id, id ∈ l -> quiet (getTrack id w')) /\
    exists new, audioLog w' = new ++ audioLog w /\
      forall c, c ∈ new <->
        exists id ss stem st q,
          id ∈ l /\ stems (getTrack id w) = Some ss /\
          ss !! stem = Some st /\ s_player st = Some q /\
          c = Stop q (releaseTime w).
Proof.
  induction 1 as [|id l Hnin Hnd IH]; intros w; cbn [foldl].
  - split; [reflexivity|]. split.
    { intros h tm Hh. split; [exact Hh|]. intros id Hin. inversion Hin. }
    split; [reflexivity|]. split.
    { intros id Hin. inversion Hin. }
    exists []. split; [reflexivity|]. intros c. split.
    + intros Hin. inversion Hin.
    + intros (id & _ & _ & _ & _ & Hin & _). inversion Hin.
  - destruct (pauseTrack_spec w id)
      as (Hclk1 & Htm1 & Hother1 & Hquiet1 & new1 & Hlog1 & Hnew1).
    set (w1 := pauseTrack w id) in *.
    destruct (IH w1) as (Hclk & Htm & Hother & Hquiet & new & Hlog & Hnew).
    split; [congruence|]. split.
    { intros h tm Hh. destruct (Htm h tm Hh) as [Hh1 Hnot].
      rewrite Htm1 in Hh1.
      destruct (volumeMeterInterval (getTrack id w)) as [h0|] eqn:Hh0.
      - apply lookup_delete_Some in Hh1 as [Hne Hh1]. split; [exact Hh1|].
        intros id' Hin. apply elem_of_cons in Hin as [->|Hin].
        + rewrite Hh0. congruence.
        + rewrite <- (Hother1 id') by (intros ->; contradiction).
          apply Hnot. exact Hin.
      - split; [exact Hh1|].
        intros id' Hin. apply elem_of_cons in Hin as [->|Hin].
        + rewrite Hh0. discriminate.
        + rewrite <- (Hother1 id') by (intros ->; contradiction).
          apply Hnot. exact Hin. }
    split.
    { intros id' Hnin'. rewrite Hother.
      - apply Hother1. intros ->. apply Hnin'. left.
      - intros Hin. apply Hnin'. right. exact Hin. }
    split.
    { intros id' Hin. apply elem_of_cons in Hin as [->|Hin].
      - rewrite Hother by exact Hnin. exact Hquiet1.
      - apply Hquiet. exact Hin. }
    exists (new ++ new1). split.
    { rewrite Hlog, Hlog1, app_assoc. reflexivity. }
    assert (Hrt : releaseTime w1 = releaseTime w).
    { unfold releaseTime. rewrite Hclk1. reflexivity. }
    intros c. rewrite elem_of_app, Hnew, Hnew1, Hrt. split.
    + intros [(id' & ss & stem & st & q & Hin & Hss & Hst & Hp & ->)
             |(ss & stem & st & q & Hss & Hst & Hp & ->)].
      * exists id', ss, stem, st, q. split; [right; exact Hin|].
        rewrite <- (Hother1 id') by (intros ->; contradiction). auto.
      * exists id, ss, stem, st, q. split; [left|auto].
    + intros (id' & ss & stem & st & q & Hin & Hss & Hst & Hp & ->).
      apply elem_of_cons in Hin as [->|Hin].
      * right. exists ss, stem, st, q. auto.
      * left. exists id', ss, stem, st, q. split; [exact Hin|].
        rewrite (Hother1 id') by (intros ->; contradiction). auto.
Qed.

(** [pause] on an explicit list of players and track ids. *)
Lemma pause_general (players : list (option nat)) (l : list nat) w :
  NoDup l ->
  let w' := foldl pauseTrack (foldl stopPlayer w players) l in
  (forall id, id ∈ l ->
     quiet (getTrack id w') /\
     (forall h, volumeMeterInterval (getTrack id w) = Some h ->
                timers w' !! h = None) /\
     (timersTracked w ->
      forall h tm, timers w' !! h = Some tm -> owner tm <> id)) /\
  exists new, audioLog w' = new ++ audioLog w /\
    (forall c, c ∈ new -> exists q, c = Stop q (clock w + (1 # 10))) /\
    (forall q, Some q ∈ players -> Stop q (clock w + (1 # 10)) ∈ new) /\
    (forall id ss stem st q,
       id ∈ l -> stems (getTrack id w) = Some ss -> ss !! stem = Some st ->
       s_player st = Some q -> Stop q (clock w + (1 # 10)) ∈ new).
Proof.
  intros Hnd. cbv zeta.
  destruct (foldl_stopPlayer players w) as (Hframe0 & new0 & Hlog0 & Hnew0).
  set (w0 := foldl stopPlayer w players) in *.
  destruct (foldl_pauseTrack l Hnd w0)
    as (Hclk & Htm & Hother & Hquiet & new & Hlog & Hnew).
  destruct Hframe0 as (Hst0 & _ & Hclk0 & _ & _ & Htm0 & _).
  assert (Hrt : releaseTime w0 = clock w + (1 # 10)).
  { unfold releaseTime. rewrite Hclk0. reflexivity. }
  split.
  - intros id Hin. split; [apply Hquiet; exact Hin|]. split.
    { intros h Hrec. destruct (timers _ !! h) as [tm|] eqn:Hh; [|reflexivity].
      destruct (Htm h tm Hh) as [_ Hnot]. exfalso. apply (Hnot id Hin).
      rewrite (getTrack_ext id w w0 Hst0). exact Hrec. }
    intros Htracked h tm Hh Hown.
    destruct (Htm h tm Hh) as [Hh0 Hnot].
    rewrite Htm0 in Hh0. specialize (Htracked h tm Hh0). simpl in Htracked.
    apply (Hnot id Hin). rewrite (getTrack_ext id w w0 Hst0).
    rewrite <- Hown. exact Htracked.
  - exists (new ++ new0). split.
    { rewrite Hlog, Hlog0, app_assoc. reflexivity. }
    split; [|split].
    + intros c Hc. apply elem_of_app in Hc as [Hc|Hc].
      * apply Hnew in Hc as (_ & _ & _ & _ & q & _ & _ & _ & _ & ->).
        exists q. rewrite Hrt. reflexivity.
      * apply Hnew0 in Hc as (q & _ & ->). exists q. reflexivity.
    + intros q Hq. apply elem_of_app. right. apply Hnew0. exists q. auto.
    + intros id ss stem st q Hin Hss Hst Hp. apply elem_of_app. left.
      apply Hnew. exists id, ss, stem, st, q. rewrite Hrt.
      rewrite (getTrack_ext id w w0 Hst0). auto.
Qed.

Lemma pauseTrack_preserves {A} (proj : TrackSt num -> A) w id id' :
  pauseInsensitive proj ->
  proj (getTrack id' (pauseTrack w id)) = proj (getTrack id' w).
Proof.
  intros ([Hp1 Hp2] & Hp3 & Hp4).
  destruct (decide (id' = id)) as [->|Hne].
  2:{ destruct (pauseTrack_spec w id) as (_ & _ & Hother & _).
      rewrite Hother by exact Hne. reflexivity. }
  unfold pauseTrack. rewrite !getTrack_setTrack, !decide_True by reflexivity.
  rewrite Hp1, Hp2, Hp3.
  match goal with |- context [clearVolumeMeter id ?w1] =>
    destruct (clearVolumeMeter_frame id w1) as (Hst & _);
    rewrite (getTrack_ext id w1 _ Hst)
  end.
  destruct (stems (getTrack id w)) as [ss|] eqn:Hss; [|reflexivity].
  destruct (foldl_pauseStem id (map_to_list ss) w ss Hss)
    as (_ & _ & _ & (m' & Hget & _) & _).
  rewrite Hget, Hp4. reflexivity.
Qed.

Lemma pause_preserves {A} (proj : TrackSt num -> A) trackId w id :
  pauseInsensitive proj ->
  proj (getTrack id (pause trackId w)) = proj (getTrack id w).
Proof.
  intros Hproj. unfold pause.
  assert (Hfold : forall l w0,
            proj (getTrack id (foldl pauseTrack w0 l)) = proj (getTrack id w0)).
  { induction l as [|i l IH]; intros w0; cbn [foldl]; [reflexivity|].
    rewrite IH. apply pauseTrack_preserves. exact Hproj. }
  destruct (idGiven trackId); rewrite Hfold;
    match goal with |- context [foldl stopPlayer w ?ps] =>
      destruct (foldl_stopPlayer ps w) as ((Hst & _) & _);
      rewrite (getTrack_ext id w _ Hst); reflexivity
    end.
Qed.




Lemma playTrack_tracked cst trackId w id t :
  timersTracked w -> timersTracked (playTrack cst trackId w (id, t)).
Proof.
  intros Htracked. unfold playTrack.
  destruct (skipped trackId id t); [exact Htracked|].
  destruct (clearVolumeMeter_frame id w) as (Hst & _).
  pose proof (clearVolumeMeter_timers id w) as Htm.
  assert (Hclean : forall h tm, timers (clearVolumeMeter id w) !! h = Some tm ->
            owner tm <> id /\
            volumeMeterInterval (getTrack (owner tm) w) = Some h).
  { intros h tm Hh. rewrite Htm in Hh.
    assert (Hold : timers w !! h = Some tm /\
                   volumeMeterInterval (getTrack id w) <> Some h).
    { destruct (volumeMeterInterval (getTrack id w)) as [h0|].
      - apply lookup_delete_Some in Hh as [Hne Hh].
        split; [exact Hh|congruence].
      - split; [exact Hh|discriminate]. }
    destruct Hold as [Hh0 Hne]. specialize (Htracked h tm Hh0). simpl in *.
    split; [|exact Htracked]. intros Heq. rewrite Heq in Htracked.
    contradiction. }
  set (w1 := await (clearVolumeMeter id w)).
  assert (Hst1 : audioState w1 = audioState w) by exact Hst.
  assert (Htm1 : timers w1 = timers (clearVolumeMeter id w)) by reflexivity.
  clearbody w1.
  set (adjusted := trackPrefs w1 !! id ≫= adjustedBpm).
  set (bw := if truthy adjusted then (dbBpm w1 !! id, await w1)
             else (None, w1)).
  assert (Hbw : audioState bw.2 = audioState w /\
                timers bw.2 = timers (clearVolumeMeter id w)).
  { unfold bw. destruct (truthy adjusted); simpl; auto. }
  destruct bw as [bpm w2]. simpl in Hbw. destruct Hbw as (Hst2 & Htm2).
  set (rate := match adjusted, bpm with
               | Some a, Some b =>
                   if truthy adjusted && truthy bpm then Some (a / b) else None
               | _, _ => None
               end).
  clearbody rate.
  assert (Hfinal : forall (mw : list Stem * World num),
    audioState mw.2 = audioState w ->
    timers mw.2 = timers (clearVolumeMeter id w) ->
    timersTracked
      (let '(meters, w) := mw in
       let '(newInterval, w) :=
         setInterval {| owner := id; meters := meters;
                        contextStartTime := cst; startOffset := time t |} w in
       let w := setTrack id (with_volumeMeterInterval (Some newInterval)) w in
       setTrack id (with_playing (Some true)) w)).
  { intros [ms w3] Hst3 Htm3. simpl in *. intros h tm Hh. simpl in Hh |- *.
    rewrite !getTrack_setTrack.
    destruct (decide (h = nextTimer w3)) as [->|Hne].
    - rewrite lookup_insert_eq in Hh. inversion Hh; subst tm. simpl.
      rewrite !decide_True by reflexivity. reflexivity.
    - rewrite lookup_insert_ne in Hh by congruence. rewrite Htm3 in Hh.
      destruct (Hclean h tm Hh) as [Hown Hrec].
      rewrite !decide_False by congruence.
      unfold getTrack in *. simpl. rewrite Hst3. exact Hrec. }
  destruct (stems (getTrack id w2)) as [ss|].
  - destruct (foldl_startStem cst (time t) rate (map_to_list ss) [] w2)
      as ((Hfa & _ & _ & _ & _ & Hft & _) & _).
    apply Hfinal; [rewrite Hfa; exact Hst2|rewrite Hft; exact Htm2].
  - apply (Hfinal ([], _)).
    + destruct (player t); exact Hst2.
    + destruct (player t); exact Htm2.
Qed.

Lemma play_tracked trackId w : timersTracked w -> timersTracked (play trackId w).
Proof.
  intros Htracked. unfold play.
  change (now (await w)).1 with (clock (await w)).
  set (w0 := (now (await w)).2).
  assert (H0 : timersTracked w0) by exact Htracked.
  change (now (await w)) with (clock (await w), w0). cbv iota beta.
  generalize (entries (audioState w0)). clearbody w0.
  intros l. revert w0 H0.
  induction l as [|[id t] l IH]; intros w0 H0; cbn [foldl]; [exact H0|].
  apply IH, playTrack_tracked, H0.
Qed.

(** What [pause] achieves.  Every affected track has its meter and each of
    its stem meters at zero, is marked as not playing, and the timer it had
    on record is no longer live; where the live timers are the ones on
    record, which [play] and [pause] maintain, no metering timer of an
    affected track is left.  Every command the call issues is a stop
    scheduled 0.1 s after the current audio time, and each player of an
    affected track, its own and those of its stems, receives one.  Without
    a track id the affected tracks are all loaded tracks. *)
Theorem pause_silences_meters_and_timer (trackId : option nat) w :
  timersTracked w ->
  let w' := pause trackId w in
  (forall id, affected trackId w id ->
     quiet (getTrack id w') /\
     (forall h, volumeMeterInterval (getTrack id w) = Some h ->
                timers w' !! h = None) /\
     forall h tm, timers w' !! h = Some tm -> owner tm <> id) /\
  exists stopped,
    audioLog w' = stopped ++ audioLog w /\
    (forall c, c ∈ stopped -> exists q, c = Stop q (clock w + (1 # 10))) /\
    forall id q,
      affected trackId w id -> ownsPlayer (getTrack id w) q ->
      Stop q (clock w + (1 # 10)) ∈ stopped.
Proof.
  intros Htracked. cbv zeta. unfold pause, affected.
  destruct (idGiven trackId) as [wanted|].
  - destruct (pause_general [player (getTrack wanted w)] [wanted] w)
      as (Hstate & stopped & Hlog & Hall & Hplayers & Hstems).
    { apply NoDup_singleton. }
    split.
    + intros id ->. destruct (Hstate wanted) as (Hq & Hrec & Ht); [left|].
      split; [exact Hq|]. split; [exact Hrec|apply Ht; exact Htracked].
    + exists stopped. split; [exact Hlog|]. split; [exact Hall|].
      intros id q -> [Hp|(ss & stem & st & Hss & Hst & Hp)].
      * apply Hplayers. rewrite <- Hp. left.
      * apply (Hstems wanted ss stem st q); auto. left.
  - destruct (pause_general (_getAllPlayers w) (map fst (entries (audioState w))) w)
      as (Hstate & stopped & Hlog & Hall & Hplayers & Hstems).
    { apply NoDup_entries. }
    assert (Hin : forall id, is_Some (audioState w !! id) ->
                  id ∈ map fst (entries (audioState w))).
    { intros id [t Ht]. apply list_elem_of_fmap. exists (id, t).
      split; [reflexivity|]. apply elem_of_entries. exact Ht. }
    split.
    + intros id Hid. destruct (Hstate id (Hin id Hid)) as (Hq & Hrec & Ht).
      split; [exact Hq|]. split; [exact Hrec|apply Ht; exact Htracked].
    + exists stopped. split; [exact Hlog|]. split; [exact Hall|].
      intros id q Hid [Hp|(ss & stem & st & Hss & Hst & Hp)].
      * apply Hplayers. unfold _getAllPlayers.
        apply list_elem_of_fmap. exists q. split; [reflexivity|].
        apply list_elem_of_omap. destruct Hid as [t Ht].
        exists (id, t). split; [apply elem_of_entries; exact Ht|].
        simpl. unfold getTrack in Hp. rewrite Ht in Hp. exact Hp.
      * apply (Hstems id ss stem st q); auto.
Qed.

End PauseFacts.

Section TransportExamples.
Import Engine.

(** While the two sample tracks play the clock has moved past the value
    their players were started from. *)
Example play_sample_clock :
  Qred (clock playing0) = 503 # 100 /\
  audioLog playing0
  = [Start 10 (501 # 100) (Some 0); ConnectMeter 10;
     Start 11 (501 # 100) (Some 0); ConnectMeter 11;
     Start 13 (501 # 100) (Some 0); ConnectMeter 13;
     Start 12 (501 # 100) (Some 0); ConnectMeter 12;
     Start 1 (501 # 100) (Some (3 # 10))].
Proof. vm_compute. split; reflexivity. Qed.

(** Pausing the playing session silences the track with stems. *)
Lemma pause_silences_meters_and_timer_witness :
  quiet (getTrack 2 (pause None playing0)) /\
  forall h tm, timers (pause None playing0) !! h = Some tm -> owner tm <> 2%nat.
Proof.
  assert (Htracked : timersTracked playing0).
  { apply play_tracked. intros h tm Hh. simpl in Hh.
    rewrite lookup_empty in Hh. discriminate. }
  destruct (pause_silences_meters_and_timer None playing0 Htracked)
    as [Hstate _].
  destruct (Hstate 2%nat) as (Hquiet & _ & Htimers).
  - unfold affected. simpl. vm_compute. eauto.
  - split; [exact Hquiet|exact Htimers].
Defined.

(** C6.  [destroy] removes the state of a playing track without clearing
    the metering timer that [play] started for it.  When the track is loaded
    again and played, a second timer samples it, and [pause] clears only
    that one, the timer on record: the track's meters are at zero and it is
    marked as not playing, yet its first timer is still live. *)
Theorem pause_after_destroy_keeps_timer :
  let played := play (Some 1%nat) world0 in
  let destroyed := destroy 1 played in
  let reloaded := setTrack 1 (fun _ => plainTrack) destroyed in
  let replayed := play (Some 1%nat) reloaded in
  let paused := pause (Some 1%nat) replayed in
  (volumeMeterInterval (getTrack 1 played) = Some 1%Z /\
   owner <$> timers played !! 1%Z = Some 1%nat) /\
  (audioState destroyed !! 1%nat = None /\
   timers destroyed = timers played /\
   ~ timersTracked destroyed) /\
  (volumeMeterInterval (getTrack 1 replayed) = Some 2%Z /\
   owner <$> timers replayed !! 1%Z = Some 1%nat /\
   owner <$> timers replayed !! 2%Z = Some 1%nat) /\
  (quiet (getTrack 1 paused) /\
   timers paused !! 2%Z = None /\
   owner <$> timers paused !! 1%Z = Some 1%nat).
Proof.
  cbv zeta. split; [|split; [|split]].
  - split; vm_compute; reflexivity.
  - split; [vm_compute; reflexivity|]. split; [vm_compute; reflexivity|].
    intros Htracked.
    specialize (Htracked 1%Z {| owner := 1; meters := [];
                                 contextStartTime := 501 # 100;
                                 startOffset := Some (3 # 10) |}).
    assert (Hlive : timers (destroy 1 (play (Some 1%nat) world0)) !! 1%Z
                    = Some {| owner := 1; meters := [];
                              contextStartTime := 501 # 100;
                              startOffset := Some (3 # 10) |})
      by (vm_compute; reflexivity).
    specialize (Htracked Hlive). vm_compute in Htracked. discriminate.
  - repeat split; vm_compute; reflexivity.
  - split; [|split; vm_compute; reflexivity].
    repeat split; try (vm_compute; reflexivity).
    intros ss stem st Hss. vm_compute in Hss. discriminate.
Qed.

End TransportExamples.

(** ** Facts about seeking *)

Section SeekFacts.
Import Engine.
Context {num : Type} `{JsNumber num}.

Lemma round_nearest x :
  x - (1 # 2) < inject_Z (Qfloor (x + (1 # 2))) /\
  inject_Z (Qfloor (x + (1 # 2))) <= x + (1 # 2).
Proof.
  split.
  - pose proof (Qlt_floor (x + (1 # 2))) as Hlt.
    rewrite inject_Z_plus in Hlt. change (inject_Z 1) with 1 in Hlt. lra.
  - apply Qfloor_le.
Qed.

Lemma floor_below x :
  inject_Z (Qfloor x) <= x /\ x < inject_Z (Qfloor x) + 1.
Proof.
  split; [apply Qfloor_le|].
  pose proof (Qlt_floor x) as Hlt.
  rewrite inject_Z_plus in Hlt. exact Hlt.
Qed.

(** A quotient by zero is not a finite number. *)
Lemma quotient64_zero a b : b == 0 -> quotient64 a b = None.
Proof.
  intros Hb. unfold quotient64.
  assert (Hnum : Qnum b = 0%Z).
  { unfold Qeq in Hb. simpl in Hb. lia. }
  assert (Hzero : Q2double b = 0%float).
  { unfold Q2double. rewrite Hnum. reflexivity. }
  rewrite Hzero. unfold double2Q. rewrite div_spec.
  change (Prim2SF 0) with (S754_zero false).
  unfold SF64div. destruct (Prim2SF (Q2double a)); reflexivity.
Qed.

Lemma truthy_zero tm : truthy (Some tm) = false <-> tm == 0.
Proof.
  unfold truthy. rewrite negb_false_iff. apply Qeq_bool_iff.
Qed.

Lemma playhead_pauseInsensitive : pauseInsensitive (@playhead num).
Proof. repeat split. Qed.

Lemma stays_guard startTime target :
  stays startTime target <->
  match target with
  | Some tm => truthy target && beyond5ms tm startTime = false
  | None => True
  end.
Proof.
  unfold stays. destruct target as [tm|]; [|split; [auto|discriminate]].
  rewrite andb_false_iff, truthy_zero. split.
  - intros Hstay. apply Hstay. reflexivity.
  - intros Hstay tm' [= <-]. exact Hstay.
Qed.

(** C3 (amended).  A seek divides the start time by [skipLength] in double
    arithmetic and takes of that quotient the nearest integer in
    [seekEvent] and the integer below in [audioEvents.seek], then steps by
    one for next and previous; a quotient that is not a finite number
    resolves no marker.  The playhead is left where it is exactly when no
    marker lies at that index, when the marker is at time zero, and when the
    5 ms test, made on doubles between the marker and the seek's own start
    time, finds them no farther apart; [audioEvents.seek] then leaves a
    track that is not playing untouched altogether.  In every other case
    the playhead is put on the marker.  The test passes a marker 2 ms from
    the start time and stops one 6 ms from it. *)
Theorem seek_index_and_5ms_guard :
  (forall wf time direction,
     let startTime := default (currentTime wf) time in
     match quotient64 startTime (skipLength wf) with
     | Some q =>
         let n := Qfloor (q + (1 # 2)) in
         Dispatcher.seekEventTarget wf time direction
           = (startTime,
              markerAt (markers wf) (Some (n + directionStep direction)%Z)) /\
         q - (1 # 2) < inject_Z n /\ inject_Z n <= q + (1 # 2)
     | None =>
         Dispatcher.seekEventTarget wf time direction = (startTime, None)
     end) /\
  (forall wf time direction,
     let startTime := js_or_lit time (currentTime wf) in
     match quotient64 startTime (skipLength wf) with
     | Some q =>
         let n := Qfloor q in
         seekTarget wf time direction
           = (startTime,
              markerAt (markers wf) (Some (n + directionStep direction)%Z)) /\
         inject_Z n <= q /\ q < inject_Z n + 1
     | None => seekTarget wf time direction = (startTime, None)
     end) /\
  (forall wf time direction startTime target,
     Dispatcher.seekEventTarget wf time direction = (startTime, target) ->
     (Dispatcher.seekEvent wf time direction = None <->
      stays startTime target)) /\
  (forall (w : World num) id time direction wf startTime target,
     waveform (getTrack id w) = Some wf ->
     seekTarget wf time direction = (startTime, target) ->
     let w' := seek id time direction w in
     (stays startTime target ->
      playhead (getTrack id w') = playhead (getTrack id w) /\
      (playing (getTrack id w) <> Some true -> w' = w)) /\
     (forall tm,
        target = Some tm -> ~ stays startTime target ->
        playhead (getTrack id w') = (Some (setPlayheadTime tm wf), Some tm))) /\
  (beyond5ms (7 # 10) (702 # 1000) = false /\
   beyond5ms (7 # 10) (698 # 1000) = false /\
   beyond5ms (7 # 10) (706 # 1000) = true /\
   beyond5ms (7 # 10) (694 # 1000) = true).
Proof.
  split; [|split; [|split; [|split]]].
  - intros wf time direction. cbv zeta.
    unfold Dispatcher.seekEventTarget, Dispatcher.roundIndex.
    destruct (quotient64 _ _) as [q|]; [|reflexivity].
    split; [reflexivity|]. apply round_nearest.
  - intros wf time direction. cbv zeta.
    unfold seekTarget, floorIndex.
    destruct (quotient64 _ _) as [q|]; [|reflexivity].
    split; [reflexivity|]. apply floor_below.
  - intros wf time direction startTime target Htarget.
    unfold Dispatcher.seekEvent. rewrite Htarget, stays_guard.
    destruct target as [tm|]; [|split; reflexivity].
    destruct (truthy (Some tm) && beyond5ms tm startTime);
      [destruct direction|]; split; (reflexivity || discriminate).
  - intros w id time direction wf startTime target Hwf Htarget. cbv zeta.
    unfold seek. rewrite Hwf, Htarget.
    assert (Hpause : playhead (getTrack id (await (pause (Some id) w)))
                     = playhead (getTrack id w)).
    { rewrite (getTrack_ext id (pause (Some id) w) (await _)) by reflexivity.
      apply (pause_preserves playhead), playhead_pauseInsensitive. }
    split.
    + intros Hstay. apply stays_guard in Hstay.
      assert (Hskip : match target with
                      | Some tm =>
                          if truthy target && beyond5ms tm startTime
                          then
                            setTrack id (with_time (Some tm))
                              (setTrack id
                                 (with_waveform (Some (setPlayheadTime tm wf)))
                                 (if bool_decide
                                       (playing (getTrack id w) = Some true)
                                  then await (pause (Some id) w) else w))
                          else
                            if bool_decide (playing (getTrack id w) = Some true)
                            then await (pause (Some id) w) else w
                      | None =>
                          if bool_decide (playing (getTrack id w) = Some true)
                          then await (pause (Some id) w) else w
                      end
                      = if bool_decide (playing (getTrack id w) = Some true)
                        then await (pause (Some id) w) else w).
      { destruct target as [tm|]; [|reflexivity]. rewrite Hstay. reflexivity. }
      rewrite Hskip.
      destruct (bool_decide (playing (getTrack id w) = Some true))
        eqn:Hplaying.
      * split.
        -- rewrite (play_preserves playhead);
             [exact Hpause|apply playhead_pauseInsensitive].
        -- intros Hnot. apply bool_decide_eq_true in Hplaying. contradiction.
      * split; reflexivity.
    + intros tm -> Hmove.
      assert (Hguard : truthy (Some tm) && beyond5ms tm startTime = true).
      { destruct (truthy (Some tm) && beyond5ms tm startTime) eqn:Hg;
          [reflexivity|].
        exfalso. apply Hmove, stays_guard. exact Hg. }
      rewrite Hguard.
      destruct (bool_decide (playing (getTrack id w) = Some true)).
      * rewrite (play_preserves playhead);
          [|apply playhead_pauseInsensitive].
        rewrite !getTrack_setTrack, !decide_True by reflexivity. reflexivity.
      * rewrite !getTrack_setTrack, !decide_True by reflexivity. reflexivity.
  - vm_compute. repeat split; reflexivity.
Qed.

End SeekFacts.

Section SeekExamples.
Import Engine.

(** The guard at work: 0.702 s resolves to the marker at 0.7 s. *)
Lemma seek_index_and_5ms_guard_witness :
  Dispatcher.seekEvent wf1 (Some (702 # 1000)) None = None /\
  seek 1 (Some (702 # 1000)) None world0 = world0.
Proof.
  destruct (seek_index_and_5ms_guard (num := Q)) as (_ & _ & Hevent & Hseek & _).
  assert (Hstay : stays (702 # 1000) (Some (7 # 10))).
  { intros tm [= <-]. right. vm_compute. reflexivity. }
  split.
  - apply (Hevent wf1 (Some (702 # 1000)) None (702 # 1000) (Some (7 # 10)));
      [vm_compute; reflexivity|exact Hstay].
  - apply (Hseek world0 1%nat (Some (702 # 1000)) None wf1 (702 # 1000)
             (Some (7 # 10))).
    + reflexivity.
    + vm_compute. reflexivity.
    + exact Hstay.
    + discriminate.
Defined.

(** Two seeks whose times differ by 2 ms both move the playhead, the second
    to another marker; [audioEvents.seek] resolves 0.9 s to the marker
    below it, not the nearest; and the index is taken from the quotient of
    the doubles, which for 0.35 s at a skip length of 0.1 s is just below
    3.5 and rounds to 3, where the quotient of the decimals rounds to 4. *)
Lemma seek_twice_within_5ms_moves_again :
  Dispatcher.seekEvent wf1 (Some (749 # 1000)) None
    = Some (Dispatcher.SetPlayheadTime (7 # 10)) /\
  Dispatcher.seekEvent wf1 (Some (751 # 1000)) None
    = Some (Dispatcher.SetPlayheadTime (6 # 5)) /\
  (let first := seek 1 (Some (999 # 1000)) None world0 in
   let second := seek 1 (Some (1001 # 1000)) None first in
   playheadTime <$> waveform (getTrack 1 first) = Some (7 # 10) /\
   playheadTime <$> waveform (getTrack 1 second) = Some (6 # 5)) /\
  seekTarget wf1 (Some (9 # 10)) None = (9 # 10, Some (7 # 10)) /\
  Dispatcher.seekEventTarget wf1 (Some (9 # 10)) None
    = (9 # 10, Some (6 # 5)) /\
  Dispatcher.roundIndex (35 # 100) (1 # 10) = Some 3%Z /\
  Qfloor ((35 # 100) / (1 # 10) + (1 # 2)) = 4%Z.
Proof. vm_compute. repeat split; reflexivity. Qed.

End SeekExamples.

(** ** Facts about the volume controls *)

Section VolumeFacts.
Import Engine.
Context {num : Type} `{JsNumber num}.
Implicit Types (w : World num) (id : nat).

Lemma passes_guard stemType stem :
  bool_decide (is_Some stemType ∧ stemType ≠ Some stem)
  = negb (bool_decide (passes stemType stem)).
Proof.
  unfold passes. destruct stemType as [s|].
  - destruct (decide (s = stem)) as [->|Hne].
    + rewrite bool_decide_eq_false_2 by (intros [_ Hn]; congruence).
      rewrite bool_decide_eq_true_2 by auto. reflexivity.
    + rewrite bool_decide_eq_true_2 by (split; [eauto|congruence]).
      rewrite bool_decide_eq_false_2; [reflexivity|].
      intros [Hn|Hs]; congruence.
  - rewrite bool_decide_eq_false_2 by (intros [[? Hn] _]; discriminate).
    rewrite bool_decide_eq_true_2 by auto. reflexivity.
Qed.

Lemma getTrack_now id w : getTrack id (now w).2 = getTrack id w.
Proof. reflexivity. Qed.

(** A volume that is [undefined] leaves the state on record alone. *)
Lemma updateVolumeUndefined_state id stemType w :
  audioState (updateVolumeUndefined id stemType w) = audioState w.
Proof.
  unfold updateVolumeUndefined.
  destruct (stems (getTrack id w)) as [ss|].
  - generalize (map_to_list ss). intros l. revert w.
    induction l as [|[stem st] l IH]; intros w; cbn [foldl]; [reflexivity|].
    rewrite IH. unfold updateStemUndefined.
    destruct (bool_decide _); [reflexivity|].
    destruct (bool_decide _); reflexivity.
  - destruct (gainNode (getTrack id w)); reflexivity.
Qed.

Lemma setStemGain_spec id stem volume w m :
  stems (getTrack id w) = Some m ->
  getTrack id (setStemGain id stem volume w)
    = with_stems
        (Some (<[stem := setGain volume (default emptyStem (m !! stem))]> m))
        (getTrack id w) /\
  forall id', id' <> id ->
    getTrack id' (setStemGain id stem volume w) = getTrack id' w.
Proof.
  intros Hm.
  change (setStemGain id stem volume w)
    with (setStem id stem (with_s_gainNode (Some volume)) (now w).2).
  unfold setStem. split.
  - rewrite getTrack_setTrack, decide_True by reflexivity.
    rewrite getTrack_now, Hm. reflexivity.
  - intros id' Hne. rewrite getTrack_setTrack, decide_False by congruence.
    reflexivity.
Qed.

Lemma touched_cons stemType stem st (l : list (Stem * StemSt num)) k :
  touched stemType ((stem, st) :: l) k <->
  (stem = k /\ passes stemType stem /\ is_Some (s_gainNode st))
  \/ touched stemType l k.
Proof. unfold touched. rewrite Exists_cons. reflexivity. Qed.

Lemma touched_map_to_list stemType (m : gmap Stem (StemSt num)) k :
  touched stemType (map_to_list m) k <->
  exists st, m !! k = Some st /\ passes stemType k /\ is_Some (s_gainNode st).
Proof.
  unfold touched. rewrite Exists_exists. split.
  - intros ([k' st] & Hin & Hk & Hp & Hg). simpl in *. subst k'.
    exists st. split; [apply elem_of_map_to_list; exact Hin|auto].
  - intros (st & Hin & Hp & Hg). exists (k, st).
    split; [apply elem_of_map_to_list; exact Hin|auto].
Qed.

Lemma foldl_updateStemVolume id volume stemType
    (l : list (Stem * StemSt num)) :
  forall w m,
    stems (getTrack id w) = Some m ->
    let w' := foldl (updateStemVolume id volume stemType) w l in
    (forall id', id' <> id -> getTrack id' w' = getTrack id' w) /\
    exists m',
      getTrack id w' = with_stems (Some m') (getTrack id w) /\
      forall k,
        (touched stemType l k ->
         m' !! k = Some (setGain volume (default emptyStem (m !! k)))) /\
        (~ touched stemType l k -> m' !! k = m !! k).
Proof.
  induction l as [|[stem st] l IH]; intros w m Hm; cbn [foldl]; cbv zeta.
  - split; [reflexivity|]. exists m. split.
    + destruct (getTrack id w); simpl in *. subst. reflexivity.
    + intros k. split; [|reflexivity].
      intros Ht. inversion Ht.
  - assert (Hstep : updateStemVolume id volume stemType w (stem, st)
                    = if decide (passes stemType stem
                                 /\ is_Some (s_gainNode st))
                      then setStemGain id stem volume w else w).
    { unfold updateStemVolume. rewrite passes_guard.
      destruct (decide (passes stemType stem /\ is_Some (s_gainNode st)))
        as [[Hpass Hgain]|Hskip].
      - rewrite (bool_decide_eq_true_2 _ Hpass). cbn [negb].
        rewrite (bool_decide_eq_true_2 _ Hgain). reflexivity.
      - destruct (bool_decide (passes stemType stem)) eqn:Hp; [|reflexivity].
        destruct (bool_decide (is_Some (s_gainNode st))) eqn:Hg;
          [|reflexivity].
        apply bool_decide_eq_true in Hp, Hg. exfalso. auto. }
    rewrite Hstep. clear Hstep.
    destruct (decide (passes stemType stem /\ is_Some (s_gainNode st)))
      as [[Hpass Hgain]|Hskip].
    + destruct (setStemGain_spec id stem volume w m Hm) as [Hget1 Hother1].
      set (w1 := setStemGain id stem volume w) in *.
      set (m1 := <[stem := setGain volume (default emptyStem (m !! stem))]> m)
        in *.
      destruct (IH w1 m1) as (Hother & m' & Hget & Hlook).
      { rewrite Hget1. reflexivity. }
      split.
      { intros id' Hne. rewrite Hother by exact Hne. apply Hother1, Hne. }
      exists m'. split; [rewrite Hget, Hget1; reflexivity|].
      intros k. destruct (Hlook k) as [Hyes Hno].
      rewrite touched_cons. split.
      * intros Htouched.
        destruct (decide (k = stem)) as [->|Hne].
        -- assert (Hm1 : m1 !! stem
                         = Some (setGain volume (default emptyStem (m !! stem))))
             by apply lookup_insert_eq.
           destruct (decide (touched stemType l stem)) as [Ht|Hnt].
           ++ rewrite (Hyes Ht), Hm1. reflexivity.
           ++ rewrite (Hno Hnt). exact Hm1.
        -- destruct Htouched as [[Heq _]|Ht]; [congruence|].
           rewrite (Hyes Ht). unfold m1.
           rewrite lookup_insert_ne by congruence. reflexivity.
      * intros Hnt.
        assert (Hne : k <> stem).
        { intros ->. apply Hnt. left. auto. }
        rewrite Hno by auto.
        unfold m1. rewrite lookup_insert_ne by congruence. reflexivity.
    + destruct (IH w m Hm) as (Hother & m' & Hget & Hlook).
      split; [exact Hother|]. exists m'. split; [exact Hget|].
      intros k. destruct (Hlook k) as [Hyes Hno].
      rewrite touched_cons. split.
      * intros [(_ & Hp & Hg)|Ht]; [exfalso; auto|apply Hyes, Ht].
      * intros Hnt. apply Hno. auto.
Qed.

(** What [updateVolume] leaves in the state of its track. *)
Lemma updateVolume_spec id volume stemType w :
  let w' := updateVolume id volume stemType w in
  (forall id', id' <> id -> getTrack id' w' = getTrack id' w) /\
  match stems (getTrack id w) with
  | None =>
      getTrack id w'
      = if gainNode (getTrack id w) is Some _
        then with_gainNode (Some volume) (getTrack id w)
        else getTrack id w
  | Some ss =>
      exists ss',
        getTrack id w' = with_stems (Some ss') (getTrack id w) /\
        forall k st,
          ss !! k = Some st ->
          ss' !! k
          = Some (if decide (passes stemType k /\ is_Some (s_gainNode st))
                  then setGain volume st else st)
  end.
Proof.
  cbv zeta. unfold updateVolume.
  destruct (stems (getTrack id w)) as [ss|] eqn:Hss.
  - destruct (foldl_updateStemVolume id volume stemType (map_to_list ss) w ss Hss)
      as (Hother & m' & Hget & Hlook).
    split; [exact Hother|]. exists m'. split; [exact Hget|].
    intros k st Hk. destruct (Hlook k) as [Hyes Hno].
    destruct (decide (passes stemType k /\ is_Some (s_gainNode st)))
      as [[Hp Hg]|Hskip].
    + rewrite Hyes, Hk; [reflexivity|].
      apply touched_map_to_list. exists st. auto.
    + rewrite Hno; [exact Hk|].
      rewrite touched_map_to_list. intros (st' & Hk' & Hp & Hg).
      rewrite Hk in Hk'. inversion Hk'; subst. auto.
  - destruct (gainNode (getTrack id w)) eqn:Hg.
    + change (now w) with (clock w, (now w).2). cbv iota beta. split.
      * intros id' Hne. rewrite getTrack_setTrack, decide_False by congruence.
        reflexivity.
      * rewrite getTrack_setTrack, decide_True by reflexivity. reflexivity.
    + split; reflexivity.
Qed.

Lemma getTrack_setStem id stem (f : StemSt num -> StemSt num) w m :
  stems (getTrack id w) = Some m ->
  getTrack id (setStem id stem f w)
    = with_stems (Some (<[stem := f (default emptyStem (m !! stem))]> m))
                 (getTrack id w).
Proof.
  intros Hm. unfold setStem.
  rewrite getTrack_setTrack, decide_True by reflexivity.
  rewrite Hm. reflexivity.
Qed.

Lemma stemMuteToggle_spec id stem mute w m :
  stems (getTrack id w) = Some m ->
  getTrack id (stemMuteToggle id stem mute w)
    = with_stems
        (Some (<[stem := toggled mute (default emptyStem (m !! stem))]> m))
        (getTrack id w).
Proof.
  intros Hm. unfold stemMuteToggle. rewrite Hm.
  destruct (m !! stem) as [st|] eqn:Hst; simpl.
  - destruct (s_gainNode st) eqn:Hg.
    + destruct (setStemGain_spec id stem
                  (if mute then num_zero else volumeOrOne (s_volume st)) w m Hm)
        as [Hget _].
      rewrite (getTrack_setStem id stem _ _ _ ltac:(rewrite Hget; reflexivity)).
      rewrite Hget, Hst. simpl. rewrite lookup_insert_eq, insert_insert_eq.
      unfold toggled, setGain. simpl. rewrite Hg. reflexivity.
    + rewrite (getTrack_setStem id stem _ w m Hm), Hst. simpl.
      unfold toggled. rewrite Hg. reflexivity.
  - rewrite (getTrack_setStem id stem _ w m Hm), Hst. reflexivity.
Qed.

Lemma foldl_soloStep id stem solo (l : list Stem) :
  NoDup l ->
  forall w m,
    stems (getTrack id w) = Some m ->
    exists m',
      stems (getTrack id (foldl (soloStep id stem solo) w l)) = Some m' /\
      forall k,
        m' !! k = if decide (k ∈ l /\ k ≠ stem)
                  then Some (toggled solo (default emptyStem (m !! k)))
                  else m !! k.
Proof.
  induction 1 as [|s l Hnin Hnd IH]; intros w m Hm; cbn [foldl].
  - exists m. split; [exact Hm|]. intros k.
    rewrite decide_False; [reflexivity|]. intros [Hin _]. inversion Hin.
  - unfold soloStep at 2. destruct (decide (s = stem)) as [->|Hne].
    + rewrite bool_decide_eq_false_2 by auto.
      destruct (IH w m Hm) as (m' & Hm' & Hlook).
      exists m'. split; [exact Hm'|]. intros k. rewrite Hlook.
      destruct (decide (k ∈ l /\ k ≠ stem)) as [[Hin Hk]|Hno].
      * rewrite decide_True; [reflexivity|]. split; [right; exact Hin|exact Hk].
      * rewrite decide_False; [reflexivity|].
        intros [Hin Hk]. apply elem_of_cons in Hin as [->|Hin]; auto.
    + rewrite bool_decide_eq_true_2 by exact Hne.
      pose proof (stemMuteToggle_spec id s solo w m Hm) as Hstep.
      set (w1 := stemMuteToggle id s solo w) in *.
      set (m1 := <[s := toggled solo (default emptyStem (m !! s))]> m) in *.
      destruct (IH w1 m1) as (m' & Hm' & Hlook).
      { rewrite Hstep. reflexivity. }
      exists m'. split; [exact Hm'|]. intros k. rewrite Hlook.
      destruct (decide (k = s)) as [->|Hks].
      * rewrite (decide_False (P := s ∈ l /\ s ≠ stem)) by (intros [? _]; auto).
        rewrite decide_True by (split; [left|exact Hne]).
        apply lookup_insert_eq.
      * unfold m1. rewrite lookup_insert_ne by congruence.
        destruct (decide (k ∈ l /\ k ≠ stem)) as [[Hin Hk]|Hno].
        -- rewrite decide_True; [reflexivity|].
           split; [right; exact Hin|exact Hk].
        -- rewrite decide_False; [reflexivity|].
           intros [Hin Hk]. apply elem_of_cons in Hin as [?|Hin]; auto.
Qed.

(** [stemSoloToggle] leaves the chosen stem as it is and toggles every
    other stem of the track. *)
Lemma stemSoloToggle_spec id stem solo w ss :
  stems (getTrack id w) = Some ss ->
  exists ss',
    stems (getTrack id (stemSoloToggle id stem solo w)) = Some ss' /\
    ss' !! stem = ss !! stem /\
    forall k st, k ≠ stem -> ss !! k = Some st ->
                 ss' !! k = Some (toggled solo st).
Proof.
  intros Hss. unfold stemSoloToggle. rewrite Hss.
  destruct (foldl_soloStep id stem solo (map_to_list ss).*1
              (NoDup_fst_map_to_list ss) w ss Hss) as (m' & Hm' & Hlook).
  exists m'. split; [exact Hm'|]. split.
  - rewrite Hlook, decide_False; [reflexivity|]. intros [_ Hne]; auto.
  - intros k st Hk Hst. rewrite Hlook, decide_True, Hst; [reflexivity|].
    split; [|exact Hk]. apply list_elem_of_fmap. exists (k, st).
    split; [reflexivity|]. apply elem_of_map_to_list. exact Hst.
Qed.

(** What the unmuted gain is: the stored volume when it is a non-zero
    number, and 1 both when no volume is stored and when the stored volume
    is zero. *)
Lemma volumeOrOne_cases (volume : option num) :
  volumeOrOne volume
  = match volume with
    | Some v => if num_truthy v then v else num_one
    | None => num_one
    end.
Proof. reflexivity. Qed.

End VolumeFacts.

(** ** Facts about the crossfader *)

Section CrossfadeFacts.
Import Engine.
Implicit Types (w : World R) (id : nat).

Lemma crossfadeVolumes_0 : crossfadeVolumes 0 = [1%R; 0%R].
Proof.
  unfold crossfadeVolumes. cbv zeta.
  replace (0 / 100 * PI)%R with 0%R by lra.
  replace ((1 - 0 / 100) * PI)%R with PI by lra.
  rewrite cos_0, cos_PI.
  rewrite (Rmin_left 1 (1 + 1))%R by lra.
  rewrite (Rmin_right 1 (1 + -1))%R by lra.
  f_equal. f_equal. lra.
Qed.

Lemma crossfadeVolumes_50 : crossfadeVolumes 50 = [1%R; 1%R].
Proof.
  unfold crossfadeVolumes. cbv zeta.
  replace (50 / 100 * PI)%R with (PI / 2)%R by lra.
  replace ((1 - 50 / 100) * PI)%R with (PI / 2)%R by lra.
  rewrite cos_PI2. rewrite Rmin_left by lra. reflexivity.
Qed.

Lemma crossfadeVolumes_100 : crossfadeVolumes 100 = [0%R; 1%R].
Proof.
  unfold crossfadeVolumes. cbv zeta.
  replace (100 / 100 * PI)%R with PI by lra.
  replace ((1 - 100 / 100) * PI)%R with 0%R by lra.
  rewrite cos_0, cos_PI.
  rewrite (Rmin_left 1 (1 + 1))%R by lra.
  rewrite (Rmin_right 1 (1 + -1))%R by lra.
  f_equal. lra.
Qed.

Lemma crossfadeSlot_other volumes stemType w i track id :
  idGiven track <> Some id ->
  getTrack id (crossfadeSlot volumes stemType w (i, track)) = getTrack id w.
Proof.
  intros Hne. unfold crossfadeSlot.
  destruct (idGiven track) as [id'|]; [|reflexivity].
  destruct (volumes !! i) as [g|].
  - destruct (updateVolume_spec id' g stemType w) as [Hother _].
    apply Hother. congruence.
  - apply getTrack_ext, updateVolumeUndefined_state.
Qed.

Lemma foldl_crossfadeSlot_other volumes stemType id
    (l : list (nat * option nat)) :
  (forall i track, (i, track) ∈ l -> idGiven track <> Some id) ->
  forall w,
    getTrack id (foldl (crossfadeSlot volumes stemType) w l) = getTrack id w.
Proof.
  induction l as [|[i track] l IH]; intros Hl w; cbn [foldl]; [reflexivity|].
  rewrite IH.
  - apply crossfadeSlot_other. apply (Hl i). left.
  - intros j tr Hin. apply (Hl j). right. exact Hin.
Qed.

(** The one slot that holds [id] decides what [crossfade] does to it. *)
Lemma foldl_crossfadeSlot_slot volumes stemType id i g
    (l : list (nat * option nat)) :
  NoDup l.*1 ->
  (forall j track, (j, track) ∈ l -> idGiven track = Some id -> j = i) ->
  (exists track, (i, track) ∈ l /\ idGiven track = Some id) ->
  volumes !! i = Some g ->
  forall w,
    exists w0,
      getTrack id w0 = getTrack id w /\
      getTrack id (foldl (crossfadeSlot volumes stemType) w l)
        = getTrack id (updateVolume id g stemType w0).
Proof.
  intros Hnd Huniq Hex Hg.
  induction l as [|[j track] l IH]; intros w; cbn [foldl].
  - destruct Hex as (track & Hin & _). inversion Hin.
  - apply NoDup_cons in Hnd as [Hj Hnd].
    destruct (decide (idGiven track = Some id)) as [Hid|Hnid].
    + assert (j = i) as -> by (apply (Huniq j track); [left|exact Hid]).
      exists w. split; [reflexivity|].
      rewrite foldl_crossfadeSlot_other.
      * unfold crossfadeSlot. rewrite Hid, Hg. reflexivity.
      * intros k tr Hin Hk. apply Hj.
        assert (k = i) as -> by (apply (Huniq k tr); [right; exact Hin|exact Hk]).
        apply list_elem_of_fmap. exists (i, tr). auto.
    + destruct IH with (w := crossfadeSlot volumes stemType w (j, track))
        as (w0 & Hw0 & Hfinal).
      * exact Hnd.
      * intros k tr Hin. apply (Huniq k tr). right. exact Hin.
      * destruct Hex as (tr & Hin & Hid).
        apply elem_of_cons in Hin as [Heq|Hin].
        -- inversion Heq; subst. contradiction.
        -- exists tr. auto.
      * exists w0. split; [|exact Hfinal].
        rewrite Hw0. apply crossfadeSlot_other. exact Hnid.
Qed.

Lemma imap_fst_seq {A} (l : list A) :
  forall (f : nat -> A -> nat * A) n,
    (forall j x, (f j x).1 = (n + j)%nat) ->
    (imap f l).*1 = seq n (length l).
Proof.
  induction l as [|x l IH]; intros f n Hf; [reflexivity|].
  cbn [imap fmap list_fmap length seq]. f_equal.
  - rewrite Hf. lia.
  - apply IH. intros j y. unfold compose. rewrite Hf. lia.
Qed.

Lemma imap_pair_fst {A} (l : list A) : (imap pair l).*1 = seq 0 (length l).
Proof. apply imap_fst_seq. reflexivity. Qed.

Lemma elem_of_imap_pair {A} (l : list A) i x :
  (i, x) ∈ imap pair l <-> l !! i = Some x.
Proof.
  rewrite list_elem_of_lookup. split.
  - intros (k & Hk). rewrite list_lookup_imap in Hk.
    destruct (l !! k) eqn:E; simpl in Hk; inversion Hk; subst. exact E.
  - intros Hi. exists i. rewrite list_lookup_imap, Hi. reflexivity.
Qed.

(** C4.  The crossfader gives slot A the gain [min(1, 1 + cos(p pi))] and
    slot B the gain [min(1, 1 + cos((1 - p) pi))] for [p = v / 100], which is
    (1, 0) at 0, (1, 1) at 50 and (0, 1) at 100; [crossfade] writes the
    gain of a slot to the track's own gain control when the track has no
    stems, and otherwise to the gain control of every stem, or of the one
    stem the filter names. *)
Theorem crossfade_constant_power_gains :
  (forall v,
     crossfadeVolumes v
     = [Rmin 1 (1 + cos (v / 100 * PI));
        Rmin 1 (1 + cos ((1 - v / 100) * PI))]%R) /\
  crossfadeVolumes 0 = [1%R; 0%R] /\
  crossfadeVolumes 50 = [1%R; 1%R] /\
  crossfadeVolumes 100 = [0%R; 1%R] /\
  forall w v stemType tracks i id g,
    mixTracks w = Some tracks ->
    tracks !! i = Some (Some id) -> id <> 0%nat ->
    (forall j, tracks !! j = Some (Some id) -> j = i) ->
    crossfadeVolumes v !! i = Some g ->
    let t := getTrack id w in
    let t' := getTrack id (crossfade v stemType w) in
    match stems t with
    | None =>
        stems t' = None /\
        gainNode t' = if gainNode t is Some _ then Some g else None
    | Some ss =>
        gainNode t' = gainNode t /\
        exists ss',
          stems t' = Some ss' /\
          forall stem st,
            ss !! stem = Some st ->
            exists st',
              ss' !! stem = Some st' /\
              s_gainNode st'
              = if decide (passes stemType stem /\ is_Some (s_gainNode st))
                then Some g else s_gainNode st
    end.
Proof.
  split; [reflexivity|].
  split; [apply crossfadeVolumes_0|].
  split; [apply crossfadeVolumes_50|].
  split; [apply crossfadeVolumes_100|].
  intros w v stemType tracks i id g Hmix Hi Hid Huniq Hg. cbv zeta.
  unfold crossfade. change (mixTracks (await w)) with (mixTracks w).
  rewrite Hmix.
  assert (Hgiven : forall track, idGiven track = Some id -> track = Some id).
  { intros [[|n]|]; simpl; congruence. }
  destruct (foldl_crossfadeSlot_slot (crossfadeVolumes v) stemType id i g
              (imap pair tracks)) with (w := await w)
    as (w0 & Hw0 & Hfinal).
  { rewrite imap_pair_fst. apply NoDup_seq. }
  { intros j track Hin Htrack. apply elem_of_imap_pair in Hin.
    apply Huniq. rewrite Hin, (Hgiven track Htrack). reflexivity. }
  { exists (Some id). split; [apply elem_of_imap_pair; exact Hi|].
    destruct id; [contradiction|reflexivity]. }
  { exact Hg. }
  rewrite Hfinal.
  change (getTrack id (await w)) with (getTrack id w) in Hw0.
  destruct (updateVolume_spec id g stemType w0) as [_ Hspec].
  rewrite Hw0 in Hspec.
  destruct (stems (getTrack id w)) as [ss|] eqn:Hss.
  - destruct Hspec as (ss' & Hget & Hlook). rewrite Hget.
    split; [reflexivity|]. exists ss'. split; [reflexivity|].
    intros stem st Hst. rewrite (Hlook stem st Hst).
    eexists. split; [reflexivity|].
    destruct (decide (passes stemType stem /\ is_Some (s_gainNode st)));
      reflexivity.
  - rewrite Hspec. destruct (gainNode (getTrack id w)) eqn:Hgain.
    + split; [exact Hss|reflexivity].
    + split; [exact Hss|exact Hgain].
Qed.

(** At the end of the slider's travel the left track is silent. *)
Lemma crossfade_constant_power_gains_witness :
  gainNode (getTrack 1 (crossfade 100 None worldR)) = Some 0%R.
Proof.
  destruct crossfade_constant_power_gains as (_ & _ & _ & _ & Happly).
  specialize (Happly worldR 100%R None [Some 1%nat; Some 2%nat] 0%nat 1%nat
                0%R).
  destruct Happly as [_ Hgain].
  - reflexivity.
  - reflexivity.
  - discriminate.
  - intros [|[|j]]; simpl; [reflexivity|discriminate|].
    rewrite lookup_nil. discriminate.
  - rewrite crossfadeVolumes_100. reflexivity.
  - exact Hgain.
Defined.

End CrossfadeFacts.

(** ** Facts about the dispatcher and [destroy] *)

Section DispatchFacts.
Import Dispatcher.

(** [off] is handed the callback, never the arrow function [on] made for it,
    so it removes no listener that [on] registered. *)
Lemma off_keeps_arrow trackId callback w type serial c :
  (type, Arrow serial c) ∈ listeners w ->
  (type, Arrow serial c) ∈ listeners (off trackId callback w).
Proof.
  intros Hin. unfold off, removeEventListener. simpl.
  apply list_elem_of_filter. split; [congruence|exact Hin].
Qed.

Lemma handlerEffects_keeps_arrow self event w type serial c :
  (type, Arrow serial c) ∈ listeners w ->
  (type, Arrow serial c) ∈ listeners (handlerEffects self event w).
Proof.
  intros Hin. unfold handlerEffects.
  destruct event, self; try exact Hin.
  unfold destroyEvent. simpl. apply list_elem_of_filter.
  split; [congruence|exact Hin].
Qed.

Lemma handlerEffects_keeps_received self event w x :
  x ∈ received w -> x ∈ received (handlerEffects self event w).
Proof.
  intros Hin. unfold handlerEffects.
  destruct event, self; simpl; right; exact Hin.
Qed.

Lemma foldl_call_keeps effects event (ls : list Listener) :
  (forall self w type serial c,
     (type, Arrow serial c) ∈ listeners w ->
     (type, Arrow serial c) ∈ listeners (effects self event w)) ->
  (forall self w x, x ∈ received w -> x ∈ received (effects self event w)) ->
  forall w,
    (forall type serial c,
       (type, Arrow serial c) ∈ listeners w ->
       (type, Arrow serial c) ∈ listeners (foldl (call effects event) w ls)) /\
    (forall x, x ∈ received w ->
               x ∈ received (foldl (call effects event) w ls)).
Proof.
  intros Harrow Hrecv.
  induction ls as [|l ls IH]; intros w; cbn [foldl]; [auto|].
  destruct (IH (call effects event w l)) as (Ha & Hr). split.
  - intros type serial c Hin. apply Ha.
    destruct l; [exact Hin|]. apply Harrow, Hin.
  - intros x Hin. apply Hr.
    destruct l; [exact Hin|]. apply Hrecv, Hin.
Qed.

Lemma waveformEffects_keeps_arrow self event w type serial c :
  (type, Arrow serial c) ∈ listeners w ->
  (type, Arrow serial c) ∈ listeners (waveformEffects self event w).
Proof.
  intros Hin. unfold waveformEffects.
  pose proof (handlerEffects_keeps_arrow self event w type serial c Hin)
    as Hown.
  destruct event as [| | | |[]| | |], self; try exact Hown.
  unfold dispatchEvent.
  apply (foldl_call_keeps handlerEffects mixpoint);
    [intros; apply handlerEffects_keeps_arrow; assumption
    |intros; apply handlerEffects_keeps_received; assumption
    |exact Hown].
Qed.

Lemma waveformEffects_keeps_received self event w x :
  x ∈ received w -> x ∈ received (waveformEffects self event w).
Proof.
  intros Hin. unfold waveformEffects.
  pose proof (handlerEffects_keeps_received self event w x Hin) as Hown.
  destruct event as [| | | |[]| | |], self; try exact Hown.
  unfold dispatchEvent.
  apply (foldl_call_keeps handlerEffects mixpoint);
    [intros; apply handlerEffects_keeps_arrow; assumption
    |intros; apply handlerEffects_keeps_received; assumption
    |exact Hown].
Qed.

Lemma waveformEffects_delivers event w c :
  (c, event) ∈ received (waveformEffects c event w).
Proof.
  assert (Hown : (c, event) ∈ received (handlerEffects c event w)).
  { unfold handlerEffects. destruct event, c; simpl; left. }
  unfold waveformEffects.
  destruct event as [| | | |[]| | |], c; try exact Hown.
  unfold dispatchEvent.
  apply (foldl_call_keeps handlerEffects mixpoint);
    [intros; apply handlerEffects_keeps_arrow; assumption
    |intros; apply handlerEffects_keeps_received; assumption
    |exact Hown].
Qed.

Lemma foldl_call event (ls : list Listener) :
  forall w,
    (forall type serial c,
       (type, Arrow serial c) ∈ listeners w ->
       (type, Arrow serial c)
         ∈ listeners (foldl (call waveformEffects event) w ls)) /\
    (forall x, x ∈ received w ->
               x ∈ received (foldl (call waveformEffects event) w ls)) /\
    (forall serial c,
       Arrow serial c ∈ ls ->
       (c, event) ∈ received (foldl (call waveformEffects event) w ls)).
Proof.
  induction ls as [|l ls IH]; intros w; cbn [foldl].
  - split; [auto|]. split; [auto|]. intros serial c Hin. inversion Hin.
  - destruct (IH (call waveformEffects event w l)) as (Harrow & Hrecv & Hdeliver).
    split; [|split].
    + intros type serial c Hin. apply Harrow.
      destruct l; [exact Hin|]. apply waveformEffects_keeps_arrow, Hin.
    + intros x Hin. apply Hrecv.
      destruct l; [exact Hin|]. apply waveformEffects_keeps_received, Hin.
    + intros serial c Hin. apply elem_of_cons in Hin as [<-|Hin].
      * apply Hrecv, waveformEffects_delivers.
      * apply (Hdeliver serial c Hin).
Qed.

(** A listener registered through [on] outlives every event, the destroy
    event included, and goes on receiving what is emitted for its track. *)
Lemma listener_survives_destroy w trackId serial c event :
  (trackId, Arrow serial c) ∈ listeners w ->
  (c, event) ∈ received (emit trackId event (emit trackId destroy w)).
Proof.
  intros Hin.
  assert (Hstill : (trackId, Arrow serial c)
                   ∈ listeners (emit trackId destroy w)).
  { unfold emit, dispatchEvent. apply foldl_call. exact Hin. }
  unfold emit at 1. unfold dispatchEvent. eapply foldl_call.
  apply list_elem_of_fmap. exists (trackId, Arrow serial c).
  split; [reflexivity|]. apply list_elem_of_filter. split; [reflexivity|].
  exact Hstill.
Qed.

Lemma destroy_removes_state {num} (w : Engine.World num) id :
  Engine.audioState (Engine.destroy id w) !! id = None.
Proof.
  unfold Engine.destroy.
  destruct (Engine.waveform (Engine.getTrack id w)); simpl;
    apply lookup_delete_eq.
Qed.

(** C8.  [destroy] removes the track's audio state.  The listener that
    [loadAudioEvents] registered is still registered after the destroy
    event, because [off] is given [waveformEffects] while the window holds
    the arrow function wrapped around it, and it receives the seek emitted
    afterwards. *)
Theorem destroy_leaves_stale_listener :
  (forall num (w : Engine.World num) id,
     Engine.audioState (Engine.destroy id w) !! id = None) /\
  (let loaded := loadAudioEvents 1 emptyWindow in
   let destroyed := emit 1 destroy loaded in
   let later := emit 1 seek destroyed in
   listeners loaded = [(1%nat, Arrow 1 (WaveformEffects 1 0))] /\
   destroyedWaveforms destroyed = [1%nat] /\
   listeners destroyed = listeners loaded /\
   received later
   = [(WaveformEffects 1 0, seek); (WaveformEffects 1 0, destroy)]).
Proof.
  split.
  - intros num w id. apply destroy_removes_state.
  - vm_compute. repeat split; reflexivity.
Qed.

End DispatchFacts.

Section SoloFacts.
Import Engine.

(** C10.  Soloing drums mutes bass and sets its gain to 0; taking the solo
    off again unmutes bass but, its stored volume being 0, sets its gain
    to 1 and not to that volume. *)
Theorem solo_off_ignores_zero_volume :
  let soloed := stemSoloToggle 2 drums true world0 in
  let released := stemSoloToggle 2 drums false soloed in
  (s_volume <$> stemOf 2 bass world0 = Some (Some 0) /\
   s_gainNode <$> stemOf 2 bass soloed = Some (Some 0) /\
   s_mute <$> stemOf 2 bass soloed = Some (Some true) /\
   stemOf 2 drums soloed = stemOf 2 drums world0) /\
  (s_mute <$> stemOf 2 bass released = Some (Some false) /\
   s_volume <$> stemOf 2 bass released = Some (Some 0) /\
   s_gainNode <$> stemOf 2 bass released = Some (Some 1)).
Proof. vm_compute. repeat split; reflexivity. Qed.

End SoloFacts.

(** ** Facts about the stem lifecycle *)

Section StemFacts.
Import StemLifecycle.
Local Open Scope string_scope.

(** C5.  A request for stems meets a guard in one place only:
    [validateTrackStemAccess] answers [processingStems], and changes
    nothing, for a track in that phase that has no stems cached and a stems
    directory it may write to.  During the upload and during the download
    the same request answers [getStems] and overwrites the phase.  And
    [stemAudio], which starts the generation, reads no phase at all: called
    again while its first run is still polling, it sends the file a second
    time and polls anew. *)
Theorem stem_request_starts_a_second_workflow :
  (forall w id dir,
     id <> 0%nat ->
     (audioState w !! id) ≫= stemState = Some processingStems ->
     cachedStems id w = None ->
     stemsDirHandle w = Some dir ->
     queryPermission dir = Some granted ->
     validateTrackStemAccess id w = Ok (processingStems, w)) /\
  (exists w',
     validateTrackStemAccess 1 (generating uploadingFile)
       = Ok (getStems, w') /\
     (audioState w' !! 1%nat) ≫= stemState = Some getStems) /\
  (exists w',
     validateTrackStemAccess 1 (generating downloadingStems)
       = Ok (getStems, w') /\
     (audioState w' !! 1%nat) ≫= stemState = Some getStems) /\
  (exists first second,
     stemAudio 1 busy idle = Polling first /\
     (audioState first !! 1%nat) ≫= stemState = Some processingStems /\
     uploads first = [(1%nat, "song.mp3")] /\
     stemAudio 1 busy first = Polling second /\
     (audioState second !! 1%nat) ≫= stemState = Some processingStems /\
     uploads second = [(1%nat, "song.mp3"); (1%nat, "song.mp3")]).
Proof.
  split; [|split; [|split]].
  - intros w id dir Hid Hphase Hcache Hdir Hperm.
    unfold validateTrackStemAccess, checkAccess.
    rewrite bool_decide_eq_false_2 by exact Hid.
    unfold cachedStems in Hcache. rewrite Hphase, Hcache, Hdir, Hperm.
    rewrite (bool_decide_eq_false_2 (granted ≠ granted)) by congruence.
    rewrite (bool_decide_eq_true_2 (Some processingStems = Some processingStems))
      by reflexivity.
    rewrite (bool_decide_eq_false_2 (processingStems = ready)) by discriminate.
    rewrite bool_decide_eq_false_2; [reflexivity|].
    intros [Hne _]. congruence.
  - eexists. split; vm_compute; reflexivity.
  - eexists. split; vm_compute; reflexivity.
  - eexists _, _. split; [vm_compute; reflexivity|].
    repeat split; vm_compute; reflexivity.
Qed.

(** The guard of [validateTrackStemAccess] on the sample track. *)
Lemma stem_request_starts_a_second_workflow_witness :
  validateTrackStemAccess 1 (generating processingStems)
  = Ok (processingStems, generating processingStems).
Proof.
  apply (proj1 stem_request_starts_a_second_workflow
           (generating processingStems) 1%nat stemsDir).
  - discriminate.
  - reflexivity.
  - reflexivity.
  - reflexivity.
  - reflexivity.
Defined.


Lemma cachedStems_storeTrackCache id newFile new w :
  cachedStems id (storeTrackCache id newFile (Some new) w)
  = Some (new ∪ default ∅ (cachedStems id w)).
Proof.
  unfold cachedStems, storeTrackCache. simpl. rewrite lookup_insert_eq.
  simpl. destruct (trackCache w !! id ≫= stems); simpl; [reflexivity|].
  rewrite (right_id_L ∅ (∪)). reflexivity.
Qed.

Lemma storeStems_done id svc (l : list (Stem * File)) :
  forall w w',
    storeStems id svc l w = Done w' ->
    audioState w' = audioState w /\
    forall stem,
      stem ∈ l.*1 \/ is_Some (default ∅ (cachedStems id w) !! stem) ->
      is_Some (default ∅ (cachedStems id w') !! stem).
Proof.
  induction l as [|[type f] l IH]; intros w w' Hrun; simpl in Hrun.
  - inversion Hrun; subst. split; [reflexivity|].
    intros stem [Hin|Hold]; [inversion Hin|exact Hold].
  - destruct (writeOk svc type); [|discriminate].
    destruct (IH _ _ Hrun) as [Hst Hstems]. split; [exact Hst|].
    intros stem Hstem. apply Hstems.
    rewrite cachedStems_storeTrackCache. simpl.
    destruct Hstem as [Hin|Hold].
    + apply elem_of_cons in Hin as [->|Hin]; [|left; exact Hin].
      right. rewrite lookup_union_is_Some. left.
      rewrite lookup_singleton_eq. eauto.
    + right. rewrite lookup_union_is_Some. right. exact Hold.
Qed.

Lemma fetchStems_all svc name stems :
  fetchStems svc name = Some stems -> stems.*1 = STEMS.
Proof.
  unfold fetchStems, STEMS. simpl.
  destruct (fetchStem svc drums), (fetchStem svc bass),
    (fetchStem svc vocals), (fetchStem svc other); simpl; try discriminate.
  intros Heq. inversion Heq. reflexivity.
Qed.

Lemma checkForStems_resolves id svc name (statuses : list nat) w stems w1 :
  checkForStems id svc name statuses w = inr (stems, w1) ->
  fetchStems svc name = Some stems /\ w1 = w.
Proof.
  induction statuses as [|status later IH]; simpl; [discriminate|].
  destruct (status =? 202)%nat; [exact IH|].
  destruct (status =? 500)%nat; [discriminate|].
  destruct (status =? 200)%nat; [|discriminate].
  destruct (fetchStems svc name); [|discriminate].
  intros Heq. inversion Heq. split; reflexivity.
Qed.

Lemma checkForStems_stops id svc name (statuses : list nat) w stopped w' :
  checkForStems id svc name statuses w = inl stopped -> stopped <> Done w'.
Proof.
  induction statuses as [|status later IH]; simpl.
  - intros Heq. inversion Heq. discriminate.
  - destruct (status =? 202)%nat; [exact IH|].
    destruct (status =? 500)%nat; [intros Heq; inversion Heq; discriminate|].
    destruct (status =? 200)%nat;
      [|intros Heq; inversion Heq; discriminate].
    destruct (fetchStems svc name); intros Heq; inversion Heq. discriminate.
Qed.

Lemma stemAudio_done id svc w w' :
  stemAudio id svc w = Done w' ->
  (audioState w' !! id) ≫= stemState = Some ready /\
  exists ss, cachedStems id w' = Some ss /\ allFour ss.
Proof.
  unfold stemAudio.
  destruct (trackCache w !! id ≫= file) as [f|]; [|discriminate].
  destruct (dirGranted svc); [|discriminate]. cbn [negb].
  destruct (audioState w !! id) as [a|] eqn:Ha; [|discriminate].
  destruct (uploadOk svc); [|discriminate]. cbn [negb].
  match goal with |- context [checkForStems ?a ?b ?c ?d ?e] =>
    destruct (checkForStems a b c d e) as [stopped|[stems w1]] eqn:Hcheck
  end.
  { intros Heq. exfalso. eapply checkForStems_stops; eassumption. }
  apply checkForStems_resolves in Hcheck as [Hfetch ->].
  apply fetchStems_all in Hfetch.
  destruct (mkdirOk svc); [|discriminate]. cbn [negb].
  match goal with |- context [storeStems ?a ?b ?c ?d] =>
    destruct (storeStems a b c d) as [w2| | |] eqn:Hstore
  end; try discriminate.
  intros Heq. inversion Heq; subst w'.
  destruct (storeStems_done _ _ _ _ _ Hstore) as [Hst Hstems].
  split.
  - simpl. rewrite lookup_alter_eq, Hst. simpl.
    rewrite !lookup_alter_eq, Ha. reflexivity.
  - assert (Hall : forall stem,
              is_Some (default ∅ (cachedStems id w2) !! stem)).
    { intros stem. apply Hstems.
      left. rewrite Hfetch. destruct stem; unfold STEMS; set_solver. }
    change (cachedStems id (setStemState id ready w2))
      with (cachedStems id w2).
    destruct (cachedStems id w2) as [ss|].
    + exists ss. split; [reflexivity|exact Hall].
    + destruct (Hall drums) as [x Hx]. simpl in Hx.
      rewrite lookup_empty in Hx. discriminate.
Qed.


End StemFacts.

(** ** Further facts about the beat grid *)

Section GridShape.
Import BeatGrid.

Lemma zeroTime_diverges bi :
  bi < 0 ->
  forall fuel o, 0 < o - bi -> zeroTime fuel bi o = None.
Proof.
  intros Hbi. induction fuel as [|fuel IH]; intros o Ho; simpl;
    destruct (Qlt_le_dec 0 (o - bi)); try reflexivity; try lra.
  apply IH. lra.
Qed.

Lemma beatInterval_neg b : b < 0 -> 60 / b < 0.
Proof.
  intros Hb.
  assert (E : 60 / b == - (60 / (- b))) by (field; lra).
  assert (0 < 60 / (- b)) by (apply beatInterval_pos; lra).
  lra.
Qed.






(** X3.  With a negative tempo the loop that walks the first beat back
    towards zero walks forward instead: for a track whose offset is not
    negative the call never returns, whatever time it is given. *)
Theorem calcRegions_negative_tempo_never_returns
    track an prev partial d bpm offset :
  analyzed track an = (Some d, bpm, offset) ->
  truthy (Some d) = true ->
  effectiveBpm (mergeTrackState prev partial) bpm < 0 ->
  0 <= effectiveOffset track offset ->
  forall fuel, calcRegions fuel track an prev partial = OutOfFuel.
Proof.
  intros Han Hd Hb Ho fuel.
  unfold calcRegions. rewrite Han, Hd. cbn [negb]. cbv zeta.
  fold (effectiveBpm (mergeTrackState prev partial) bpm).
  fold (effectiveOffset track offset).
  pose proof (beatInterval_neg _ Hb) as Hbi.
  rewrite (zeroTime_diverges _ Hbi) by lra. reflexivity.
Qed.

Lemma calcRegions_negative_tempo_never_returns_witness :
  calcRegions 1000 exampleTrack noAnalysis noState reversedTempo = OutOfFuel.
Proof.
  apply (calcRegions_negative_tempo_never_returns exampleTrack noAnalysis
           noState reversedTempo 2 (Some 120) (Some (1 # 5)));
    try reflexivity.
  vm_compute. discriminate.
Defined.

End GridShape.

(** ** Further facts about the transport *)

Section TransportInvariants.
Import Engine.
Context {num : Type} `{JsNumber num}.
Implicit Types (w : World num) (id : nat).

Lemma stemOf_ext id stem w w' :
  audioState w' = audioState w -> stemOf id stem w' = stemOf id stem w.
Proof. intros Hst. unfold stemOf. rewrite (getTrack_ext id w w' Hst). reflexivity. Qed.

Lemma pauseTrack_stemMix w id id' stem :
  stemMix <$> stemOf id' stem (pauseTrack w id)
  = stemMix <$> stemOf id' stem w.
Proof.
  destruct (decide (id' = id)) as [->|Hne].
  2:{ destruct (pauseTrack_spec w id) as (_ & _ & Hother & _).
      unfold stemOf. rewrite Hother by exact Hne. reflexivity. }
  unfold stemOf, pauseTrack.
  rewrite !getTrack_setTrack, !decide_True by reflexivity.
  cbn [stems with_playing with_volumeMeterInterval with_volumeMeter].
  match goal with |- context [clearVolumeMeter id ?w1] =>
    destruct (clearVolumeMeter_frame id w1) as (Hst & _);
    rewrite (getTrack_ext id w1 _ Hst)
  end.
  destruct (stems (getTrack id w)) as [ss|] eqn:Hss.
  - destruct (foldl_pauseStem id (map_to_list ss) w ss Hss)
      as (_ & _ & _ & (m' & Hget & Hm') & _).
    rewrite Hget. cbn [stems with_stems mbind option_bind]. rewrite Hm'.
    case_decide as Hin.
    + apply list_elem_of_fmap in Hin as ((k & st) & -> & Hin).
      apply elem_of_map_to_list in Hin. cbn [fst]. rewrite Hin. reflexivity.
    + destruct (ss !! stem) as [st|] eqn:E; [|reflexivity]. exfalso.
      apply Hin. apply list_elem_of_fmap. exists (stem, st).
      split; [reflexivity|]. apply elem_of_map_to_list. exact E.
  - rewrite Hss. reflexivity.
Qed.

Lemma pause_stemMix trackId w id stem :
  stemMix <$> stemOf id stem (pause trackId w) = stemMix <$> stemOf id stem w.
Proof.
  unfold pause.
  assert (Hfold : forall l w0,
            stemMix <$> stemOf id stem (foldl pauseTrack w0 l)
            = stemMix <$> stemOf id stem w0).
  { induction l as [|i l IH]; intros w0; cbn [foldl]; [reflexivity|].
    rewrite IH. apply pauseTrack_stemMix. }
  destruct (idGiven trackId); rewrite Hfold;
    match goal with |- context [foldl stopPlayer w ?ps] =>
      destruct (foldl_stopPlayer ps w) as ((Hst & _) & _);
      rewrite (stemOf_ext id stem w _ Hst); reflexivity
    end.
Qed.

Lemma gainNode_pauseInsensitive : pauseInsensitive (@gainNode num).
Proof. repeat split. Qed.

Lemma player_pauseInsensitive : pauseInsensitive (@player num).
Proof. repeat split. Qed.

(** X4.  A call of [play] or of [pause] does not change what is mixed:
    when the call is over, with or without a track id, every track has the
    player, gain and playhead it had, and every stem its player, gain,
    slider volume and mute flag.  (The metering timer that [play] starts
    moves the stored time only later, when it fires.) *)
Theorem transport_keeps_the_mix (trackId : option nat) (w : World num) :
  sameMix w (play trackId w) /\ sameMix w (pause trackId w).
Proof.
  split; intros id.
  - split; [|split; [|split]].
    + apply (play_preserves gainNode), gainNode_pauseInsensitive.
    + apply (play_preserves player), player_pauseInsensitive.
    + apply (play_preserves playhead), playhead_pauseInsensitive.
    + intros stem. unfold stemOf.
      rewrite (play_preserves stems); [reflexivity|].
      apply stems_playInsensitive.
  - split; [|split; [|split]].
    + apply (pause_preserves gainNode), gainNode_pauseInsensitive.
    + apply (pause_preserves player), player_pauseInsensitive.
    + apply (pause_preserves playhead), playhead_pauseInsensitive.
    + intros stem. apply pause_stemMix.
Qed.

Lemma setTrack_tracked id (f : TrackSt num -> TrackSt num) w :
  (forall t, volumeMeterInterval (f t) = volumeMeterInterval t) ->
  timersTracked w -> timersTracked (setTrack id f w).
Proof.
  intros Hf Htracked h tm Hh. specialize (Htracked h tm Hh). simpl in *.
  rewrite getTrack_setTrack. case_decide as E; [|exact Htracked].
  rewrite Hf, E. exact Htracked.
Qed.

Lemma await_tracked w : timersTracked w -> timersTracked (await w).
Proof. intros Htracked h tm Hh. exact (Htracked h tm Hh). Qed.




End TransportInvariants.

Section TransportRunExamples.
Import Engine.


End TransportRunExamples.

Section PlayState.
Import Engine.
Context {num : Type} `{JsNumber num}.
Implicit Types (w : World num) (id : nat).

Lemma playTrack_skipped cst trackId w id (t : TrackSt num) :
  skipped trackId id t = true -> playTrack cst trackId w (id, t) = w.
Proof. intros Hskip. unfold playTrack. rewrite Hskip. reflexivity. Qed.

Lemma playTrack_state cst trackId w id (t : TrackSt num) :
  skipped trackId id t = false ->
  let w' := playTrack cst trackId w (id, t) in
  nextTimer w' = (nextTimer w + 1)%Z /\
  (forall id', id' <> id -> getTrack id' w' = getTrack id' w) /\
  playing (getTrack id w') = Some true /\
  volumeMeterInterval (getTrack id w') = Some (nextTimer w) /\
  (exists tm, timers w' !! nextTimer w = Some tm /\ owner tm = id /\
              contextStartTime tm = cst /\ startOffset tm = time t) /\
  (forall h, h <> nextTimer w ->
             volumeMeterInterval (getTrack id w) <> Some h ->
             timers w' !! h = timers w !! h).
Proof.
  intros Hskip. cbv zeta. unfold playTrack. rewrite Hskip.
  destruct (clearVolumeMeter_frame id w) as (Hst & _).
  pose proof (clearVolumeMeter_timers id w) as Htm.
  assert (Hnext : nextTimer (clearVolumeMeter id w) = nextTimer w).
  { unfold clearVolumeMeter, clearInterval.
    destruct (volumeMeterInterval (getTrack id w)); reflexivity. }
  set (w1 := await (clearVolumeMeter id w)).
  assert (Hst1 : audioState w1 = audioState w) by exact Hst.
  assert (Htm1 : timers w1 = timers (clearVolumeMeter id w)) by reflexivity.
  assert (Hnext1 : nextTimer w1 = nextTimer w) by exact Hnext.
  clearbody w1.
  set (adjusted := trackPrefs w1 !! id ≫= adjustedBpm).
  set (bw := if truthy adjusted then (dbBpm w1 !! id, await w1)
             else (None, w1)).
  assert (Hbw : audioState bw.2 = audioState w /\
                timers bw.2 = timers (clearVolumeMeter id w) /\
                nextTimer bw.2 = nextTimer w).
  { unfold bw. destruct (truthy adjusted); simpl; auto. }
  destruct bw as [bpm w2]. simpl in Hbw. destruct Hbw as (Hst2 & Htm2 & Hnext2).
  set (rate := match adjusted, bpm with
               | Some a, Some b =>
                   if truthy adjusted && truthy bpm then Some (a / b) else None
               | _, _ => None
               end).
  clearbody rate.
  assert (Hfinal : forall (mw : list Stem * World num),
    audioState mw.2 = audioState w ->
    timers mw.2 = timers (clearVolumeMeter id w) ->
    nextTimer mw.2 = nextTimer w ->
    let w' :=
      (let '(meters, w) := mw in
       let '(newInterval, w) :=
         setInterval {| owner := id; meters := meters;
                        contextStartTime := cst; startOffset := time t |} w in
       let w := setTrack id (with_volumeMeterInterval (Some newInterval)) w in
       setTrack id (with_playing (Some true)) w) in
    nextTimer w' = (nextTimer w + 1)%Z /\
    (forall id', id' <> id -> getTrack id' w' = getTrack id' w) /\
    playing (getTrack id w') = Some true /\
    volumeMeterInterval (getTrack id w') = Some (nextTimer w) /\
    (exists tm, timers w' !! nextTimer w = Some tm /\ owner tm = id /\
                contextStartTime tm = cst /\ startOffset tm = time t) /\
    (forall h, h <> nextTimer w ->
               volumeMeterInterval (getTrack id w) <> Some h ->
               timers w' !! h = timers w !! h)).
  { intros [ms w3] Hst3 Htm3 Hnext3. simpl in *.
    split; [rewrite Hnext3; reflexivity|]. split; [|split; [|split; [|split]]].
    - intros id' Hne. rewrite !getTrack_setTrack.
      rewrite !decide_False by congruence.
      unfold getTrack. simpl. rewrite Hst3. reflexivity.
    - rewrite !getTrack_setTrack, !decide_True by reflexivity. reflexivity.
    - rewrite !getTrack_setTrack, !decide_True by reflexivity. simpl.
      rewrite Hnext3. reflexivity.
    - rewrite Hnext3. rewrite lookup_insert_eq. eexists. split; [reflexivity|].
      simpl. auto.
    - intros h Hne Hrec. rewrite Hnext3, lookup_insert_ne by congruence.
      rewrite Htm3, Htm.
      destruct (volumeMeterInterval (getTrack id w)) as [h0|]; [|reflexivity].
      apply lookup_delete_ne. congruence. }
  destruct (stems (getTrack id w2)) as [ss|].
  - destruct (foldl_startStem cst (time t) rate (map_to_list ss) [] w2)
      as ((Hfa & _ & _ & _ & _ & Hft & Hfn & _) & _).
    apply Hfinal; [rewrite Hfa; exact Hst2|rewrite Hft; exact Htm2|].
    rewrite Hfn. exact Hnext2.
  - apply (Hfinal ([], _)); destruct (player t);
      first [exact Hst2 | exact Htm2 | exact Hnext2].
Qed.

Lemma foldl_playTrack_state cst trackId (l : list (nat * TrackSt num)) :
  NoDup l.*1 ->
  forall w,
    handlesFresh w ->
    let w' := foldl (playTrack cst trackId) w l in
    handlesFresh w' /\ (nextTimer w <= nextTimer w')%Z /\
    (forall id, id ∉ l.*1 -> getTrack id w' = getTrack id w) /\
    (forall id t, (id, t) ∈ l -> skipped trackId id t = true ->
                  getTrack id w' = getTrack id w) /\
    (forall id t, (id, t) ∈ l -> skipped trackId id t = false ->
                  playing (getTrack id w') = Some true /\
                  metered cst w' id t) /\
    (forall h, (h < nextTimer w)%Z ->
               (forall id, id ∈ l.*1 ->
                           volumeMeterInterval (getTrack id w) <> Some h) ->
               timers w' !! h = timers w !! h).
Proof.
  induction l as [|[id t] l IH]; intros Hnd w Hfresh; cbn [foldl].
  - split; [exact Hfresh|]. split; [lia|]. split; [reflexivity|].
    split; [intros ? ? Hin; inversion Hin|].
    split; [intros ? ? Hin; inversion Hin|]. reflexivity.
  - apply NoDup_cons in Hnd as [Hnotin Hnd]. cbn [fmap list_fmap fst] in Hnotin.
    set (w1 := playTrack cst trackId w (id, t)).
    assert (Hstep :
      (nextTimer w <= nextTimer w1)%Z /\ handlesFresh w1 /\
      (forall id', id' <> id -> getTrack id' w1 = getTrack id' w) /\
      (skipped trackId id t = true -> w1 = w) /\
      (skipped trackId id t = false ->
         playing (getTrack id w1) = Some true /\
         volumeMeterInterval (getTrack id w1) = Some (nextTimer w) /\
         nextTimer w1 = (nextTimer w + 1)%Z /\
         exists tm, timers w1 !! nextTimer w = Some tm /\ owner tm = id /\
                    contextStartTime tm = cst /\ startOffset tm = time t) /\
      (forall h, (h < nextTimer w)%Z ->
                 volumeMeterInterval (getTrack id w) <> Some h ->
                 timers w1 !! h = timers w !! h)).
    { destruct (skipped trackId id t) eqn:Hskip.
      - unfold w1. rewrite playTrack_skipped by exact Hskip.
        split; [lia|]. split; [exact Hfresh|]. split; [reflexivity|].
        split; [reflexivity|]. split; [discriminate|reflexivity].
      - destruct (playTrack_state cst trackId w id t Hskip)
          as (Hn & Hother & Hplay & Hrec & Hlive & Hkeep).
        fold w1 in Hn, Hother, Hplay, Hrec, Hlive, Hkeep.
        split; [lia|]. split.
        { intros id' h Hh. destruct (decide (id' = id)) as [->|Hne].
          - rewrite Hrec in Hh. injection Hh as <-. lia.
          - rewrite Hother in Hh by exact Hne.
            specialize (Hfresh id' h Hh). lia. }
        split; [exact Hother|]. split; [discriminate|].
        split; [intros _; auto|].
        intros h Hh Hrec'. apply Hkeep; [lia|exact Hrec']. }
    destruct Hstep as (Hn1 & Hfresh1 & Hother1 & Hskip1 & Hplay1 & Hkeep1).
    clearbody w1.
    destruct (IH Hnd w1 Hfresh1) as (Hfresh' & Hn' & Hout & Hskp & Hplay & Hkeep).
    split; [exact Hfresh'|]. split; [lia|]. split; [|split; [|split]].
    + intros id' Hid'. cbn [fmap list_fmap fst] in Hid'.
      apply not_elem_of_cons in Hid' as [Hne Hid'].
      rewrite Hout by exact Hid'. apply Hother1. exact Hne.
    + intros id' t' Hin Hs. apply elem_of_cons in Hin as [Heq|Hin].
      * injection Heq as -> ->. rewrite Hout by exact Hnotin.
        rewrite (Hskip1 Hs). reflexivity.
      * rewrite (Hskp id' t' Hin Hs). apply Hother1.
        intros ->. apply Hnotin. apply list_elem_of_fmap.
        exists (id, t'). split; [reflexivity|exact Hin].
    + intros id' t' Hin Hs. apply elem_of_cons in Hin as [Heq|Hin].
      * injection Heq as -> ->.
        destruct (Hplay1 Hs) as (Hp & Hrec & Hnx & tm & Hlive & Hown).
        rewrite !Hout by exact Hnotin. split; [exact Hp|].
        exists (nextTimer w), tm. rewrite Hout by exact Hnotin.
        split; [exact Hrec|]. split; [|exact Hown].
        rewrite Hkeep; [exact Hlive|lia|].
        intros id' Hid' Hrec'.
        assert (Hne : id' <> id) by (intros ->; contradiction).
        rewrite Hother1 in Hrec' by exact Hne.
        specialize (Hfresh id' _ Hrec'). lia.
      * apply (Hplay id' t' Hin Hs).
    + intros h Hh Hrecs. rewrite Hkeep.
      * apply Hkeep1; [exact Hh|]. apply Hrecs. left.
      * lia.
      * intros id' Hid'.
        assert (Hne : id' <> id) by (intros ->; contradiction).
        rewrite Hother1 by exact Hne. apply Hrecs. right. exact Hid'.
Qed.

(** X6.  [play] marks every track it starts as playing and leaves it with
    a live metering timer of its own on record, which was created with the
    one clock value of the call and the track's stored time; a track whose
    waveform or player is missing, or which is not the one asked for, is
    left exactly as it was. *)
Theorem play_marks_playing_with_live_timer (trackId : option nat)
    (w : World num) id t :
  handlesFresh w ->
  audioState w !! id = Some t ->
  let w' := play trackId w in
  if skipped trackId id t
  then getTrack id w' = getTrack id w
  else playing (getTrack id w') = Some true /\
       metered (clock (await w)) w' id t.
Proof.
  intros Hfresh Hid. cbv zeta. unfold play.
  change (now (await w)) with (clock (await w), (now (await w)).2).
  cbv iota beta.
  set (w0 := (now (await w)).2).
  assert (Hfresh0 : handlesFresh w0) by exact Hfresh.
  assert (Hin : (id, t) ∈ entries (audioState w0)).
  { apply elem_of_entries. exact Hid. }
  assert (Hget : getTrack id w0 = getTrack id w) by reflexivity.
  destruct (foldl_playTrack_state (clock (await w)) trackId
              (entries (audioState w0)) (NoDup_entries _) w0 Hfresh0)
    as (_ & _ & _ & Hskp & Hplay & _).
  destruct (skipped trackId id t) eqn:Hs.
  - rewrite (Hskp id t Hin Hs). exact Hget.
  - apply (Hplay id t Hin Hs).
Qed.

Lemma handlesFresh_unrecorded w :
  map_Forall (fun _ t => volumeMeterInterval t = None) (audioState w) ->
  handlesFresh w.
Proof.
  intros Hnone id h. unfold getTrack.
  destruct (audioState w !! id) as [t|] eqn:Hid; [|discriminate].
  simpl. rewrite (Hnone id t Hid). discriminate.
Qed.

End PlayState.

Section PlayStateExamples.
Import Engine.

Lemma play_marks_playing_with_live_timer_witness :
  playing (getTrack 1 (play None world0)) = Some true /\
  metered (clock (await world0)) (play None world0) 1 plainTrack.
Proof.
  apply (play_marks_playing_with_live_timer (num := Q) None world0 1
           plainTrack).
  - apply handlesFresh_unrecorded.
    apply map_Forall_insert_2; [reflexivity|].
    apply map_Forall_insert_2; [reflexivity|]. apply map_Forall_empty.
  - reflexivity.
Defined.

End PlayStateExamples.

(** ** Further facts about seeking *)

Section SeekReach.
Import Engine.
Context {num : Type} `{JsNumber num}.

Lemma markerAt_elem ms index tm : markerAt ms index = Some tm -> tm ∈ ms.
Proof.
  unfold markerAt. destruct index as [i|]; [|discriminate].
  destruct (i <? 0)%Z; [discriminate|].
  intros Hi. apply list_elem_of_lookup. eauto.
Qed.

Lemma markerAt_outside ms i :
  (i < 0)%Z \/ (Z.of_nat (length ms) <= i)%Z -> markerAt ms (Some i) = None.
Proof.
  intros Hout. unfold markerAt.
  destruct (i <? 0)%Z eqn:Hneg; [reflexivity|].
  apply Z.ltb_ge in Hneg. apply lookup_ge_None. lia.
Qed.

Lemma truthy_nonzero tm : truthy (Some tm) = true -> ~ tm == 0.
Proof.
  unfold truthy. intros Ht Hz. apply Qeq_bool_iff in Hz.
  rewrite Hz in Ht. discriminate.
Qed.

(** X7.  [seekEvent] moves the playhead only to a beat marker of the
    waveform, never to a marker at time zero and only past the 5 ms test;
    with a direction it skips by the distance to that marker, without one
    it sets the playhead on it.  The index it looks up is the integer
    nearest to the quotient of the doubles, stepped by the direction: an
    index before the first or past the last marker, a quotient that is not
    a finite number, and so a skip length of zero, leave the playhead
    alone. *)
Theorem seekEvent_moves_only_to_a_marker :
  (forall wf time direction cmd,
     Dispatcher.seekEvent wf time direction = Some cmd ->
     let startTime := default (currentTime wf) time in
     exists tm,
       tm ∈ markers wf /\ ~ tm == 0 /\ beyond5ms tm startTime = true /\
       cmd = match direction with
             | Some _ =>
                 Dispatcher.SkipForward
                   (Q2double tm - Q2double startTime)%float
             | None => Dispatcher.SetPlayheadTime tm
             end) /\
  (forall wf time direction,
     skipLength wf == 0 -> Dispatcher.seekEvent wf time direction = None) /\
  (forall wf time direction,
     match quotient64 (default (currentTime wf) time) (skipLength wf) with
     | Some q =>
         let n := (Qfloor (q + (1 # 2)) + directionStep direction)%Z in
         (n < 0)%Z \/ (Z.of_nat (length (markers wf)) <= n)%Z ->
         Dispatcher.seekEvent wf time direction = None
     | None => Dispatcher.seekEvent wf time direction = None
     end).
Proof.
  split; [|split].
  - intros wf time direction cmd. unfold Dispatcher.seekEvent.
    destruct (Dispatcher.seekEventTarget wf time direction) as [st target]
      eqn:Htarget.
    unfold Dispatcher.seekEventTarget in Htarget.
    injection Htarget as <- Hmarker.
    destruct target as [tm|]; [|discriminate].
    destruct (truthy (Some tm)) eqn:Htruthy; [|discriminate].
    destruct (beyond5ms tm (default (currentTime wf) time)) eqn:Hfar;
      [|discriminate].
    cbn [andb]. intros [= <-]. cbv zeta. exists tm.
    split; [eapply markerAt_elem; exact Hmarker|].
    split; [apply truthy_nonzero; exact Htruthy|].
    split; [exact Hfar|reflexivity].
  - intros wf time direction Hzero.
    unfold Dispatcher.seekEvent, Dispatcher.seekEventTarget,
      Dispatcher.roundIndex.
    rewrite (quotient64_zero _ _ Hzero). reflexivity.
  - intros wf time direction.
    unfold Dispatcher.seekEvent, Dispatcher.seekEventTarget,
      Dispatcher.roundIndex.
    destruct (quotient64 _ _) as [q|]; [|reflexivity].
    intros Hout. cbn [fmap option_fmap option_map].
    rewrite (markerAt_outside _ _ Hout). reflexivity.
Qed.

(** X8.  [audioEvents.seek] either leaves the playhead of the track where it
    was, or puts both the waveform's playhead and the stored time on one and
    the same beat marker of the waveform, which is not the marker at time
    zero; this holds whether or not the track was playing. *)
Theorem seek_lands_on_a_marker (w : World num) id startTime direction wf :
  waveform (getTrack id w) = Some wf ->
  let w' := seek id startTime direction w in
  playhead (getTrack id w') = playhead (getTrack id w) \/
  exists tm,
    tm ∈ markers wf /\ ~ tm == 0 /\
    playhead (getTrack id w') = (Some (setPlayheadTime tm wf), Some tm).
Proof.
  intros Hwf w'. unfold w', seek. rewrite Hwf.
  destruct (seekTarget wf startTime direction) as [st target] eqn:Htarget.
  unfold seekTarget in Htarget. injection Htarget as <- Hmarker.
  set (wasPlaying := bool_decide (playing (getTrack id w) = Some true)).
  set (w1 := if wasPlaying then await (pause (Some id) w) else w).
  assert (H1 : playhead (getTrack id w1) = playhead (getTrack id w)).
  { unfold w1. destruct wasPlaying; [|reflexivity].
    rewrite (getTrack_ext id (pause (Some id) w) (await _)) by reflexivity.
    apply (pause_preserves playhead), playhead_pauseInsensitive. }
  clearbody w1.
  match goal with |- context [if wasPlaying then play _ ?x else _] =>
    assert (H2 : playhead
                   (getTrack id (if wasPlaying then play (Some id) x else x))
                 = playhead (getTrack id x));
    [ destruct wasPlaying; [|reflexivity];
      apply (play_preserves playhead), playhead_pauseInsensitive
    | rewrite H2; clear H2 ]
  end.
  destruct target as [tm|]; [|left; exact H1].
  destruct (truthy (Some tm)) eqn:Htruthy; [|left; exact H1].
  destruct (beyond5ms tm _); cbn [andb]; [|left; exact H1].
  right. exists tm.
  split; [eapply markerAt_elem; exact Hmarker|].
  split; [apply truthy_nonzero; exact Htruthy|].
  rewrite !getTrack_setTrack, !decide_True by reflexivity. reflexivity.
Qed.

End SeekReach.

Section SeekReachExamples.
Import Engine.

Lemma seekEvent_moves_only_to_a_marker_witness :
  (exists tm, tm ∈ markers wf1 /\ ~ tm == 0 /\
     Dispatcher.SetPlayheadTime (6 # 5) = Dispatcher.SetPlayheadTime tm) /\
  Dispatcher.seekEvent wf1 (Some (1 # 5)) (Some previous) = None.
Proof.
  destruct seekEvent_moves_only_to_a_marker as (Hmove & _ & Hout). split.
  - destruct (Hmove wf1 (Some (9 # 10)) None
                (Dispatcher.SetPlayheadTime (6 # 5)))
      as (tm & Hin & Hnz & _ & Hcmd); [vm_compute; reflexivity|].
    exists tm. split; [exact Hin|]. split; [exact Hnz | exact Hcmd].
  - pose proof (Hout wf1 (Some (1 # 5)) (Some previous)) as Hnone.
    destruct (quotient64 _ _) as [q|] eqn:Hq; [|exact Hnone].
    apply Hnone. left. vm_compute in Hq. injection Hq as <-.
    vm_compute. reflexivity.
Defined.

(** A start time of 0.35 s on a grid of tenths: the quotient of the doubles
    is just below 3.5, the index is 3 and the playhead goes to the marker
    at 0.32 s. *)
Example seekEvent_rounds_the_quotient_of_doubles :
  Dispatcher.seekEvent tenths (Some (35 # 100)) None
  = Some (Dispatcher.SetPlayheadTime (32 # 100)).
Proof. vm_compute. reflexivity. Qed.

Lemma seek_lands_on_a_marker_witness :
  playhead (getTrack 1 (seek 1 (Some (9 # 10)) None world0))
    = playhead (getTrack 1 world0) \/
  exists tm,
    tm ∈ markers wf1 /\ ~ tm == 0 /\
    playhead (getTrack 1 (seek 1 (Some (9 # 10)) None world0))
      = (Some (setPlayheadTime tm wf1), Some tm).
Proof.
  apply (seek_lands_on_a_marker (num := Q) world0 1 (Some (9 # 10)) None wf1).
  reflexivity.
Defined.

End SeekReachExamples.

(** ** Further facts about the volume controls *)

Section StemControls.
Import Engine.
Context {num : Type} `{JsNumber num}.
Implicit Types (w : World num) (id : nat).

Lemma setStem_other id stem (f : StemSt num -> StemSt num) w id' :
  id' <> id -> getTrack id' (setStem id stem f w) = getTrack id' w.
Proof.
  intros Hne. unfold setStem.
  rewrite getTrack_setTrack, decide_False by congruence. reflexivity.
Qed.

Lemma stemMuteToggle_other id stem mute w id' :
  id' <> id -> getTrack id' (stemMuteToggle id stem mute w) = getTrack id' w.
Proof.
  intros Hne. unfold stemMuteToggle.
  destruct (stems (getTrack id w)) as [ss|] eqn:Hss; [|reflexivity].
  rewrite setStem_other by exact Hne.
  destruct (ss !! stem ≫= s_gainNode); [|reflexivity].
  apply (setStemGain_spec id stem _ w ss Hss). exact Hne.
Qed.

Lemma stemOf_stemMuteToggle id stem mute w k :
  is_Some (stems (getTrack id w)) ->
  stemOf id k (stemMuteToggle id stem mute w)
  = if decide (k = stem)
    then Some (toggled mute (default emptyStem (stemOf id stem w)))
    else stemOf id k w.
Proof.
  intros [ss Hss]. unfold stemOf.
  rewrite (stemMuteToggle_spec id stem mute w ss Hss), Hss.
  cbn [stems with_stems mbind option_bind].
  case_decide as E.
  - subst k. apply lookup_insert_eq.
  - apply lookup_insert_ne. congruence.
Qed.

Lemma foldl_soloStep_other id stem solo (l : list Stem) id' :
  id' <> id ->
  forall w,
    getTrack id' (foldl (soloStep id stem solo) w l) = getTrack id' w.
Proof.
  intros Hne. induction l as [|s l IH]; intros w; cbn [foldl]; [reflexivity|].
  rewrite IH. unfold soloStep. destruct (bool_decide (s ≠ stem)); [|reflexivity].
  apply stemMuteToggle_other. exact Hne.
Qed.

(** X9.  [stemSoloToggle] leaves the chosen stem as it is and gives every
    other stem of the track what [stemMuteToggle] would: the mute flag set
    to the solo flag and, where the stem has a gain node, gain 0 when
    soloing and [volume || 1] when releasing.  A track without stems, and
    every other track, is left untouched. *)
Theorem stemSoloToggle_sets_every_other_stem id stem solo (w : World num) :
  let w' := stemSoloToggle id stem solo w in
  (forall k,
     stemOf id k w'
     = (fun st => if decide (k = stem) then st else toggled solo st)
         <$> stemOf id k w) /\
  (stems (getTrack id w) = None -> w' = w) /\
  (forall id', id' <> id -> getTrack id' w' = getTrack id' w).
Proof.
  cbv zeta. unfold stemSoloToggle. split; [|split].
  - intros k. unfold stemOf at 2.
    destruct (stems (getTrack id w)) as [ss|] eqn:Hss.
    + destruct (foldl_soloStep id stem solo (map_to_list ss).*1
                  (NoDup_fst_map_to_list ss) w ss Hss) as (m' & Hm' & Hlook).
      unfold stemOf. change (map fst (map_to_list ss)) with (map_to_list ss).*1.
      rewrite Hm'. cbn [mbind option_bind]. rewrite Hlook.
      destruct (ss !! k) as [st|] eqn:Hk; cbn [fmap option_fmap option_map].
      * destruct (decide (k = stem)) as [->|Hne].
        -- rewrite decide_False by (intros [_ ?]; auto). reflexivity.
        -- rewrite decide_True; [reflexivity|]. split; [|exact Hne].
           apply list_elem_of_fmap. exists (k, st).
           split; [reflexivity|]. apply elem_of_map_to_list. exact Hk.
      * rewrite decide_False; [reflexivity|]. intros [Hin _].
        apply list_elem_of_fmap in Hin as ((k' & st) & -> & Hin).
        apply elem_of_map_to_list in Hin. cbn [fst] in Hk. congruence.
    + unfold stemOf. rewrite Hss. reflexivity.
  - intros ->. reflexivity.
  - intros id' Hne. destruct (stems (getTrack id w)) as [ss|]; [|reflexivity].
    apply foldl_soloStep_other. exact Hne.
Qed.

(** X10.  Muting a stem and unmuting it again leaves it as a plain unmute
    would: the mute flag is off, and a stem with a gain node plays at the
    volume of its slider when that is set and not zero, whatever its gain
    was before it was muted; in between its gain is 0.  No other stem of
    the track changes. *)
Theorem unmute_restores_slider_volume id stem (w : World num) st :
  stemOf id stem w = Some st ->
  let muted := stemMuteToggle id stem true w in
  let unmuted := stemMuteToggle id stem false muted in
  stemOf id stem muted = Some (toggled true st) /\
  stemOf id stem unmuted = Some (toggled false st) /\
  (is_Some (s_gainNode st) ->
     s_gainNode (toggled true st) = Some num_zero /\
     forall v, s_volume st = Some v -> num_truthy v = true ->
               s_gainNode (toggled false st) = Some v) /\
  (forall k, k <> stem -> stemOf id k unmuted = stemOf id k w).
Proof.
  intros Hst. cbv zeta.
  assert (Hss : is_Some (stems (getTrack id w))).
  { unfold stemOf in Hst. destruct (stems (getTrack id w)); [eauto|discriminate]. }
  assert (Hss' : is_Some (stems (getTrack id (stemMuteToggle id stem true w)))).
  { destruct Hss as [ss Hss].
    rewrite (stemMuteToggle_spec id stem true w ss Hss). eauto. }
  assert (Hmuted : stemOf id stem (stemMuteToggle id stem true w)
                   = Some (toggled true st)).
  { rewrite stemOf_stemMuteToggle by exact Hss.
    rewrite decide_True by reflexivity. rewrite Hst. reflexivity. }
  split; [exact Hmuted|]. split; [|split].
  - rewrite stemOf_stemMuteToggle by exact Hss'.
    rewrite decide_True by reflexivity. rewrite Hmuted. cbn [default from_option].
    f_equal. unfold toggled. destruct st as [p g v m mu]. simpl.
    destruct g; reflexivity.
  - intros [g Hg]. unfold toggled. rewrite Hg. simpl.
    split; [reflexivity|]. intros v Hv Htruthy. rewrite Hv. simpl.
    rewrite Htruthy. reflexivity.
  - intros k Hne. rewrite stemOf_stemMuteToggle by exact Hss'.
    rewrite decide_False by exact Hne.
    rewrite stemOf_stemMuteToggle by exact Hss.
    rewrite decide_False by exact Hne. reflexivity.
Qed.

(** X11.  [stemVolume] stores the volume on the stem and, where the stem
    has a gain node, makes it the gain at once, whether or not the stem is
    muted: the slider of a muted stem makes it sound again while its mute
    flag stays set.  Other stems and other tracks are untouched. *)
Theorem stemVolume_sets_volume_and_gain id stem v (w : World num) ss :
  stems (getTrack id w) = Some ss ->
  let st := default emptyStem (ss !! stem) in
  let w' := stemVolume id stem v w in
  stemOf id stem w'
  = Some (with_s_volume (Some v)
            (if s_gainNode st is Some _ then setGain v st else st)) /\
  (is_Some (s_gainNode st) ->
     (s_gainNode <$> stemOf id stem w' = Some (Some v)) /\
     s_mute <$> stemOf id stem w' = Some (s_mute st)) /\
  (forall k, k <> stem -> stemOf id k w' = stemOf id k w) /\
  (forall id', id' <> id -> getTrack id' w' = getTrack id' w).
Proof.
  intros Hss. cbv zeta. unfold stemVolume. rewrite Hss.
  set (st := default emptyStem (ss !! stem)).
  set (w1 := match ss !! stem ≫= s_gainNode with
             | Some _ => setStemGain id stem v w
             | None => w
             end).
  assert (H1 : exists m1,
            stems (getTrack id w1) = Some m1 /\
            m1 !! stem = (if s_gainNode st is Some _
                          then Some (setGain v st) else ss !! stem) /\
            (forall k, k <> stem -> m1 !! k = ss !! k) /\
            forall id', id' <> id -> getTrack id' w1 = getTrack id' w).
  { unfold w1, st. destruct (ss !! stem) as [s0|] eqn:Hs0; simpl.
    - destruct (s_gainNode s0) eqn:Hg.
      + destruct (setStemGain_spec id stem v w ss Hss) as [Hget Hother].
        eexists. split; [rewrite Hget; reflexivity|].
        rewrite Hs0. simpl. split; [apply lookup_insert_eq|].
        split; [|exact Hother].
        intros k Hne. apply lookup_insert_ne. congruence.
      + exists ss. split; [exact Hss|]. split; [exact Hs0|].
        split; reflexivity.
    - exists ss. split; [exact Hss|]. split; [exact Hs0|]. split; reflexivity. }
  clearbody w1. destruct H1 as (m1 & Hm1 & Hm1s & Hm1k & Hother).
  assert (Hgoal : stemOf id stem
                    (setStem id stem (with_s_volume (Some v)) w1)
                  = Some (with_s_volume (Some v)
                            (if s_gainNode st is Some _
                             then setGain v st else st))).
  { unfold stemOf. rewrite (getTrack_setStem id stem _ w1 m1 Hm1).
    cbn [stems with_stems mbind option_bind]. rewrite lookup_insert_eq, Hm1s.
    unfold st. destruct (ss !! stem) as [s0|]; simpl.
    - destruct (s_gainNode s0); reflexivity.
    - reflexivity. }
  split; [exact Hgoal|]. split; [|split].
  - intros [g Hg]. rewrite Hgoal, Hg. split; reflexivity.
  - intros k Hne. unfold stemOf.
    rewrite (getTrack_setStem id stem _ w1 m1 Hm1), Hss.
    cbn [stems with_stems mbind option_bind].
    rewrite lookup_insert_ne by congruence. apply Hm1k. exact Hne.
  - intros id' Hne. rewrite setStem_other by exact Hne. apply Hother. exact Hne.
Qed.

End StemControls.

Section StemControlExamples.
Import Engine.

Lemma unmute_restores_slider_volume_witness :
  let muted := stemMuteToggle 2 drums true world0 in
  let unmuted := stemMuteToggle 2 drums false muted in
  stemOf 2 drums muted = Some (toggled true (stemQ 10 (Some (1 # 2)))) /\
  stemOf 2 drums unmuted = Some (toggled false (stemQ 10 (Some (1 # 2)))).
Proof.
  intros muted unmuted.
  destruct (unmute_restores_slider_volume (num := Q) 2 drums world0
              (stemQ 10 (Some (1 # 2))) eq_refl) as (Hm & Hu & _).
  split; [exact Hm | exact Hu].
Defined.

Lemma stemVolume_sets_volume_and_gain_witness :
  (s_gainNode <$> stemOf 2 bass (stemVolume 2 bass (3 # 4) world0)
   = Some (Some (3 # 4))) /\
  s_mute <$> stemOf 2 bass (stemVolume 2 bass (3 # 4) world0) = Some None.
Proof.
  destruct (stemVolume_sets_volume_and_gain (num := Q) 2 bass (3 # 4) world0
              fourStems eq_refl) as (_ & Hgain & _).
  apply Hgain. vm_compute. eauto.
Defined.

End StemControlExamples.

(** ** Further facts about the crossfader *)

Section CrossfadeShape.
Import Engine.
Implicit Types (w : World R) (id : nat).
Local Open Scope R_scope.

Lemma crossfadeSlot_beyond v stemType w i id :
  (2 <= i)%nat -> id <> 0%nat ->
  crossfadeSlot (crossfadeVolumes v) stemType w (i, Some id)
  = updateVolumeUndefined id stemType w.
Proof.
  intros Hi Hid. unfold crossfadeSlot.
  destruct id as [|id]; [contradiction|]. cbn [idGiven].
  rewrite (proj2 (lookup_ge_None (crossfadeVolumes v) i)); [reflexivity|].
  exact Hi.
Qed.

Lemma foldl_crossfadeSlot_unslotted v stemType id
    (l : list (nat * option nat)) :
  (forall i track, (i, track) ∈ l -> idGiven track <> Some id) ->
  forall w,
    getTrack id (foldl (crossfadeSlot (crossfadeVolumes v) stemType) w l)
    = getTrack id w.
Proof.
  induction l as [|[i track] l IH]; intros Hl w; cbn [foldl]; [reflexivity|].
  rewrite IH.
  - apply crossfadeSlot_other. apply (Hl i track). left.
  - intros j tr Hin. apply (Hl j). right. exact Hin.
Qed.

(** X12.  [crossfade] changes nothing of a track that sits in no mix slot,
    nor of track id 0, which the slot test takes for an empty slot.  A track
    in the third slot or a later one is passed on to [updateVolume] with a
    volume that is [undefined]: a track without stems that has a gain node
    then sees that gain set to [undefined], at a fresh reading of the
    clock. *)
Theorem crossfade_leaves_unslotted_tracks :
  (forall v stemType (w : World R) id,
     (forall tracks i,
        mixTracks w = Some tracks -> tracks !! i = Some (Some id) ->
        id = 0%nat) ->
     getTrack id (crossfade v stemType w) = getTrack id w) /\
  (forall v stemType (w : World R) i id,
     (2 <= i)%nat -> id <> 0%nat ->
     crossfadeSlot (crossfadeVolumes v) stemType w (i, Some id)
     = updateVolumeUndefined id stemType w) /\
  (forall stemType (w : World R) id g,
     stems (getTrack id w) = None -> gainNode (getTrack id w) = Some g ->
     let w' := updateVolumeUndefined id stemType w in
     audioLog w' = GainUndefined id None :: audioLog w /\
     clockReads w' = S (clockReads w)).
Proof.
  split; [|split].
  - intros v stemType w id Hslots. unfold crossfade.
    change (mixTracks (await w)) with (mixTracks w).
    destruct (mixTracks w) as [tracks|] eqn:Hmix; [|reflexivity].
    rewrite foldl_crossfadeSlot_unslotted; [reflexivity|].
    intros i track Hin. apply elem_of_imap_pair in Hin.
    destruct track as [id'|]; [|discriminate].
    destruct (decide (id' = id)) as [->|Hne].
    + rewrite (Hslots tracks i eq_refl Hin). discriminate.
    + destruct id'; simpl; congruence.
  - intros v stemType w i id. apply crossfadeSlot_beyond.
  - intros stemType w id g Hstems Hgain. cbv zeta.
    unfold updateVolumeUndefined. rewrite Hstems, Hgain.
    split; reflexivity.
Qed.

Lemma crossfade_leaves_unslotted_tracks_witness :
  getTrack 3 (crossfade 30 (Some drums) worldR) = getTrack 3 worldR.
Proof.
  apply (proj1 crossfade_leaves_unslotted_tracks).
  intros tracks i [= <-] Hi.
  destruct i as [|[|i]]; simpl in Hi; discriminate.
Defined.





End CrossfadeShape.

(** ** Further facts about the dispatcher *)

Section DispatchOrder.
Import Dispatcher.

Lemma callbacksFor_without_named t c t' (ls : list (nat * Listener)) :
  callbacksFor t' (filter (fun e => e ≠ (t, Named c)) ls) = callbacksFor t' ls.
Proof.
  unfold callbacksFor, omap.
  induction ls as [|[t0 l] ls IH]; [reflexivity|].
  destruct (decide ((t0, l) = (t, Named c))) as [Heq|Hne].
  - rewrite (filter_cons_False (fun e => e ≠ (t, Named c)))
      by (intros Hn; apply Hn; exact Heq).
    rewrite IH. injection Heq as -> ->.
    destruct (decide (t = t')) as [->|Hne].
    + rewrite (filter_cons_True (fun e => e.1 = t')) by reflexivity.
      reflexivity.
    + rewrite (filter_cons_False (fun e => e.1 = t')) by exact Hne.
      reflexivity.
  - rewrite (filter_cons_True (fun e => e ≠ (t, Named c))) by exact Hne.
    destruct (decide (t0 = t')) as [->|Hne'].
    + rewrite !(filter_cons_True (fun e => e.1 = t')) by reflexivity.
      cbn [map list_omap]. rewrite IH. reflexivity.
    + rewrite !(filter_cons_False (fun e => e.1 = t')) by exact Hne'.
      exact IH.
Qed.

(** What the handling of one event by one callback leaves behind, apart
    from what it emits itself. *)
Lemma handlerEffects_frame c event (w : Window) :
  received (handlerEffects c event w) = (c, event) :: received w /\
  closures (handlerEffects c event w) = closures w /\
  (forall e, e ∈ listeners (handlerEffects c event w) -> e ∈ listeners w) /\
  forall t, callbacksFor t (listeners (handlerEffects c event w))
            = callbacksFor t (listeners w).
Proof.
  unfold handlerEffects.
  destruct event, c; repeat split; auto.
  - simpl. intros e Hin. apply list_elem_of_filter in Hin as [_ Hin].
    exact Hin.
  - intros t. simpl. apply callbacksFor_without_named.
Qed.

Lemma nested_ext (ls ls' : list (nat * Listener)) c event :
  (forall t, callbacksFor t ls' = callbacksFor t ls) ->
  nested ls' c event = nested ls c event.
Proof.
  intros Hsame. unfold nested.
  destruct event as [| | | |[]| | |], c; try reflexivity.
  rewrite Hsame. reflexivity.
Qed.

(** Dispatching to callbacks whose handlers emit nothing. *)
Lemma foldl_call_handlerEffects event (ls : list Listener) :
  forall w,
    let w' := foldl (call handlerEffects event) w ls in
    received w'
    = reverse (map (fun c => (c, event)) (omap arrowCallback ls))
        ++ received w /\
    closures w' = closures w /\
    (forall e, e ∈ listeners w' -> e ∈ listeners w) /\
    forall t, callbacksFor t (listeners w') = callbacksFor t (listeners w).
Proof.
  induction ls as [|l ls IH]; intros w; cbn [foldl].
  - repeat split; auto.
  - destruct (IH (call handlerEffects event w l)) as (Hrec & Hcl & Hls & Hcb).
    cbv zeta. rewrite Hrec, Hcl.
    destruct l as [c|n c]; cbn [call omap list_omap arrowCallback];
      fold (omap arrowCallback ls).
    + repeat split; auto.
    + destruct (handlerEffects_frame c event w) as (Hr1 & Hc1 & Hl1 & Hb1).
      rewrite Hr1, Hc1. split; [|split; [reflexivity|split]].
      * cbn [map]. rewrite reverse_cons, <- app_assoc. reflexivity.
      * intros e He. apply Hl1, Hls, He.
      * intros t. rewrite Hcb. apply Hb1.
Qed.

(** What the handling of one event by one callback leaves behind. *)
Lemma waveformEffects_frame c event (w : Window) :
  received (waveformEffects c event w)
  = reverse ((c, event) :: nested (listeners w) c event) ++ received w /\
  closures (waveformEffects c event w) = closures w /\
  (forall e, e ∈ listeners (waveformEffects c event w) -> e ∈ listeners w) /\
  forall t, callbacksFor t (listeners (waveformEffects c event w))
            = callbacksFor t (listeners w).
Proof.
  destruct (handlerEffects_frame c event w) as (Hr1 & Hc1 & Hl1 & Hb1).
  assert (Hplain : nested (listeners w) c event = [] ->
            received (handlerEffects c event w)
            = reverse ((c, event) :: nested (listeners w) c event)
                ++ received w).
  { intros ->. rewrite Hr1. reflexivity. }
  unfold waveformEffects.
  destruct event as [| | | |[]| | |]; destruct c as [trackId inst];
    try (split; [apply Hplain; reflexivity|auto]).
  unfold dispatchEvent.
  set (w1 := handlerEffects (WaveformEffects trackId inst) (nav SetMixpoint) w)
    in *.
  destruct (foldl_call_handlerEffects mixpoint
              (map snd (filter (fun e => e.1 = trackId) (listeners w1))) w1)
    as (Hr2 & Hc2 & Hl2 & Hb2).
  cbv zeta in Hr2, Hc2, Hl2, Hb2. rewrite Hr2, Hc2, Hr1, Hc1.
  split; [|split; [reflexivity|split]].
  - fold (callbacksFor trackId (listeners w1)). rewrite Hb1.
    unfold nested. rewrite reverse_cons, <- app_assoc. reflexivity.
  - intros e He. apply Hl1, Hl2, He.
  - intros t. rewrite Hb2. apply Hb1.
Qed.

Lemma foldl_call_received event (ls : list Listener) :
  forall w,
    let w' := foldl (call waveformEffects event) w ls in
    received w'
    = reverse (flat_map (fun c => (c, event) :: nested (listeners w) c event)
                        (omap arrowCallback ls))
        ++ received w /\
    closures w' = closures w /\
    (forall e, e ∈ listeners w' -> e ∈ listeners w) /\
    forall t, callbacksFor t (listeners w') = callbacksFor t (listeners w).
Proof.
  induction ls as [|l ls IH]; intros w; cbn [foldl].
  - repeat split; auto.
  - destruct (IH (call waveformEffects event w l)) as (Hrec & Hcl & Hls & Hcb).
    cbv zeta. rewrite Hrec, Hcl.
    destruct l as [c|n c]; cbn [call omap list_omap arrowCallback];
      fold (omap arrowCallback ls).
    + repeat split; auto.
    + destruct (waveformEffects_frame c event w) as (Hr1 & Hc1 & Hl1 & Hb1).
      rewrite Hr1, Hc1. split; [|split; [reflexivity|split]].
      * cbn [flat_map]. rewrite reverse_app, <- app_assoc. f_equal.
        f_equal. apply flat_map_ext. intros c'. f_equal.
        apply nested_ext. exact Hb1.
      * intros e He. apply Hl1, Hls, He.
      * intros t. rewrite Hcb. apply Hb1.
Qed.


Lemma emit_frame trackId event (w : Window) :
  received (emit trackId event w)
  = reverse (deliveries (listeners w) trackId event) ++ received w /\
  closures (emit trackId event w) = closures w /\
  forall e, e ∈ listeners (emit trackId event w) -> e ∈ listeners w.
Proof.
  unfold emit, dispatchEvent.
  destruct (foldl_call_received event
              (map snd (filter (fun e => e.1 = trackId) (listeners w))) w)
    as (Hrec & Hcl & Hls & _).
  split; [exact Hrec|]. split; [exact Hcl|exact Hls].
Qed.


(** Two callbacks on one track and 'Set Mixpoint': each is called with the
    event and, before the other's turn, both are called with [mixpoint]. *)
Example emit_set_mixpoint_twice :
  let first := WaveformEffects 1 0 in
  let second := WaveformEffects 1 2 in
  reverse
    (received
       (emit 1 (nav SetMixpoint)
          (loadAudioEvents 1 (loadAudioEvents 1 emptyWindow))))
  = [(first, nav SetMixpoint); (first, mixpoint); (second, mixpoint);
     (second, nav SetMixpoint); (first, mixpoint); (second, mixpoint)].
Proof. vm_compute. reflexivity. Qed.

Lemma registeredByOn_sub (w w' : Window) :
  (forall e, e ∈ listeners w' -> e ∈ listeners w) ->
  registeredByOn w -> registeredByOn w'.
Proof.
  unfold registeredByOn. rewrite !Forall_forall. intros Hsub Hw e He.
  apply Hw, Hsub, He.
Qed.

Lemma on_listeners t c w :
  (t, Arrow (closures w) c) ∉ listeners w ->
  listeners (on t c w) = listeners w ++ [(t, Arrow (closures w) c)].
Proof.
  intros Hnew. unfold on, addEventListener. cbn [listeners closures].
  rewrite bool_decide_eq_false_2 by exact Hnew. reflexivity.
Qed.

Lemma on_listeners_either t c w e :
  e ∈ listeners (on t c w) ->
  e ∈ listeners w \/ e = (t, Arrow (closures w) c).
Proof.
  unfold on, addEventListener. cbn [listeners closures].
  case_bool_decide; cbn [listeners]; [auto|].
  intros Hin. apply elem_of_app in Hin as [Hin|Hin]; [auto|].
  apply list_elem_of_singleton in Hin. auto.
Qed.

(** X15.  [audioEvent.off] cannot remove what [audioEvent.on] registered:
    starting from a window without listeners, as long as listeners are only
    added through [on], whatever events are emitted in between, every call
    of [off] leaves the window exactly as it was. *)
Theorem off_is_a_noop_after_on :
  registeredByOn emptyWindow /\
  (forall w t c, registeredByOn w -> registeredByOn (on t c w)) /\
  (forall w t event, registeredByOn w -> registeredByOn (emit t event w)) /\
  (forall w t c, registeredByOn w -> off t c w = w).
Proof.
  split; [apply Forall_nil_2|]. split; [|split].
  - intros w t c Hw. unfold registeredByOn in *. rewrite Forall_forall in *.
    intros e He. apply on_listeners_either in He as [He| ->]; [auto|].
    simpl. eauto.
  - intros w t event. apply registeredByOn_sub.
    apply emit_frame.
  - intros w t c Hw. unfold off, removeEventListener.
    replace (filter (fun e => e ≠ (t, Named c)) (listeners w))
      with (listeners w); [destruct w; reflexivity|].
    unfold registeredByOn in Hw. induction Hw as [|e ls He _ IH];
      [reflexivity|].
    rewrite filter_cons_True.
    + f_equal. exact IH.
    + intros ->. simpl in He. destruct He. discriminate.
Qed.

Lemma off_is_a_noop_after_on_witness :
  off 1 (WaveformEffects 1 0) (on 1 (WaveformEffects 1 0) emptyWindow)
  = on 1 (WaveformEffects 1 0) emptyWindow.
Proof.
  destruct off_is_a_noop_after_on as (Hempty & Hon & _ & Hoff).
  apply Hoff, Hon, Hempty.
Defined.

Lemma serialsFresh_fresh t c w :
  serialsFresh w -> (t, Arrow (closures w) c) ∉ listeners w.
Proof.
  unfold serialsFresh. rewrite Forall_forall. intros Hw Hin.
  specialize (Hw _ Hin). simpl in Hw. lia.
Qed.

(** X16.  Every call of [audioEvent.on] adds a listener, also for a callback
    that is registered already, since it wraps the callback in a function
    value of its own: the callback is then reached once more by every event
    for the track.  Emitting events never removes such a listener's
    freshness. *)
Theorem on_always_adds_a_listener t c (w : Window) :
  serialsFresh w ->
  listeners (on t c w) = listeners w ++ [(t, Arrow (closures w) c)] /\
  callbacksFor t (listeners (on t c w)) = callbacksFor t (listeners w) ++ [c] /\
  serialsFresh (on t c w) /\
  forall t' event, serialsFresh (emit t' event w).
Proof.
  intros Hw.
  assert (Hls : listeners (on t c w)
                = listeners w ++ [(t, Arrow (closures w) c)])
    by (apply on_listeners, serialsFresh_fresh, Hw).
  split; [exact Hls|]. split; [|split].
  - rewrite Hls. unfold callbacksFor.
    rewrite filter_app, map_app, omap_app. f_equal.
    rewrite filter_cons_True by reflexivity. reflexivity.
  - unfold serialsFresh in *. rewrite Hls.
    assert (Hcl : closures (on t c w) = S (closures w)).
    { unfold on, addEventListener. cbn [listeners closures].
      case_bool_decide; reflexivity. }
    rewrite Hcl. apply Forall_app. split.
    + eapply Forall_impl; [exact Hw|]. intros [t0 [c0|n c0]]; simpl; [auto|lia].
    + apply Forall_singleton. simpl. lia.
  - intros t' event.
    destruct (emit_frame t' event w) as (_ & Hcl & Hsub).
    unfold serialsFresh in *. rewrite Forall_forall in *.
    intros e He. rewrite Hcl. apply Hw, Hsub, He.
Qed.

Lemma on_always_adds_a_listener_witness :
  let once := on 1 (WaveformEffects 1 0) emptyWindow in
  callbacksFor 1 (listeners (on 1 (WaveformEffects 1 0) once))
  = callbacksFor 1 (listeners once) ++ [WaveformEffects 1 0].
Proof.
  intros once.
  destruct (on_always_adds_a_listener 1 (WaveformEffects 1 0) once)
    as (_ & Hcb & _).
  - unfold once. apply (on_always_adds_a_listener 1 (WaveformEffects 1 0)).
    apply Forall_nil_2.
  - exact Hcb.
Defined.

End DispatchOrder.

(** ** Further facts about the track cache *)

Section CacheFacts.
Import StemLifecycle.
Local Open Scope string_scope.

Lemma least_of_list (l : list nat) :
  match foldr (fun k acc => Some (from_option (Nat.min k) k acc)) None l with
  | None => l = []
  | Some k => k ∈ l /\ forall j, j ∈ l -> (k <= j)%nat
  end.
Proof.
  induction l as [|a l IH]; [reflexivity|]. cbn [foldr].
  destruct (foldr _ None l) as [k|]; cbn [from_option].
  - destruct IH as [Hin Hmin]. split.
    + destruct (Nat.min_spec a k) as [[_ ->]|[_ ->]]; [left|right; exact Hin].
    + intros j Hj. apply elem_of_cons in Hj as [->|Hj]; [lia|].
      specialize (Hmin j Hj). lia.
  - subst l. split; [left|]. intros j Hj.
    apply list_elem_of_singleton in Hj as ->. lia.
Qed.

Lemma elem_of_keys (m : gmap nat TrackCache) j :
  j ∈ map fst (map_to_list m) <-> is_Some (m !! j).
Proof.
  change (map fst (map_to_list m)) with (map_to_list m).*1.
  rewrite list_elem_of_fmap. split.
  - intros ((k & x) & -> & Hin). apply elem_of_map_to_list in Hin. eauto.
  - intros [x Hx]. exists (j, x). split; [reflexivity|].
    apply elem_of_map_to_list. exact Hx.
Qed.

Lemma oldest_spec (m : gmap nat TrackCache) :
  match oldest m with
  | None => m = ∅
  | Some k => is_Some (m !! k) /\
              forall j, is_Some (m !! j) -> (k <= j)%nat
  end.
Proof.
  unfold oldest. pose proof (least_of_list (map fst (map_to_list m))) as Hl.
  destruct (foldr _ None _) as [k|].
  - destruct Hl as [Hin Hmin]. split; [apply elem_of_keys; exact Hin|].
    intros j Hj. apply Hmin, elem_of_keys, Hj.
  - apply map_to_list_empty_iff. destruct (map_to_list m); [reflexivity|].
    discriminate.
Qed.

(** The table [storeTrackCache] writes into, after the limit is enforced. *)
Lemma storeTrackCache_table id newFile newStems w :
  exists entry table,
    trackCache (storeTrackCache id newFile newStems w)
    = <[id := entry]> table /\
    ((size (trackCache w) <= CACHE_LIMIT)%nat -> table = trackCache w) /\
    ((CACHE_LIMIT < size (trackCache w))%nat ->
     exists low,
       is_Some (trackCache w !! low) /\
       (forall j, is_Some (trackCache w !! j) -> (low <= j)%nat) /\
       table = delete low (trackCache w)).
Proof.
  unfold storeTrackCache. cbn [trackCache with_trackCache].
  eexists. eexists. split; [reflexivity|].
  destruct (Nat.ltb_spec CACHE_LIMIT (size (trackCache w))) as [Hover|Hin].
  - split; [lia|]. intros _.
    pose proof (oldest_spec (trackCache w)) as Hold.
    destruct (oldest (trackCache w)) as [low|].
    + destruct Hold as [Hlow Hmin]. exists low. auto.
    + rewrite Hold, map_size_empty in Hover. unfold CACHE_LIMIT in Hover. lia.
  - split; [reflexivity|lia].
Qed.

(** X17.  The track cache settles at one entry more than [CACHE_LIMIT]: the
    limit is enforced before the new entry is put, so a cache of at most
    26 entries stays at most 26, and storing a track that is not cached yet
    into a cache of 25 or 26 entries leaves exactly 26. *)
Theorem storeTrackCache_settles_above_the_limit id newFile newStems w :
  let w' := storeTrackCache id newFile newStems w in
  ((size (trackCache w) <= S CACHE_LIMIT)%nat ->
   (size (trackCache w') <= S CACHE_LIMIT)%nat) /\
  (trackCache w !! id = None ->
   (CACHE_LIMIT <= size (trackCache w) <= S CACHE_LIMIT)%nat ->
   size (trackCache w') = S CACHE_LIMIT).
Proof.
  cbv zeta.
  destruct (storeTrackCache_table id newFile newStems w)
    as (entry & table & -> & Hin & Hover).
  rewrite map_size_insert.
  destruct (le_lt_dec (size (trackCache w)) CACHE_LIMIT) as [Hsmall|Hbig].
  - rewrite (Hin Hsmall). split.
    + intros _. destruct (trackCache w !! id); simpl; lia.
    + intros Hnew Hsize. rewrite Hnew. lia.
  - destruct (Hover Hbig) as (low & Hlow & _ & ->).
    pose proof (map_size_delete_Some low (trackCache w) Hlow) as Hdel.
    split.
    + intros Hsize. destruct (delete low (trackCache w) !! id); simpl; lia.
    + intros Hnew Hsize.
      rewrite (proj2 (lookup_delete_None (trackCache w) low id));
        [lia | right; exact Hnew].
Qed.

(** X18.  Storing a track in the cache loses at most one other entry: none
    while the cache holds at most [CACHE_LIMIT] entries, and beyond that the
    entry with the lowest track id, whichever track is being stored. *)
Theorem storeTrackCache_evicts_only_the_lowest_id id newFile newStems w :
  let w' := storeTrackCache id newFile newStems w in
  ((size (trackCache w) <= CACHE_LIMIT)%nat ->
   forall k, k <> id -> trackCache w' !! k = trackCache w !! k) /\
  ((CACHE_LIMIT < size (trackCache w))%nat ->
   exists low,
     is_Some (trackCache w !! low) /\
     (forall j, is_Some (trackCache w !! j) -> (low <= j)%nat) /\
     forall k, k <> id ->
       trackCache w' !! k
       = if decide (k = low) then None else trackCache w !! k).
Proof.
  cbv zeta.
  destruct (storeTrackCache_table id newFile newStems w)
    as (entry & table & -> & Hin & Hover).
  split.
  - intros Hsmall k Hne. rewrite (Hin Hsmall).
    apply lookup_insert_ne. congruence.
  - intros Hbig. destruct (Hover Hbig) as (low & Hlow & Hmin & ->).
    exists low. split; [exact Hlow|]. split; [exact Hmin|].
    intros k Hne. rewrite lookup_insert_ne by congruence.
    case_decide as E.
    + subst k. apply lookup_delete_eq.
    + apply lookup_delete_ne. congruence.
Qed.

(** X19.  What [storeTrackCache] leaves under the track's id: the file it
    was given, or else the cached one; and for every stem the file it was
    given, or else the cached one.  This holds also when the track's own
    entry was the oldest and was evicted by the same call. *)
Theorem storeTrackCache_merges_with_the_cached_entry
    (id : nat) (newFile : option File) (newStems : option (gmap Stem File))
    (w : World) :
  let w' := storeTrackCache id newFile newStems w in
  let cached := trackCache w !! id in
  exists entry,
    trackCache w' !! id = Some entry /\
    file entry = (if newFile is Some f then Some f else cached ≫= file) /\
    (forall stem,
       fileOfStem (stems entry) stem
       = match fileOfStem newStems stem with
         | Some f => Some f
         | None => fileOfStem (cached ≫= stems) stem
         end) /\
    (is_Some (stems entry) <->
     is_Some newStems \/ is_Some (cached ≫= stems)).
Proof.
  cbv zeta. unfold storeTrackCache. cbn [trackCache with_trackCache].
  rewrite lookup_insert_eq. eexists. split; [reflexivity|].
  cbn [file stems]. split; [destruct newFile; reflexivity|].
  unfold fileOfStem.
  destruct (trackCache w !! id ≫= stems) as [cachedStems|] eqn:Hc.
  - split.
    + intros stem. cbn [mbind option_bind].
      destruct newStems as [ns|];
        cbn [default from_option mbind option_bind Datatypes.id].
      * rewrite lookup_union. destruct (ns !! stem), (cachedStems !! stem);
          reflexivity.
      * rewrite lookup_union, lookup_empty.
        destruct (cachedStems !! stem); reflexivity.
    + split; eauto.
  - split.
    + intros stem. destruct (newStems ≫= _); reflexivity.
    + split; [auto|]. intros [Hs|[x Hx]]; [exact Hs|discriminate].
Qed.

Lemma storeTrackCache_settles_above_the_limit_witness :
  (size (trackCache (storeTrackCache 2 (Some songFile) None
                       (generating getStems))) <= 26)%nat.
Proof.
  apply (storeTrackCache_settles_above_the_limit 2 (Some songFile) None
           (generating getStems)).
  vm_compute. lia.
Defined.

Lemma storeTrackCache_evicts_only_the_lowest_id_witness :
  trackCache (storeTrackCache 2 (Some songFile) None (generating getStems))
    !! 1%nat
  = trackCache (generating getStems) !! 1%nat.
Proof.
  apply (storeTrackCache_evicts_only_the_lowest_id 2 (Some songFile) None
           (generating getStems)).
  - vm_compute. lia.
  - discriminate.
Defined.

End CacheFacts.

(** ** Further facts about [validateTrackStemAccess] *)

Section ValidateFacts.
Import StemLifecycle.
Local Open Scope string_scope.

Lemma checkAccess_world id st w s w1 :
  checkAccess id st w = Ok (s, w1) ->
  w1 = w \/ exists found, w1 = storeTrackCache id None (Some found) w.
Proof.
  unfold checkAccess. intros Hcheck.
  repeat match type of Hcheck with
         | context [match ?x with _ => _ end] => destruct x
         end;
    inversion Hcheck; subst; eauto.
Qed.

Lemma checkAccess_frame id st w s w1 :
  checkAccess id st w = Ok (s, w1) ->
  audioState w1 = audioState w /\ stemsAnalyzing w1 = stemsAnalyzing w /\
  stemsDirHandle w1 = stemsDirHandle w /\ trackNames w1 = trackNames w.
Proof.
  intros Hcheck.
  destruct (checkAccess_world _ _ _ _ _ Hcheck) as [->|[found ->]];
    repeat split; reflexivity.
Qed.

Lemma checkAccess_again id st w s w1 st' w3 :
  checkAccess id st w = Ok (s, w1) ->
  trackCache w3 = trackCache w1 ->
  stemsDirHandle w3 = stemsDirHandle w ->
  trackNames w3 = trackNames w ->
  st' = st \/ st' = Some s ->
  checkAccess id st' w3 = Ok (s, w3).
Proof.
  intros Hcheck Htc Hdir Hnames Hst. unfold checkAccess in *.
  rewrite Htc, Hdir, Hnames.
  destruct (trackCache w !! id ≫= stems) as [cached|] eqn:Hc.
  { injection Hcheck as <- <-. rewrite Hc. reflexivity. }
  destruct (stemsDirHandle w) as [dir|].
  2:{ injection Hcheck as <- <-. rewrite Hc. reflexivity. }
  destruct (queryPermission dir) as [access|].
  2:{ injection Hcheck as <- <-. rewrite Hc. reflexivity. }
  destruct (bool_decide (access ≠ granted)).
  { injection Hcheck as <- <-. rewrite Hc. reflexivity. }
  destruct (bool_decide (st = Some processingStems)) eqn:Hguard.
  { injection Hcheck as <- <-. rewrite Hc.
    apply bool_decide_eq_true in Hguard.
    rewrite bool_decide_eq_true_2; [reflexivity|].
    destruct Hst as [->| ->]; [exact Hguard|reflexivity]. }
  apply bool_decide_eq_false in Hguard.
  assert (Hguard' : forall s0, s0 <> processingStems -> s = s0 ->
            bool_decide (st' = Some processingStems) = false).
  { intros s0 Hs0 ->. apply bool_decide_eq_false_2.
    destruct Hst as [->| ->]; congruence. }
  destruct (trackNames w !! id) as [name|].
  2:{ injection Hcheck as <- <-. rewrite Hc.
      rewrite (Hguard' getStems) by (reflexivity || discriminate).
      reflexivity. }
  destruct (String.eqb name "").
  { injection Hcheck as <- <-. rewrite Hc.
    rewrite (Hguard' getStems) by (reflexivity || discriminate).
    reflexivity. }
  destruct (subdirs dir !! (FILENAME name ++ " - stems")) as [[files|]|].
  - destruct (size (localStems files) <? 4)%nat.
    + injection Hcheck as <- <-. rewrite Hc.
      rewrite (Hguard' getStems) by (reflexivity || discriminate).
      reflexivity.
    + injection Hcheck as <- <-.
      pose proof (cachedStems_storeTrackCache id None (localStems files) w)
        as Hstored.
      unfold cachedStems in Hstored. rewrite Hstored. reflexivity.
  - discriminate.
  - injection Hcheck as <- <-. rewrite Hc.
    rewrite (Hguard' getStems) by (reflexivity || discriminate).
    reflexivity.
Qed.

Lemma with_stemsAnalyzing_same w :
  with_stemsAnalyzing (stemsAnalyzing w) w = w.
Proof. destruct w. reflexivity. Qed.

(** The world [validateTrackStemAccess] leaves, spelled out. *)
Lemma validate_world id w s w' :
  validateTrackStemAccess id w = Ok (s, w') ->
  id <> 0%nat /\
  exists w1,
    checkAccess id (audioState w !! id ≫= stemState) w = Ok (s, w1) /\
    trackCache w' = trackCache w1 /\
    stemsDirHandle w' = stemsDirHandle w /\ trackNames w' = trackNames w /\
    uploads w' = uploads w1 /\ trackSizes w' = trackSizes w1 /\
    stemsAnalyzing w'
    = (if bool_decide (s = ready) then stemsAnalyzing w ∖ {[id]}
       else stemsAnalyzing w) /\
    audioState w'
    = (if bool_decide (audioState w !! id ≫= stemState ≠ Some s
                       ∧ is_Some (audioState w !! id))
       then alter (fun a => {| stemState := Some s;
                               stemTimer := stemTimer a |}) id (audioState w)
       else audioState w).
Proof.
  unfold validateTrackStemAccess. case_bool_decide as Hid; [discriminate|].
  destruct (checkAccess id _ w) as [[s1 w1]|msg] eqn:Hcheck; [|discriminate].
  intros Heq. injection Heq as -> <-. split; [exact Hid|].
  exists w1. split; [reflexivity|].
  destruct (checkAccess_frame _ _ _ _ _ Hcheck) as (Hst & Han & Hdir & Hnm).
  set (w2 := if bool_decide (s = ready)
             then with_stemsAnalyzing (stemsAnalyzing w1 ∖ {[id]}) w1
             else w1).
  assert (H2 : audioState w2 = audioState w /\ trackCache w2 = trackCache w1 /\
               stemsDirHandle w2 = stemsDirHandle w /\
               trackNames w2 = trackNames w /\ uploads w2 = uploads w1 /\
               trackSizes w2 = trackSizes w1 /\
               stemsAnalyzing w2
               = (if bool_decide (s = ready) then stemsAnalyzing w ∖ {[id]}
                  else stemsAnalyzing w)).
  { unfold w2. destruct (bool_decide (s = ready)); cbn; rewrite ?Han; auto 10. }
  clearbody w2. destruct H2 as (Hst2 & Htc2 & Hdir2 & Hnm2 & Hup2 & Hsz2 & Han2).
  rewrite Hst2.
  destruct (bool_decide (s = ready));
    destruct (bool_decide (_ ∧ _)); cbn; rewrite ?Hst2; auto 10.
Qed.

(** X20.  The phase [validateTrackStemAccess] returns is the phase it leaves
    in the audio state of a loaded track; it creates no entry for a track
    that is not loaded, leaves the stem timer and every other track alone,
    and takes the track out of the set of tracks being analysed exactly when
    it answers [ready]. *)
Theorem validate_stores_the_phase_it_returns id w s w' :
  validateTrackStemAccess id w = Ok (s, w') ->
  (is_Some (audioState w !! id) ->
   audioState w' !! id ≫= stemState = Some s) /\
  (audioState w !! id = None -> audioState w' = audioState w) /\
  audioState w' !! id ≫= stemTimer = audioState w !! id ≫= stemTimer /\
  (forall id', id' <> id -> audioState w' !! id' = audioState w !! id') /\
  stemsAnalyzing w'
  = (if decide (s = ready) then stemsAnalyzing w ∖ {[id]}
     else stemsAnalyzing w).
Proof.
  intros Hv. destruct (validate_world id w s w' Hv)
    as (_ & w1 & _ & _ & _ & _ & _ & _ & Han & Hst).
  rewrite Hst, Han. clear Hst Han.
  split; [|split; [|split; [|split]]].
  - intros [a Ha]. case_bool_decide as Hc.
    + rewrite lookup_alter_eq, Ha. reflexivity.
    + rewrite Ha in *. simpl in *.
      destruct (decide (stemState a = Some s)) as [E|E]; [exact E|].
      exfalso. apply Hc. split; [exact E|eauto].
  - intros Hnone. case_bool_decide as Hc; [|reflexivity].
    destruct Hc as [_ [a Ha]]. congruence.
  - case_bool_decide; [|reflexivity]. rewrite lookup_alter_eq.
    destruct (audioState w !! id); reflexivity.
  - intros id' Hne. case_bool_decide; [|reflexivity].
    apply lookup_alter_ne. congruence.
  - destruct (decide (s = ready)) as [E|E].
    + rewrite bool_decide_eq_true_2 by exact E. reflexivity.
    + rewrite bool_decide_eq_false_2 by exact E. reflexivity.
Qed.

Lemma validate_stores_the_phase_it_returns_witness :
  exists w',
    validateTrackStemAccess 1 (generating uploadingFile) = Ok (getStems, w') /\
    audioState w' !! 1%nat ≫= stemState = Some getStems.
Proof.
  eexists. split; [vm_compute; reflexivity|].
  eapply (validate_stores_the_phase_it_returns 1 (generating uploadingFile)).
  - vm_compute. reflexivity.
  - vm_compute. eauto.
Defined.

(** X21.  [validateTrackStemAccess] is idempotent: called again on the state
    it left, it returns the same phase and changes nothing. *)
Theorem validate_is_idempotent id w s w' :
  validateTrackStemAccess id w = Ok (s, w') ->
  validateTrackStemAccess id w' = Ok (s, w').
Proof.
  intros Hv. destruct (validate_world id w s w' Hv)
    as (Hid & w1 & Hcheck & Htc & Hdir & Hnm & _ & _ & Han & Hst).
  set (st := audioState w !! id ≫= stemState) in *.
  set (st' := audioState w' !! id ≫= stemState).
  assert (Hst' : st' = st \/ st' = Some s).
  { unfold st'. rewrite Hst. case_bool_decide as Hc; [|left; reflexivity].
    right. destruct Hc as [_ [a Ha]]. rewrite lookup_alter_eq, Ha. reflexivity. }
  assert (Hsame : st' = Some s \/ audioState w' !! id = None).
  { unfold st'. rewrite Hst. case_bool_decide as Hc.
    - left. destruct Hc as [_ [a Ha]]. rewrite lookup_alter_eq, Ha. reflexivity.
    - destruct (audioState w !! id) as [a|] eqn:Ha; [|right; reflexivity].
      left. fold st. destruct (decide (st = Some s)) as [E|E]; [exact E|].
      exfalso. apply Hc. split; [exact E|eauto]. }
  pose proof (checkAccess_again id st w s w1 st' w' Hcheck Htc Hdir Hnm Hst')
    as Hagain.
  unfold validateTrackStemAccess.
  rewrite bool_decide_eq_false_2 by exact Hid.
  fold st'. rewrite Hagain.
  assert (Hset : (if bool_decide (s = ready)
                  then with_stemsAnalyzing (stemsAnalyzing w' ∖ {[id]}) w'
                  else w') = w').
  { destruct (decide (s = ready)) as [E|E].
    - rewrite bool_decide_eq_true_2 by exact E.
      transitivity (with_stemsAnalyzing (stemsAnalyzing w') w');
        [|apply with_stemsAnalyzing_same].
      f_equal. rewrite Han, bool_decide_eq_true_2 by exact E.
      apply difference_twice_L.
    - rewrite bool_decide_eq_false_2 by exact E. reflexivity. }
  rewrite Hset.
  rewrite bool_decide_eq_false_2; [reflexivity|].
  intros [Hne Hsome]. destruct Hsame as [E|E]; [contradiction|].
  rewrite E in Hsome. destruct Hsome. discriminate.
Qed.

Lemma validate_is_idempotent_witness :
  let w' := setStemState 1 getStems (generating uploadingFile) in
  validateTrackStemAccess 1 w' = Ok (getStems, w').
Proof.
  intros w'.
  apply (validate_is_idempotent 1 (generating uploadingFile) getStems w').
  vm_compute. reflexivity.
Defined.

End ValidateFacts.

(** ** Further facts about [stemAudio] *)

Section StemRunFacts.
Import StemLifecycle.
Local Open Scope string_scope.

Lemma checkForStems_cases id svc name (statuses : list nat) w :
  match checkForStems id svc name statuses w with
  | inl (Polling w') => w' = w /\ Forall (fun s => s = 202%nat) statuses
  | inl (NeverSettles w') =>
      w' = handleErr id w /\ ~ Forall (fun s => s = 202%nat) statuses
  | inl (Failed _ w') =>
      w' = w /\ fetchStems svc name = None /\
      ~ Forall (fun s => s = 202%nat) statuses
  | inl (Done _) => False
  | inr (stems, w') =>
      w' = w /\ fetchStems svc name = Some stems /\
      ~ Forall (fun s => s = 202%nat) statuses
  end.
Proof.
  induction statuses as [|status later IH]; cbn [checkForStems].
  - split; [reflexivity|constructor].
  - destruct (Nat.eqb_spec status 202) as [->|Hne].
    + destruct (checkForStems id svc name later w) as [[| | |]|[stems w']];
        try exact IH.
      * destruct IH as (-> & Hf & Hall). split; [reflexivity|].
        split; [exact Hf|]. intros Hc. apply Hall. inversion Hc; assumption.
      * destruct IH as (-> & Hall). split; [reflexivity|].
        intros Hc. apply Hall. inversion Hc; assumption.
      * destruct IH as [-> Hall]. split; [reflexivity|]. constructor; auto.
      * destruct IH as (-> & Hf & Hall). split; [reflexivity|].
        split; [exact Hf|]. intros Hc. apply Hall. inversion Hc; assumption.
    + assert (Hnot : ~ Forall (fun s => s = 202%nat) (status :: later)).
      { intros Hc. inversion Hc; contradiction. }
      destruct (status =? 500)%nat; [split; [reflexivity|exact Hnot]|].
      destruct (status =? 200)%nat; [|split; [reflexivity|exact Hnot]].
      destruct (fetchStems svc name); repeat split; auto.
Qed.

(** X22.  The stem service is polled for as long as it answers 202, however
    often that is: any number of 202 answers is skipped, and a run is still
    polling when its recorded answers run out exactly when all of them were
    202. *)
Theorem checkForStems_polls_while_202 id svc name w :
  (forall n later,
     checkForStems id svc name (replicate n 202%nat ++ later) w
     = checkForStems id svc name later w) /\
  (forall statuses,
     checkForStems id svc name statuses w = inl (Polling w) <->
     Forall (fun s => s = 202%nat) statuses).
Proof.
  split.
  - induction n as [|n IH]; intros later; [reflexivity|].
    cbn [replicate app checkForStems]. rewrite Nat.eqb_refl. apply IH.
  - intros statuses.
    pose proof (checkForStems_cases id svc name statuses w) as Hc.
    destruct (checkForStems id svc name statuses w) as [[| | |]|[stems w']].
    + contradiction.
    + destruct Hc as (_ & _ & Hnot). split; [discriminate|contradiction].
    + destruct Hc as (_ & Hnot). split; [discriminate|contradiction].
    + destruct Hc as [-> Hall]. split; auto.
    + destruct Hc as (_ & _ & Hnot). split; [discriminate|contradiction].
Qed.

Lemma storeStems_frame id svc (l : list (Stem * File)) :
  forall w,
    audioState (finalWorld (storeStems id svc l w)) = audioState w /\
    uploads (finalWorld (storeStems id svc l w)) = uploads w.
Proof.
  induction l as [|[type f] l IH]; intros w; cbn [storeStems].
  - split; reflexivity.
  - destruct (writeOk svc type); [|split; reflexivity].
    destruct (IH (storeTrackCache id None (Some {[type := f]}) w))
      as [Hst Hup].
    rewrite Hst, Hup. split; reflexivity.
Qed.

Lemma storeStems_outcome id svc (l : list (Stem * File)) :
  forall w,
    match storeStems id svc l w with
    | Done _ | Failed _ _ => True
    | NeverSettles _ | Polling _ => False
    end.
Proof.
  induction l as [|[type f] l IH]; intros w; cbn [storeStems]; [exact I|].
  destruct (writeOk svc type); [apply IH|exact I].
Qed.

Lemma phaseOf_setStemState id s w :
  is_Some (audioState w !! id) -> phaseOf id (setStemState id s w) = Some s.
Proof.
  intros [a Ha]. unfold phaseOf, setStemState. cbn [audioState with_audioState].
  rewrite lookup_alter_eq, Ha. reflexivity.
Qed.

Lemma phaseOf_ext id w w' :
  audioState w' = audioState w -> phaseOf id w' = phaseOf id w.
Proof. intros Hst. unfold phaseOf. rewrite Hst. reflexivity. Qed.

(** The state of a run once the file is uploaded and the service is being
    polled. *)
Lemma stemAudio_polling_state id (f : File) w :
  is_Some (audioState w !! id) ->
  forall t,
    let w' := setStemState id processingStems
                (setStemTimer id t
                   (with_uploads ((id, fileName f) :: uploads w)
                      (setStemTimer id 100
                         (setStemState id uploadingFile w)))) in
    is_Some (audioState w' !! id) /\
    phaseOf id w' = Some processingStems /\
    uploads w' = (id, fileName f) :: uploads w.
Proof.
  intros [a Ha] t. cbv zeta. split; [|split].
  - cbn. rewrite !lookup_alter_eq, Ha. cbn. eauto.
  - unfold phaseOf. cbn. rewrite !lookup_alter_eq, Ha. reflexivity.
  - reflexivity.
Qed.

Lemma loaded_setStemState id s w :
  is_Some (audioState w !! id) ->
  is_Some (audioState (setStemState id s w) !! id).
Proof.
  intros [a Ha]. cbn. rewrite lookup_alter_eq, Ha. cbn. eauto.
Qed.

(** X23.  Where a run of [stemAudio] that got past its checks leaves the
    phase of the track: [ready] when it returns; [error] when the upload
    fails or the service answers neither 200 nor 202; [processingStems]
    while it polls and also when downloading a stem fails; and
    [downloadingStems] when the stems directory cannot be created or a stem
    cannot be written. *)
Theorem stemAudio_ends_in_a_definite_phase id svc w f :
  trackCache w !! id ≫= file = Some f ->
  dirGranted svc = true ->
  is_Some (audioState w !! id) ->
  match stemAudio id svc w with
  | Done w' => phaseOf id w' = Some ready
  | NeverSettles w' => phaseOf id w' = Some error
  | Polling w' => phaseOf id w' = Some processingStems
  | Failed _ w' =>
      if uploadOk svc
      then match fetchStems svc (fileName f) with
           | None => phaseOf id w' = Some processingStems
           | Some _ => phaseOf id w' = Some downloadingStems
           end
      else phaseOf id w' = Some error
  end.
Proof.
  intros Hf Hdir Hloaded. unfold stemAudio. rewrite Hf, Hdir. cbn [negb].
  destruct (audioState w !! id) as [a|] eqn:Ha; [|destruct Hloaded; discriminate].
  destruct (uploadOk svc); cbn [negb].
  2:{ unfold handleErr. apply phaseOf_setStemState. cbn.
      rewrite !lookup_alter_eq, Ha. cbn. eauto. }
  match goal with
  | |- context [checkForStems id svc (fileName f) (polls svc) ?x] =>
      set (w4 := x)
  end.
  destruct (stemAudio_polling_state id f w ltac:(rewrite Ha; eauto)
              (js_or_lit (trackSizes w !! id) 1 / 1000 * (2 # 100))%Q)
    as (Hloaded4 & Hphase4 & _).
  change (is_Some (audioState w4 !! id)) in Hloaded4.
  change (phaseOf id w4 = Some processingStems) in Hphase4.
  clearbody w4.
  pose proof (checkForStems_cases id svc (fileName f) (polls svc) w4) as Hc.
  destruct (checkForStems id svc (fileName f) (polls svc) w4)
    as [[| | |]|[stems w5]].
  - contradiction.
  - destruct Hc as (-> & -> & _). exact Hphase4.
  - destruct Hc as (-> & _). unfold handleErr.
    apply phaseOf_setStemState. exact Hloaded4.
  - destruct Hc as (-> & _). exact Hphase4.
  - destruct Hc as (-> & Hfetch & _). rewrite Hfetch.
    assert (Hdown : phaseOf id (setStemState id downloadingStems w4)
                    = Some downloadingStems)
      by (apply phaseOf_setStemState; exact Hloaded4).
    assert (Hloaded5 : is_Some (audioState
                                  (setStemState id downloadingStems w4) !! id))
      by (apply loaded_setStemState; exact Hloaded4).
    destruct (mkdirOk svc); cbn [negb]; [|exact Hdown].
    destruct (storeStems_frame id svc stems
                (setStemState id downloadingStems w4)) as [Hst _].
    pose proof (storeStems_outcome id svc stems
                  (setStemState id downloadingStems w4)) as Hout.
    destruct (storeStems id svc stems (setStemState id downloadingStems w4))
      as [w6|msg w6|w6|w6]; cbn [finalWorld] in Hst; try contradiction.
    + apply phaseOf_setStemState. rewrite Hst. exact Hloaded5.
    + rewrite (phaseOf_ext id _ _ Hst). exact Hdown.
Qed.

(** X24.  A run of [stemAudio] uploads the track's file once, and only after
    it has found the cached file, obtained the stems directory and found the
    track loaded; however the run ends, nothing else is uploaded. *)
Theorem stemAudio_uploads_the_file_once id svc w :
  uploads (finalWorld (stemAudio id svc w))
  = match trackCache w !! id ≫= file, audioState w !! id with
    | Some f, Some _ =>
        if dirGranted svc then (id, fileName f) :: uploads w else uploads w
    | _, _ => uploads w
    end.
Proof.
  unfold stemAudio.
  destruct (trackCache w !! id ≫= file) as [f|]; [|reflexivity].
  destruct (dirGranted svc); cbn [negb].
  2:{ destruct (audioState w !! id); reflexivity. }
  destruct (audioState w !! id) as [a|] eqn:Ha; [|reflexivity].
  destruct (uploadOk svc); cbn [negb]; [|reflexivity].
  match goal with
  | |- context [checkForStems id svc (fileName f) (polls svc) ?x] =>
      set (w4 := x)
  end.
  assert (Hup4 : uploads w4 = (id, fileName f) :: uploads w) by reflexivity.
  clearbody w4.
  pose proof (checkForStems_cases id svc (fileName f) (polls svc) w4) as Hc.
  destruct (checkForStems id svc (fileName f) (polls svc) w4)
    as [[| | |]|[stems w5]].
  - contradiction.
  - destruct Hc as (-> & _). exact Hup4.
  - destruct Hc as (-> & _). exact Hup4.
  - destruct Hc as (-> & _). exact Hup4.
  - destruct Hc as (-> & _).
    destruct (mkdirOk svc); cbn [negb]; [|exact Hup4].
    destruct (storeStems_frame id svc stems
                (setStemState id downloadingStems w4)) as [_ Hup].
    destruct (storeStems id svc stems (setStemState id downloadingStems w4))
      as [w6|msg w6|w6|w6]; cbn [finalWorld] in Hup |- *;
      try (rewrite Hup; exact Hup4).
    change (uploads w6 = (id, fileName f) :: uploads w).
    rewrite Hup. exact Hup4.
Qed.

(** X25.  Once [stemAudio] has returned, [validateTrackStemAccess] answers
    [ready] for the track from the cache alone, whatever the stems directory
    holds or permits, and changes nothing but the set of tracks being
    analysed. *)
Theorem stemAudio_then_validate_is_ready id svc w w' :
  id <> 0%nat ->
  stemAudio id svc w = Done w' ->
  validateTrackStemAccess id w'
  = Ok (ready, with_stemsAnalyzing (stemsAnalyzing w' ∖ {[id]}) w').
Proof.
  intros Hid Hrun.
  destruct (stemAudio_done id svc w w' Hrun) as (Hphase & ss & Hss & _).
  unfold validateTrackStemAccess, checkAccess.
  rewrite bool_decide_eq_false_2 by exact Hid.
  unfold cachedStems in Hss. rewrite Hss.
  rewrite (bool_decide_eq_true_2 (ready = ready)) by reflexivity.
  rewrite bool_decide_eq_false_2; [reflexivity|].
  intros [Hne _]. apply Hne. exact Hphase.
Qed.

End StemRunFacts.

Section StemRunExamples.
Import StemLifecycle.
Local Open Scope string_scope.

Lemma stemAudio_ends_in_a_definite_phase_witness :
  phaseOf 1 (finalWorld (stemAudio 1 (service (fun s => bool_decide (s = drums)))
                           (generating getStems)))
  = Some downloadingStems.
Proof.
  assert (Hloaded : is_Some (audioState (generating getStems) !! 1%nat))
    by (vm_compute; eauto).
  pose proof (stemAudio_ends_in_a_definite_phase 1
                (service (fun s => bool_decide (s = drums)))
                (generating getStems) songFile eq_refl eq_refl Hloaded)
    as Hrun.
  vm_compute in Hrun. vm_compute. exact Hrun.
Defined.

Lemma stemAudio_then_validate_is_ready_witness :
  let w' := finalWorld (stemAudio 1 (service (fun _ => true))
                          (generating getStems)) in
  validateTrackStemAccess 1 w'
  = Ok (ready, with_stemsAnalyzing (stemsAnalyzing w' ∖ {[1%nat]}) w').
Proof.
  intros w'.
  apply (stemAudio_then_validate_is_ready 1 (service (fun _ => true))
           (generating getStems) w'); [discriminate|].
  vm_compute. reflexivity.
Defined.

End StemRunExamples.

(** ** Facts about file names *)

Section StemNames.
Import StemLifecycle.
Local Open Scope string_scope.

Lemma length_append_string (x y : string) :
  String.length (x ++ y) = (String.length x + String.length y)%nat.
Proof. induction x as [|a x IH]; simpl; [reflexivity|]. rewrite IH. reflexivity. Qed.

Lemma substring_append_skip (x y : string) n k :
  substring (String.length x + n) k (x ++ y) = substring n k y.
Proof. induction x as [|a x IH]; simpl; [reflexivity|exact IH]. Qed.

Lemma substring_append_prefix (x y : string) :
  substring 0 (String.length x) (x ++ y) = x.
Proof.
  induction x as [|a x IH]; simpl.
  - destruct y; reflexivity.
  - rewrite IH. reflexivity.
Qed.

Lemma endsWith_append suffix (x y : string) :
  (String.length suffix <= String.length y)%nat ->
  endsWith suffix (x ++ y) = endsWith suffix y.
Proof.
  intros Hlen. unfold endsWith. rewrite length_append_string.
  rewrite (proj2 (Nat.leb_le _ (String.length x + String.length y))) by lia.
  rewrite (proj2 (Nat.leb_le _ (String.length y))) by exact Hlen.
  replace (String.length x + String.length y - String.length suffix)%nat
    with (String.length x + (String.length y - String.length suffix))%nat
    by lia.
  rewrite substring_append_skip. reflexivity.
Qed.

Lemma stemOfName_written (base : string) (s : Stem) :
  stemOfName (base ++ " - " ++ stemName s ++ ".mp3") = Some s.
Proof.
  unfold stemOfName. destruct s; cbn [stemName append].
  - rewrite (endsWith_append "- bass.mp3"), (endsWith_append "- vocals.mp3"),
      (endsWith_append "- other.mp3"), (endsWith_append "- drums.mp3")
      by (vm_compute; lia).
    reflexivity.
  - rewrite (endsWith_append "- bass.mp3") by (vm_compute; lia). reflexivity.
  - rewrite (endsWith_append "- bass.mp3"), (endsWith_append "- vocals.mp3")
      by (vm_compute; lia).
    reflexivity.
  - rewrite (endsWith_append "- bass.mp3"), (endsWith_append "- vocals.mp3"),
      (endsWith_append "- other.mp3") by (vm_compute; lia).
    reflexivity.
Qed.

(** X26.  The names [stemAudio] gives the four stem files are the names
    [validateTrackStemAccess] looks for: a directory that holds what a run
    has downloaded yields all four stems, each with its own file, whatever
    the track is called. *)
Theorem written_stems_are_found_again svc name written :
  fetchStems svc name = Some written ->
  (forall stem f,
     (stem, f) ∈ written ->
     localStems (asDirectory written) !! stem = Some f) /\
  size (localStems (asDirectory written)) = 4%nat.
Proof.
  unfold fetchStems, STEMS. cbn [mapM].
  destruct (fetchStem svc drums) as [b1|]; [|discriminate].
  destruct (fetchStem svc bass) as [b2|]; [|discriminate].
  destruct (fetchStem svc vocals) as [b3|]; [|discriminate].
  destruct (fetchStem svc other) as [b4|]; [|discriminate].
  cbn. intros [= <-].
  unfold asDirectory, localStems. cbn [map foldl fst snd fileName].
  pose proof (stemOfName_written (FILENAME name)) as Hfound.
  pose proof (Hfound drums) as Hd. pose proof (Hfound bass) as Hb.
  pose proof (Hfound vocals) as Hv. pose proof (Hfound other) as Ho.
  cbn [stemName] in Hd, Hb, Hv, Ho. rewrite Hd, Hb, Hv, Ho. split.
  - intros stem f Hin.
    repeat (apply elem_of_cons in Hin as [Hin|Hin];
            [injection Hin as -> ->; reflexivity|]).
    inversion Hin.
  - reflexivity.
Qed.

Lemma written_stems_are_found_again_witness :
  size (localStems
          (asDirectory
             (default [] (fetchStems (service (fun _ => true)) "song.mp3"))))
  = 4%nat.
Proof.
  apply (written_stems_are_found_again (service (fun _ => true)) "song.mp3").
  reflexivity.
Defined.

Lemma lastIndexOf_dotFree (s : string) i :
  dotFree s = true -> lastIndexOf "."%char s i = None.
Proof.
  revert i. induction s as [|a s IH]; intros i; simpl; [reflexivity|].
  intros Hfree. apply andb_true_iff in Hfree as [Ha Hs].
  rewrite (IH _ Hs). apply negb_true_iff in Ha. rewrite Ha. reflexivity.
Qed.

Lemma lastIndexOf_extension (base ext : string) i :
  dotFree ext = true ->
  lastIndexOf "."%char (base ++ String "."%char ext) i
  = Some (i + String.length base)%nat.
Proof.
  intros Hfree. revert i. induction base as [|a base IH]; intros i; simpl.
  - rewrite (lastIndexOf_dotFree ext _ Hfree). f_equal. lia.
  - rewrite IH. f_equal. lia.
Qed.

Lemma FILENAME_extension (base ext : string) :
  dotFree ext = true -> FILENAME (base ++ "." ++ ext) = base.
Proof.
  intros Hfree. unfold FILENAME.
  change ("." ++ ext) with (String "."%char ext).
  rewrite (lastIndexOf_extension base ext 0 Hfree). cbn [Nat.add].
  apply substring_append_prefix.
Qed.

(** X27.  [FILENAME] is the name up to its last dot: for a name that ends
    in a dot and an extension without dots it is everything before that
    dot, dots in the base name included; a name without any dot has the
    empty [FILENAME], so that its stems directory is called [" - stems"]
    whatever the track. *)
Theorem FILENAME_drops_the_last_extension :
  (forall base ext,
     dotFree ext = true -> FILENAME (base ++ "." ++ ext) = base) /\
  (forall name, dotFree name = true -> FILENAME name = "").
Proof.
  split.
  - apply FILENAME_extension.
  - intros name Hfree. unfold FILENAME.
    rewrite (lastIndexOf_dotFree name 0 Hfree). reflexivity.
Qed.

Lemma FILENAME_drops_the_last_extension_witness :
  FILENAME ("my.song" ++ "." ++ "mp3") = "my.song" /\ FILENAME "song" = "".
Proof.
  destruct FILENAME_drops_the_last_extension as [Hext Hnone].
  split; [apply Hext | apply Hnone]; reflexivity.
Defined.

End StemNames.

(** ** Facts about file access *)

Section FileFacts.
Import StemLifecycle Files.
Local Open Scope string_scope.

Lemma _getFile_cases track asked w :
  match _getFile track asked w with
  | Ok (Some f, w') =>
      (exists h, handleOf track = Some h /\
                 currentPermission asked h = granted /\
                 read h (name track) = Some f) /\
      w' = storeTrackCache (id track) (Some f) None w
  | Ok (None, w') =>
      w' = w /\
      forall h, handleOf track = Some h ->
                currentPermission asked h <> granted \/ name track = ""
  | Throws _ =>
      exists h, handleOf track = Some h /\ read h (name track) = None
  end.
Proof.
  unfold _getFile. destruct (handleOf track) as [h|].
  2:{ split; [reflexivity|]. intros h [=]. }
  case_bool_decide as Hperm; cbn [andb].
  - destruct (String.eqb_spec (name track) "") as [Hname|Hname]; cbn [negb].
    + split; [reflexivity|]. intros h' [= <-]. right. exact Hname.
    + destruct (read h (name track)) as [f|] eqn:Hread.
      * split; [|reflexivity]. exists h. auto.
      * exists h. auto.
  - split; [reflexivity|]. intros h' [= <-]. left. exact Hperm.
Qed.

Lemma storeTrackCache_file id (f : File) stems w :
  trackCache (storeTrackCache id (Some f) stems w) !! id ≫= file = Some f.
Proof.
  unfold storeTrackCache. cbn [trackCache with_trackCache].
  rewrite lookup_insert_eq. reflexivity.
Qed.

(** X28.  [getPermission] returns a file only if that file is in the track
    cache when it returns: either it was cached, and then nothing is touched
    or asked, or the track's handle, the directory handle before the file
    handle, answered [granted] (at once or after the user was asked) and the
    file read through it was put in the cache.  When it returns no file it
    has changed nothing, and it throws only when reading through a granted
    handle fails. *)
Theorem getPermission_returns_a_cached_file track w :
  match getPermission track w with
  | Ok (Some f, w') =>
      trackCache w' !! id track ≫= file = Some f /\
      ((trackCache w !! id track ≫= file = Some f /\ w' = w) \/
       (trackCache w !! id track ≫= file = None /\
        exists h asked,
          handleOf track = Some h /\
          currentPermission asked h = granted /\
          read h (name track) = Some f))
  | Ok (None, w') =>
      w' = w /\ trackCache w !! id track ≫= file = None
  | Throws _ =>
      trackCache w !! id track ≫= file = None /\
      exists h, handleOf track = Some h /\ read h (name track) = None
  end.
Proof.
  unfold getPermission.
  destruct (trackCache w !! id track ≫= file) as [f|] eqn:Hcache.
  { split; [exact Hcache|]. left. split; reflexivity. }
  pose proof (_getFile_cases track false w) as Hfirst.
  destruct (_getFile track false w) as [[[f|] w1]|msg].
  - destruct Hfirst as [(h & Hh & Hp & Hr) ->]. split.
    + apply storeTrackCache_file.
    + right. split; [reflexivity|]. exists h, false. auto.
  - destruct Hfirst as [-> _].
    pose proof (_getFile_cases track true w) as Hsecond.
    destruct (_getFile track true w) as [[[f|] w2]|msg].
    + destruct Hsecond as [(h & Hh & Hp & Hr) ->]. split.
      * apply storeTrackCache_file.
      * right. split; [reflexivity|]. exists h, true. auto.
    + destruct Hsecond as [-> _]. split; reflexivity.
    + split; [reflexivity|exact Hsecond].
  - split; [reflexivity|exact Hfirst].
Qed.

Lemma pickStemsDir_cases user w dir w' :
  pickStemsDir user w = Ok (Some dir, w') ->
  queryPermission dir = Some granted /\
  w' = with_stemsDirHandle (Some dir) w /\ picked user = Some dir.
Proof.
  unfold pickStemsDir. destruct (picked user) as [new|]; [|discriminate].
  destruct (queryPermission new) as [access|] eqn:Hq; [|discriminate].
  case_bool_decide as Hg; [|discriminate].
  intros [= <- <-]. subst access. auto.
Qed.

Lemma getStemsDirHandle_cases user w dir w' :
  getStemsDirHandle user w = Ok (Some dir, w') ->
  queryPermission dir = Some granted /\
  (w' = w /\ stemsDirHandle w = Some dir \/
   w' = with_stemsDirHandle (Some dir) w).
Proof.
  unfold getStemsDirHandle.
  destruct (stemsDirHandle w) as [old|] eqn:Hold.
  2:{ intros Hpick. apply pickStemsDir_cases in Hpick as (Hq & -> & _). auto. }
  destruct (queryPermission old) as [access|] eqn:Hq; [|discriminate].
  case_bool_decide as Hg.
  { intros [= <- <-]. subst access. auto. }
  destruct (requestAnswer user) as [answer|]; [|discriminate].
  case_bool_decide as Ha.
  { intros [= <- <-]. subst answer. split; [reflexivity|]. right. reflexivity. }
  intros Hpick. apply pickStemsDir_cases in Hpick as (Hq' & -> & _).
  split; [exact Hq'|]. right. reflexivity.
Qed.

(** X29.  A directory returned by [getStemsDirHandle] answers [granted] to a
    permission query and is the stems directory on record when the call
    returns; nothing else of the state has changed.  From then on
    [validateTrackStemAccess] asks neither for a directory nor for access
    to it. *)
Theorem getStemsDirHandle_returns_a_granted_directory user w dir w' :
  getStemsDirHandle user w = Ok (Some dir, w') ->
  queryPermission dir = Some granted /\
  stemsDirHandle w' = Some dir /\
  (trackCache w' = trackCache w /\ audioState w' = audioState w /\
   uploads w' = uploads w) /\
  forall id s w'',
    validateTrackStemAccess id w' = Ok (s, w'') ->
    s <> selectStemDir /\ s <> grantStemDirAccess.
Proof.
  intros Hget.
  destruct (getStemsDirHandle_cases user w dir w' Hget) as [Hq Hw].
  assert (Hdir : stemsDirHandle w' = Some dir).
  { destruct Hw as [[-> Hold]| ->]; [exact Hold|reflexivity]. }
  split; [exact Hq|]. split; [exact Hdir|]. split.
  { destruct Hw as [[-> _]| ->]; repeat split; reflexivity. }
  intros id s w'' Hv. unfold validateTrackStemAccess in Hv.
  case_bool_decide; [discriminate|].
  destruct (checkAccess id _ w') as [[s1 w1]|msg] eqn:Hcheck; [|discriminate].
  injection Hv as -> _.
  unfold checkAccess in Hcheck. rewrite Hdir, Hq in Hcheck.
  rewrite bool_decide_eq_false_2 in Hcheck by (intros Hne; apply Hne; reflexivity).
  repeat match type of Hcheck with
         | context [match ?x with _ => _ end] => destruct x
         end;
    try discriminate; injection Hcheck as <- _; split; discriminate.
Qed.

Lemma getStemsDirHandle_returns_a_granted_directory_witness :
  stemsDirHandle
    (with_stemsDirHandle (Some stemsDir) freshLibrary) = Some stemsDir /\
  forall id s w'',
    validateTrackStemAccess id
      (with_stemsDirHandle (Some stemsDir) freshLibrary) = Ok (s, w'') ->
    s <> selectStemDir /\ s <> grantStemDirAccess.
Proof.
  destruct (getStemsDirHandle_returns_a_granted_directory picksStemsDir
              freshLibrary stemsDir
              (with_stemsDirHandle (Some stemsDir) freshLibrary) eq_refl)
    as (_ & Hdir & _ & Hvalid).
  split; [exact Hdir | exact Hvalid].
Defined.

End FileFacts.

Section FileExamples.
Import StemLifecycle Files.
Local Open Scope string_scope.

(** The first call for a track in a folder the user has yet to open: the
    user is asked, grants access, and the file is read and cached. *)
Example getPermission_asks_and_caches :
  exists w',
    getPermission songTrack freshLibrary = Ok (Some songFile, w') /\
    trackCache w' !! 1%nat ≫= file = Some songFile /\
    getPermission songTrack w' = Ok (Some songFile, w').
Proof.
  eexists. split; [vm_compute; reflexivity|].
  split; vm_compute; reflexivity.
Qed.

End FileExamples.

(** ** Facts about the stems maps *)

Section StemsPresent.
Import Engine.
Context {num : Type} `{JsNumber num}.
Implicit Types (w : World num) (id : nat).











End StemsPresent.

Section StemsPresentExamples.
Import Engine.



End StemsPresentExamples.
